(** * The decorative 3D animation module (js/three-animations.js)

    A shallow embedding of the three classes of the module:
    [ThreeJSAnimator] (one rendering context bound to one canvas),
    [HeroAnimator] (the hero variant) and [AnimationManager] (the pool),
    together with the part of the browser they talk to: the animation-frame
    callback list, timers, the two visibility notifications, the console.

    Conventions.
    - A JS number is an exact rational ([Q]); IEEE rounding is not modelled.
      [Math.PI] is the rational value of the double constant. What is
      stated about numbers is therefore kept to what rounding preserves: an
      equation follows the code one operation at a time, and a bound is
      strict only where the rounded value stays off the end point.
    - [Math.random], [Math.sin] and [Math.cos] are given by a [Runtime]:
      [random n] is the value returned by the n-th call of [Math.random].
    - A JS object is a record whose fields are options ([None] is
      undefined/null); reading a property of undefined throws a TypeError,
      and a mutation made before a throw persists.
    - Animator objects live in a heap and are referred to by index, because
      frame callbacks and listeners close over [this].
    - THREE.js is opaque: a geometry is the constructor call that made it, a
      material colour is the last value it was set to, a scene is the list of
      its children, a renderer counts the frames it presented. Canvas sizes,
      light parameters and [handleResize] are left out. *)

From Stdlib Require Import QArith Qround ZArith Lia Lqa.
From stdpp Require Import base option list strings.

Open Scope Q_scope.

(** ** Numbers *)

Definition Math_PI : Q := 884279719003555 # 281474976710656.

(** [Math.floor] and the truncation behind JS's [%]. *)
Definition Math_floor (v : Q) : Z := Qfloor v.

Definition trunc (v : Q) : Z :=
  if Qlt_le_dec v 0 then Qceiling v else Qfloor v.

(** [v % 1]: the remainder has the sign of the dividend. *)
Definition mod1 (v : Q) : Q := v - inject_Z (trunc v).

(** [a > b] on numbers. *)
Definition gt (a b : Q) : bool := if Qlt_le_dec b a then true else false.

(** A runtime to run the model on concrete pages: a sequence in [0, 1), and
    the first terms of the series of sine and cosine. *)
Definition sample_random (n : nat) : Q := Z.of_nat ((37 * n + 11) mod 100) # 100.
Definition sample_sin (v : Q) : Q := v - v * v * v / 6.
Definition sample_cos (v : Q) : Q := 1 - v * v / 2.

(** ** THREE.js values *)

Record Vector3 := { vx : Q; vy : Q; vz : Q }.

Inductive Geometry :=
| SphereGeometry (radius widthSegments heightSegments : Q)
| BoxGeometry (width height depth : Q)
| TorusGeometry (radius tube radialSegments tubularSegments : Q)
| OctahedronGeometry (radius : Q)
| IcosahedronGeometry (radius detail : Q)
| TetrahedronGeometry (radius : Q).

(** The primitive a geometry is an instance of. *)
Inductive Primitive := Sphere | Box | Torus | Octahedron | Icosahedron | Tetrahedron.

Definition primitive (g : Geometry) : Primitive :=
  match g with
  | SphereGeometry _ _ _ => Sphere
  | BoxGeometry _ _ _ => Box
  | TorusGeometry _ _ _ _ => Torus
  | OctahedronGeometry _ => Octahedron
  | IcosahedronGeometry _ _ => Icosahedron
  | TetrahedronGeometry _ => Tetrahedron
  end.

(** A material colour: built from a hex value (or from undefined), or set by
    [setHSL]. *)
Inductive Color :=
| ColorHex (hex : Z)
| ColorUndefined
| ColorHSL (h s l : Q).

Record UserData := {
  rotationSpeed : Vector3;
  floatSpeed : Q;
  floatAmount : Q;
  originalPosition : Vector3;
  userData_scale : Q;
  pulseSpeed : Q }.

Record Mesh := {
  uid : nat;
  geometry : Geometry;
  material_color : Color;
  position : Vector3;
  rotation : Vector3;
  scale : Vector3;
  userData : UserData }.

Inductive SceneNode :=
| AmbientLight
| DirectionalLight
| PointLight
| MeshNode (id : nat).

#[global] Instance SceneNode_eq_dec : EqDecision SceneNode.
Proof. solve_decision. Defined.

Record WebGLRenderer := { disposed : bool; frames : nat }.

(** ** The animator object and the host *)

Record ThreeJSAnimator := {
  canvas : option string;
  scene : option (list SceneNode);
  camera : option Vector3;
  renderer : option WebGLRenderer;
  color1 : option Z;
  color2 : option Z;
  objects : option (list Mesh);
  animationId : option nat;
  isPlaying : option bool }.

(** [new] starts from an object with no own property. *)
Definition empty_object : ThreeJSAnimator :=
  {| canvas := None; scene := None; camera := None; renderer := None;
     color1 := None; color2 := None; objects := None;
     animationId := None; isPlaying := None |}.

Inductive LogEntry :=
| warn_canvas_not_found (canvasId : string)
| error_hero_failed
| error_card_failed (canvasId : string).

Inductive Exn :=
| TypeError (property : string)
| WebGLError.

Record Host := {
  dom : list string;
  webgl : bool;
  hidden : bool;
  clock : Z;
  draws : nat;
  uids : nat;
  raf_id : nat;
  raf_callbacks : list (nat * nat);
  visibility_listeners : list nat;
  intersection_observers : list nat;
  released : list nat;
  console : list LogEntry }.

(** Field updates. *)
Definition with_canvas v (a : ThreeJSAnimator) :=
  {| canvas := v; scene := scene a; camera := camera a; renderer := renderer a;
     color1 := color1 a; color2 := color2 a; objects := objects a;
     animationId := animationId a; isPlaying := isPlaying a |}.
Definition with_scene v (a : ThreeJSAnimator) :=
  {| canvas := canvas a; scene := v; camera := camera a; renderer := renderer a;
     color1 := color1 a; color2 := color2 a; objects := objects a;
     animationId := animationId a; isPlaying := isPlaying a |}.
Definition with_camera v (a : ThreeJSAnimator) :=
  {| canvas := canvas a; scene := scene a; camera := v; renderer := renderer a;
     color1 := color1 a; color2 := color2 a; objects := objects a;
     animationId := animationId a; isPlaying := isPlaying a |}.
Definition with_renderer v (a : ThreeJSAnimator) :=
  {| canvas := canvas a; scene := scene a; camera := camera a; renderer := v;
     color1 := color1 a; color2 := color2 a; objects := objects a;
     animationId := animationId a; isPlaying := isPlaying a |}.
Definition with_colors v1 v2 (a : ThreeJSAnimator) :=
  {| canvas := canvas a; scene := scene a; camera := camera a; renderer := renderer a;
     color1 := v1; color2 := v2; objects := objects a;
     animationId := animationId a; isPlaying := isPlaying a |}.
Definition with_objects v (a : ThreeJSAnimator) :=
  {| canvas := canvas a; scene := scene a; camera := camera a; renderer := renderer a;
     color1 := color1 a; color2 := color2 a; objects := v;
     animationId := animationId a; isPlaying := isPlaying a |}.
Definition with_animationId v (a : ThreeJSAnimator) :=
  {| canvas := canvas a; scene := scene a; camera := camera a; renderer := renderer a;
     color1 := color1 a; color2 := color2 a; objects := objects a;
     animationId := v; isPlaying := isPlaying a |}.
Definition with_isPlaying v (a : ThreeJSAnimator) :=
  {| canvas := canvas a; scene := scene a; camera := camera a; renderer := renderer a;
     color1 := color1 a; color2 := color2 a; objects := objects a;
     animationId := animationId a; isPlaying := v |}.

Definition with_clock v (h : Host) :=
  {| dom := dom h; webgl := webgl h; hidden := hidden h; clock := v;
     draws := draws h;
     uids := uids h;
     raf_id := raf_id h; raf_callbacks := raf_callbacks h;
     visibility_listeners := visibility_listeners h;
     intersection_observers := intersection_observers h;
     released := released h; console := console h |}.
Definition with_hidden v (h : Host) :=
  {| dom := dom h; webgl := webgl h; hidden := v; clock := clock h; draws := draws h;
     uids := uids h; raf_id := raf_id h; raf_callbacks := raf_callbacks h;
     visibility_listeners := visibility_listeners h;
     intersection_observers := intersection_observers h;
     released := released h; console := console h |}.
Definition with_draws v (h : Host) :=
  {| dom := dom h; webgl := webgl h; hidden := hidden h; clock := clock h; draws := v;
     uids := uids h;
     raf_id := raf_id h; raf_callbacks := raf_callbacks h;
     visibility_listeners := visibility_listeners h;
     intersection_observers := intersection_observers h;
     released := released h; console := console h |}.
Definition with_uids v (h : Host) :=
  {| dom := dom h; webgl := webgl h; hidden := hidden h; clock := clock h;
     draws := draws h; uids := v;
     raf_id := raf_id h; raf_callbacks := raf_callbacks h;
     visibility_listeners := visibility_listeners h;
     intersection_observers := intersection_observers h;
     released := released h; console := console h |}.
Definition with_raf id cbs (h : Host) :=
  {| dom := dom h; webgl := webgl h; hidden := hidden h; clock := clock h;
     draws := draws h; uids := uids h;
     raf_id := id; raf_callbacks := cbs;
     visibility_listeners := visibility_listeners h;
     intersection_observers := intersection_observers h;
     released := released h; console := console h |}.
Definition with_listeners vl io (h : Host) :=
  {| dom := dom h; webgl := webgl h; hidden := hidden h; clock := clock h;
     draws := draws h; uids := uids h;
     raf_id := raf_id h; raf_callbacks := raf_callbacks h;
     visibility_listeners := vl;
     intersection_observers := io;
     released := released h; console := console h |}.
Definition with_released v (h : Host) :=
  {| dom := dom h; webgl := webgl h; hidden := hidden h; clock := clock h;
     draws := draws h; uids := uids h;
     raf_id := raf_id h; raf_callbacks := raf_callbacks h;
     visibility_listeners := visibility_listeners h;
     intersection_observers := intersection_observers h;
     released := v; console := console h |}.
Definition with_console v (h : Host) :=
  {| dom := dom h; webgl := webgl h; hidden := hidden h; clock := clock h;
     draws := draws h; uids := uids h;
     raf_id := raf_id h; raf_callbacks := raf_callbacks h;
     visibility_listeners := visibility_listeners h;
     intersection_observers := intersection_observers h;
     released := released h; console := v |}.

(** ** Method bodies: state and exceptions

    A method runs on [this] and the host and completes normally with a value
    or abruptly with an exception; the state is returned in both cases. *)

Record St := { this : ThreeJSAnimator; host : Host }.

Inductive Completion (A : Type) :=
| Normal (v : A)
| Throw (e : Exn).
Arguments Normal {A} v.
Arguments Throw {A} e.

Definition M (A : Type) : Type := St -> St * Completion A.

#[global] Instance M_ret : MRet M := fun A v s => (s, Normal v).
#[global] Instance M_bind : MBind M := fun A B k m s =>
  match m s with
  | (s', Normal v) => k v s'
  | (s', Throw e) => (s', Throw e)
  end.

Definition throw {A} (e : Exn) : M A := fun s => (s, Throw e).
Definition get_this : M ThreeJSAnimator := fun s => (s, Normal (this s)).
Definition get_host : M Host := fun s => (s, Normal (host s)).
Definition update_this (f : ThreeJSAnimator -> ThreeJSAnimator) : M unit :=
  fun s => ({| this := f (this s); host := host s |}, Normal tt).
Definition update_host (f : Host -> Host) : M unit :=
  fun s => ({| this := this s; host := f (host s) |}, Normal tt).

(** Reading a property of [this.<field>]: a TypeError when the field is
    undefined. *)
Definition deref {A} (field : ThreeJSAnimator -> option A) (name : string) : M A :=
  a ← get_this;
  match field a with
  | Some v => mret v
  | None => throw (TypeError name)
  end.

(** JS truthiness of the two fields the code tests. *)
Definition truthy_flag (b : option bool) : bool := default false b.
Definition truthy_id (i : option nat) : bool :=
  match i with
  | Some (S _) => true
  | _ => false
  end.

(** ** Host primitives *)

(** What the JS runtime provides: [random n] is the value of the n-th call of
    [Math.random()]. *)
Class Runtime := {
  random : nat -> Q;
  Math_sin : Q -> Q;
  Math_cos : Q -> Q }.

Section Runtime.

Context {rt : Runtime}.

Definition Math_random : M Q :=
  h ← get_host;
  update_host (with_draws (S (draws h)));;
  mret (random (draws h)).

Definition Date_now : M Q :=
  h ← get_host; mret (inject_Z (clock h)).

Definition getElementById (id : string) : M (option string) :=
  h ← get_host;
  mret (if bool_decide (id ∈ dom h) then Some id else None).

(** The handle is the incremented callback identifier, so it is never 0. *)
Definition requestAnimationFrame (self : nat) : M nat :=
  h ← get_host;
  let id := S (raf_id h) in
  update_host (with_raf id (raf_callbacks h ++ [(id, self)]));;
  mret id.

Definition cancelAnimationFrame (id : nat) : M unit :=
  update_host (fun h =>
    with_raf (raf_id h) (filter (fun cb => cb.1 ≠ id) (raf_callbacks h)) h).

Definition console_log (e : LogEntry) : M unit :=
  update_host (fun h => with_console (console h ++ [e]) h).

(** [new THREE.WebGLRenderer] throws when no context can be created. *)
Definition new_WebGLRenderer : M WebGLRenderer :=
  h ← get_host;
  if webgl h then mret {| disposed := false; frames := 0 |} else throw WebGLError.

Definition new_uid : M nat :=
  h ← get_host;
  update_host (with_uids (S (uids h)));;
  mret (uids h).

(** ** ThreeJSAnimator *)

Definition setupScene : M unit :=
  sc ← deref scene "scene";
  update_this (with_scene (Some (sc ++ [AmbientLight])));;
  sc ← deref scene "scene";
  update_this (with_scene (Some (sc ++ [DirectionalLight])));;
  sc ← deref scene "scene";
  update_this (with_scene (Some (sc ++ [PointLight])));;
  cam ← deref camera "camera";
  update_this (with_camera (Some {| vx := vx cam; vy := vy cam; vz := 5 |})).

(** The visibilitychange listener and the intersection observer both close
    over [this]; neither is ever removed. *)
Definition setupEventListeners (self : nat) : M unit :=
  update_host (fun h =>
    with_listeners (visibility_listeners h ++ [self]) (intersection_observers h) h);;
  update_host (fun h =>
    with_listeners (visibility_listeners h) (intersection_observers h ++ [self]) h).

Record Options := {
  opt_size : option Q;
  opt_segments : option Q;
  opt_detail : option Q }.

Definition no_options : Options :=
  {| opt_size := None; opt_segments := None; opt_detail := None |}.

Record Config := { size : Q; segments : Q; detail : Q }.

(** [{ ...defaults, ...options }] *)
Definition merge_config (options : Options) : Config :=
  {| size := default 0.8 (opt_size options);
     segments := default 32 (opt_segments options);
     detail := default 0 (opt_detail options) |}.

(** The [switch] on [type]. *)
Definition make_geometry (type : string) (config : Config) : Geometry :=
  if String.eqb type "sphere" then
    SphereGeometry (size config) (segments config) (segments config)
  else if String.eqb type "cube" then
    BoxGeometry (size config) (size config) (size config)
  else if String.eqb type "torus" then
    TorusGeometry (size config * 0.7) (size config * 0.3) 16 100
  else if String.eqb type "octahedron" then
    OctahedronGeometry (size config)
  else if String.eqb type "icosahedron" then
    IcosahedronGeometry (size config) (detail config)
  else if String.eqb type "tetrahedron" then
    TetrahedronGeometry (size config)
  else
    SphereGeometry (size config) (segments config) (segments config).

Definition material_of (c : option Z) : Color :=
  match c with
  | Some hex => ColorHex hex
  | None => ColorUndefined
  end.

(** [type] is [None] when the argument is undefined: the default parameter
    value applies. *)
Definition createFloatingGeometry (type : option string) (options : Options) : M Mesh :=
  let type := default "sphere"%string type in
  let config := merge_config options in
  let geometry := make_geometry type config in
  r ← Math_random;
  a ← get_this;
  let color := material_of (if gt r 0.5 then color1 a else color2 a) in
  id ← new_uid;
  px ← Math_random; py ← Math_random; pz ← Math_random;
  let position :=
    {| vx := (px - 0.5) * 6; vy := (py - 0.5) * 6; vz := (pz - 0.5) * 3 |} in
  rx ← Math_random; ry ← Math_random; rz ← Math_random;
  let rotation :=
    {| vx := rx * Math_PI * 2; vy := ry * Math_PI * 2; vz := rz * Math_PI * 2 |} in
  sx ← Math_random; sy ← Math_random; sz ← Math_random;
  fs ← Math_random;
  fa ← Math_random;
  ps ← Math_random;
  let mesh :=
    {| uid := id; geometry := geometry; material_color := color;
       position := position; rotation := rotation;
       scale := {| vx := 1; vy := 1; vz := 1 |};
       userData :=
         {| rotationSpeed :=
              {| vx := (sx - 0.5) * 0.02; vy := (sy - 0.5) * 0.02; vz := (sz - 0.5) * 0.02 |};
            floatSpeed := fs * 0.01 + 0.005;
            floatAmount := fa * 0.5 + 0.2;
            originalPosition := position;
            userData_scale := size config;
            pulseSpeed := ps * 0.02 + 0.01 |} |} in
  sc ← deref scene "scene";
  update_this (with_scene (Some (sc ++ [MeshNode id])));;
  objs ← deref objects "objects";
  update_this (with_objects (Some (objs ++ [mesh])));;
  mret mesh.

(** The body of the [forEach] callback of [animate]. *)
Definition animate_object (time : Q) (index : nat) (obj : Mesh) : Mesh :=
  let i := inject_Z (Z.of_nat index) in
  let ud := userData obj in
  let rotation :=
    {| vx := vx (rotation obj) + vx (rotationSpeed ud);
       vy := vy (rotation obj) + vy (rotationSpeed ud);
       vz := vz (rotation obj) + vz (rotationSpeed ud) |} in
  let floatOffset := Math_sin (time * floatSpeed ud + i) * floatAmount ud * 0.1 in
  let position :=
    {| vx := vx (position obj);
       vy := vy (originalPosition ud) + floatOffset;
       vz := vz (position obj) |} in
  let pulse := 1 + Math_sin (time * pulseSpeed ud + i) * 0.1 in
  let s := userData_scale ud * pulse in
  let hue := mod1 (time * 0.1 + i * 0.1) in
  {| uid := uid obj; geometry := geometry obj;
     material_color := ColorHSL hue 0.7 0.6;
     position := position; rotation := rotation;
     scale := {| vx := s; vy := s; vz := s |};
     userData := ud |}.

Definition render (r : WebGLRenderer) : WebGLRenderer :=
  {| disposed := disposed r; frames := S (frames r) |}.

Definition animate (self : nat) : M unit :=
  a ← get_this;
  if negb (truthy_flag (isPlaying a)) then mret tt else
  id ← requestAnimationFrame self;
  update_this (with_animationId (Some id));;
  now ← Date_now;
  let time := now * 0.001 in
  objs ← deref objects "objects";
  update_this (with_objects (Some (imap (animate_object time) objs)));;
  cam ← deref camera "camera";
  update_this (with_camera (Some
    {| vx := Math_sin (time * 0.1) * 0.5; vy := vy cam; vz := vz cam |}));;
  cam ← deref camera "camera";
  update_this (with_camera (Some
    {| vx := vx cam; vy := Math_cos (time * 0.15) * 0.3; vz := vz cam |}));;
  r ← deref renderer "renderer";
  update_this (with_renderer (Some (render r))).

Definition play (self : nat) : M unit :=
  a ← get_this;
  if negb (truthy_flag (isPlaying a)) then
    update_this (with_isPlaying (Some true));;
    animate self
  else mret tt.

Definition pause : M unit :=
  update_this (with_isPlaying (Some false));;
  a ← get_this;
  if truthy_id (animationId a) then
    cancelAnimationFrame (default 0%nat (animationId a))
  else mret tt.

(** The callback of [this.objects.forEach] in [dispose]. *)
Definition dispose_object (obj : Mesh) : M unit :=
  update_host (fun h => with_released (released h ++ [uid obj]) h);;
  sc ← deref scene "scene";
  update_this (with_scene (Some (filter (fun n => n ≠ MeshNode (uid obj)) sc))).

Fixpoint forEach {A} (f : A -> M unit) (l : list A) : M unit :=
  match l with
  | [] => mret tt
  | v :: l' => f v;; forEach f l'
  end.

Definition dispose : M unit :=
  pause;;
  objs ← deref objects "objects";
  forEach dispose_object objs;;
  a ← get_this;
  match renderer a with
  | Some r => update_this (with_renderer (Some {| disposed := true; frames := frames r |}))
  | None => mret tt
  end;;
  update_this (with_objects (Some [])).

(** [types[Math.floor(Math.random() * types.length)]]: undefined out of
    range. *)
Definition pick (types : list string) (r : Q) : option string :=
  let i := Math_floor (r * inject_Z (Z.of_nat (length types))) in
  if (i <? 0)%Z then None else types !! Z.to_nat i.

Fixpoint repeat_M (n : nat) (body : M unit) : M unit :=
  match n with
  | O => mret tt
  | S n' => body;; repeat_M n' body
  end.

Definition addRandomObjects (count : nat) : M unit :=
  let types := ["sphere"; "cube"; "torus"; "octahedron"; "icosahedron"; "tetrahedron"]%string in
  repeat_M count
    (r ← Math_random;
     let type := pick types r in
     s ← Math_random;
     let size := s * 0.5 + 0.5 in
     createFloatingGeometry type
       {| opt_size := Some size; opt_segments := None; opt_detail := None |};;
     mret tt).

(** The constructor, run on the fresh object. [c1], [c2] are [None] when the
    argument is omitted. *)
Definition constructor (self : nat) (canvasId : string) (c1 c2 : option Z) : M unit :=
  el ← getElementById canvasId;
  update_this (with_canvas el);;
  match el with
  | None => console_log (warn_canvas_not_found canvasId)
  | Some _ =>
    update_this (with_scene (Some []));;
    update_this (with_camera (Some {| vx := 0; vy := 0; vz := 0 |}));;
    r ← new_WebGLRenderer;
    update_this (with_renderer (Some r));;
    update_this (with_colors (Some (default 0x00FFFF%Z c1)) (Some (default 0xFF00FF%Z c2)));;
    update_this (with_objects (Some []));;
    update_this (with_animationId None);;
    update_this (with_isPlaying (Some true));;
    setupScene;;
    setupEventListeners self;;
    animate self
  end.

(** ** HeroAnimator *)

Definition createHeroScene : M unit :=
  let types := ["sphere"; "cube"; "torus"; "octahedron"; "icosahedron"]%string in
  repeat_M 20
    (r ← Math_random;
     let type := pick types r in
     s ← Math_random;
     let size := s * 0.8 + 0.4 in
     createFloatingGeometry type
       {| opt_size := Some size; opt_segments := None; opt_detail := None |};;
     mret tt);;
  repeat_M 3
    (s ← Math_random;
     let size := s * 1.5 + 1 in
     createFloatingGeometry (Some "icosahedron"%string)
       {| opt_size := Some size; opt_segments := None; opt_detail := None |};;
     mret tt).

Definition HeroAnimator_constructor (self : nat) : M unit :=
  constructor self "hero-canvas" (Some 0x00FFFF%Z) (Some 0xFF00FF%Z);;
  createHeroScene.

(** The two listeners installed by [setupEventListeners]. *)
Definition on_visibilitychange (self : nat) : M unit :=
  h ← get_host;
  if hidden h then pause else play self.

Definition on_intersection (self : nat) (target : string) (isIntersecting : bool) : M unit :=
  a ← get_this;
  if bool_decide (canvas a = Some target) then
    if isIntersecting then play self else pause
  else mret tt.

(** ** The page: heap, manager, timers *)

Record CardConfig := { config_id : string; config_colors : Z * Z }.

Inductive Task :=
| task_initCardAnimations
| task_card (config : CardConfig).

Record World := {
  heap : list ThreeJSAnimator;
  env : Host;
  animators : list (string * nat);
  cardConfigs : list CardConfig;
  timers : list (Z * Task);
  reported : list (string * bool) }.

Definition with_heap_env hp e (w : World) :=
  {| heap := hp; env := e; animators := animators w; cardConfigs := cardConfigs w;
     timers := timers w; reported := reported w |}.
Definition with_animators v (w : World) :=
  {| heap := heap w; env := env w; animators := v; cardConfigs := cardConfigs w;
     timers := timers w; reported := reported w |}.
Definition with_timers v (w : World) :=
  {| heap := heap w; env := env w; animators := animators w; cardConfigs := cardConfigs w;
     timers := v; reported := reported w |}.
Definition with_reported v (w : World) :=
  {| heap := heap w; env := env w; animators := animators w; cardConfigs := cardConfigs w;
     timers := timers w; reported := v |}.
Definition with_env e (w : World) := with_heap_env (heap w) e w.

(** Calling a method on the object at [r]. *)
Definition call {A} (r : nat) (m : M A) (w : World) : World * option (Completion A) :=
  match heap w !! r with
  | Some a =>
    let '(s, c) := m {| this := a; host := env w |} in
    (with_heap_env (<[r := this s]> (heap w)) (host s) w, Some c)
  | None => (w, None)
  end.

(** [new C(...)]: the constructor body runs on a fresh object, which gets the
    next free address whether or not the caller keeps it. *)
Definition new {A} (body : nat -> M A) (w : World) : World * nat * Completion A :=
  let self := length (heap w) in
  let '(s, c) := body self {| this := empty_object; host := env w |} in
  (with_heap_env (heap w ++ [this s]) (host s) w, self, c).

(** [Map.prototype.set]: an existing key keeps its place. *)
Fixpoint Map_set (k : string) (v : nat) (m : list (string * nat)) : list (string * nat) :=
  match m with
  | [] => [(k, v)]
  | (k', v') :: m' =>
    if String.eqb k' k then (k, v) :: m' else (k', v') :: Map_set k v m'
  end.

(** [setTimeout]: the timer list is kept in firing order (due time, then
    registration). *)
Fixpoint insert_timer (due : Z) (t : Task) (q : list (Z * Task)) : list (Z * Task) :=
  match q with
  | [] => [(due, t)]
  | (d, t') :: q' =>
    if (due <? d)%Z then (due, t) :: q else (d, t') :: insert_timer due t q'
  end.

Definition setTimeout (t : Task) (delay : Z) (w : World) : World :=
  with_timers (insert_timer (clock (env w) + delay) t (timers w)) w.

Definition console_error (e : LogEntry) (w : World) : World :=
  with_env (with_console (console (env w) ++ [e]) (env w)) w.

(** ** AnimationManager *)

Definition initHeroAnimation (w : World) : World :=
  let '(w1, heroAnimator, c) := new HeroAnimator_constructor w in
  match c with
  | Normal _ => with_animators (Map_set "hero-canvas" heroAnimator (animators w1)) w1
  | Throw _ => console_error error_hero_failed w1
  end.

(** The callback that [initCardAnimations] hands to [setTimeout]: the value of
    the body says whether [animator.canvas] was truthy. *)
Definition card_body (config : CardConfig) (self : nat) : M bool :=
  constructor self (config_id config)
    (Some (config_colors config).1) (Some (config_colors config).2);;
  a ← get_this;
  match canvas a with
  | Some _ => addRandomObjects 3;; mret true
  | None => mret false
  end.

Definition initCard (config : CardConfig) (w : World) : World :=
  let '(w1, animator, c) := new (card_body config) w in
  match c with
  | Normal true => with_animators (Map_set (config_id config) animator (animators w1)) w1
  | Normal false => w1
  | Throw _ => console_error (error_card_failed (config_id config)) w1
  end.

Fixpoint stagger (configs : list CardConfig) (index : Z) (w : World) : World :=
  match configs with
  | [] => w
  | config :: rest => stagger rest (index + 1) (setTimeout (task_card config) (index * 50) w)
  end.

Definition initCardAnimations (w : World) : World :=
  stagger (cardConfigs w) 0 w.

Definition init (w : World) : World :=
  setTimeout task_initCardAnimations 500 (initHeroAnimation w).

(** [this.animators.forEach(animator => animator.m())]: a throw ends the
    loop. *)
Fixpoint forEach_animator (m : nat -> M unit) (l : list (string * nat)) (w : World)
  : World * Completion unit :=
  match l with
  | [] => (w, Normal tt)
  | (_, r) :: l' =>
    match call r (m r) w with
    | (w', Some (Throw e)) => (w', Throw e)
    | (w', _) => forEach_animator m l' w'
    end
  end.

Definition pauseAll (w : World) : World * Completion unit :=
  forEach_animator (fun _ => pause) (animators w) w.

Definition playAll (w : World) : World * Completion unit :=
  forEach_animator play (animators w) w.

Definition AnimationManager_dispose (w : World) : World * Completion unit :=
  match forEach_animator (fun _ => dispose) (animators w) w with
  | (w', Normal _) => (with_animators [] w', Normal tt)
  | (w', Throw e) => (w', Throw e)
  end.

(** ** What the browser and the page can do *)

Definition run_task (t : Task) (w : World) : World :=
  match t with
  | task_initCardAnimations => initCardAnimations w
  | task_card config => initCard config w
  end.

(** The next timer fires; the clock is then at least its due time. *)
Definition timeout (w : World) : World :=
  match timers w with
  | [] => w
  | (due, t) :: q =>
    run_task t (with_timers q (with_env (with_clock (Z.max (clock (env w)) due) (env w)) w))
  end.

(** The browser runs a pending frame callback, which leaves the list first. *)
Definition frame (handle : nat) (w : World) : World :=
  match list_find (fun cb => cb.1 = handle) (raf_callbacks (env w)) with
  | Some (_, (_, r)) =>
    let e := env w in
    let w1 := with_env (with_raf (raf_id e)
                (filter (fun cb => cb.1 ≠ handle) (raf_callbacks e)) e) w in
    (call r (animate r) w1).1
  | None => w
  end.

(** Listeners run one after the other; a throw in one is reported by the
    browser and does not stop the next. *)
Fixpoint dispatch (handler : nat -> M unit) (listeners : list nat) (w : World) : World :=
  match listeners with
  | [] => w
  | r :: rest => dispatch handler rest (call r (handler r) w).1
  end.

Definition visibilitychange (hid : bool) (w : World) : World :=
  let w1 := with_env (with_hidden hid (env w)) w in
  dispatch on_visibilitychange (visibility_listeners (env w1)) w1.

Definition intersection (target : string) (isIntersecting : bool) (w : World) : World :=
  let w1 := with_reported ((target, isIntersecting) :: reported w) w in
  dispatch (fun r => on_intersection r target isIntersecting)
    (intersection_observers (env w1)) w1.

Inductive Method :=
| m_createFloatingGeometry (type : option string) (options : Options)
| m_addRandomObjects (count : nat)
| m_play
| m_pause
| m_dispose.

Definition method (m : Method) (self : nat) : M unit :=
  match m with
  | m_createFloatingGeometry type options => createFloatingGeometry type options;; mret tt
  | m_addRandomObjects count => addRandomObjects count
  | m_play => play self
  | m_pause => pause
  | m_dispose => dispose
  end.

Inductive Event :=
| ev_new (canvasId : string) (c1 c2 : option Z)
| ev_new_hero
| ev_call (r : nat) (m : Method)
| ev_frame (handle : nat)
| ev_visibilitychange (hid : bool)
| ev_intersection (target : string) (isIntersecting : bool)
| ev_clock (t : Z)
| ev_timeout
| ev_init
| ev_pauseAll
| ev_playAll
| ev_dispose.

Definition step (w : World) (e : Event) : World :=
  match e with
  | ev_new canvasId c1 c2 => (new (fun self => constructor self canvasId c1 c2) w).1.1
  | ev_new_hero => (new HeroAnimator_constructor w).1.1
  | ev_call r m => (call r (method m r) w).1
  | ev_frame handle => frame handle w
  | ev_visibilitychange hid => visibilitychange hid w
  | ev_intersection target b => intersection target b w
  | ev_clock t => with_env (with_clock t (env w)) w
  | ev_timeout => timeout w
  | ev_init => init w
  | ev_pauseAll => (pauseAll w).1
  | ev_playAll => (playAll w).1
  | ev_dispose => (AnimationManager_dispose w).1
  end.

Definition run (w : World) (es : list Event) : World := fold_left step es w.

(** The manager as its constructor leaves it, on a page whose canvases are
    [d]. *)
Definition AnimationManager_cardConfigs : list CardConfig :=
  [ {| config_id := "about-canvas-1"; config_colors := (0x00FFFF, 0x6600CC)%Z |};
    {| config_id := "about-canvas-2"; config_colors := (0xFF00FF, 0x00CC66)%Z |};
    {| config_id := "about-canvas-3"; config_colors := (0xFFFF00, 0xFF6600)%Z |};
    {| config_id := "services-canvas-1"; config_colors := (0x00CC66, 0x00FFFF)%Z |};
    {| config_id := "services-canvas-2"; config_colors := (0xFF6600, 0xFF00FF)%Z |};
    {| config_id := "services-canvas-3"; config_colors := (0x6600CC, 0xFFFF00)%Z |};
    {| config_id := "services-canvas-4"; config_colors := (0x00FFFF, 0xFF6600)%Z |};
    {| config_id := "collections-canvas-1"; config_colors := (0xFF00FF, 0x00CC66)%Z |};
    {| config_id := "collections-canvas-2"; config_colors := (0xFFFF00, 0x6600CC)%Z |};
    {| config_id := "collections-canvas-3"; config_colors := (0x00FFFF, 0xFF00FF)%Z |};
    {| config_id := "testimonials-canvas-1"; config_colors := (0x00CC66, 0xFFFF00)%Z |};
    {| config_id := "testimonials-canvas-2"; config_colors := (0xFF6600, 0x00FFFF)%Z |};
    {| config_id := "testimonials-canvas-3"; config_colors := (0x6600CC, 0xFF00FF)%Z |};
    {| config_id := "events-canvas-1"; config_colors := (0x00FFFF, 0x00CC66)%Z |};
    {| config_id := "events-canvas-2"; config_colors := (0xFF00FF, 0xFFFF00)%Z |};
    {| config_id := "faq-canvas-1"; config_colors := (0xFFFF00, 0x6600CC)%Z |};
    {| config_id := "faq-canvas-2"; config_colors := (0x00CC66, 0xFF6600)%Z |};
    {| config_id := "careers-canvas-1"; config_colors := (0xFF6600, 0x00FFFF)%Z |};
    {| config_id := "careers-canvas-2"; config_colors := (0x6600CC, 0x00CC66)%Z |};
    {| config_id := "contact-canvas-1"; config_colors := (0x00FFFF, 0xFF00FF)%Z |};
    {| config_id := "contact-canvas-2"; config_colors := (0xFFFF00, 0xFF6600)%Z |} ].

Definition page (d : list string) (gl : bool) : World :=
  {| heap := [];
     env := {| dom := d; webgl := gl; hidden := false; clock := 0; draws := 0;
               uids := 0; raf_id := 0; raf_callbacks := [];
               visibility_listeners := []; intersection_observers := [];
               released := []; console := [] |};
     animators := [];
     cardConfigs := AnimationManager_cardConfigs;
     timers := [];
     reported := [] |}.

(** ** Predicates used by the statements *)

(** The constructor ran to completion on an existing canvas. *)
Definition bound (a : ThreeJSAnimator) : Prop :=
  is_Some (canvas a) ∧ is_Some (scene a) ∧ is_Some (camera a) ∧
  is_Some (renderer a) ∧ is_Some (objects a) ∧ is_Some (isPlaying a) ∧
  is_Some (color1 a) ∧ is_Some (color2 a).

(** What frame scheduling reads and writes: the callback identifier, the
    pending callbacks, and the two fields of [this]. *)
Definition View : Type := nat * list (nat * nat) * option bool * option nat.

Definition rafview (s : St) : View :=
  (raf_id (host s), raf_callbacks (host s), isPlaying (this s), animationId (this s)).

Definition silent {A} (m : M A) : Prop := ∀ s, rafview (m s).1 = rafview s.

Definition cancelled (id : option nat) (cbs : list (nat * nat)) : list (nat * nat) :=
  if truthy_id id then filter (fun cb => cb.1 ≠ default 0%nat id) cbs else cbs.

(** The three ways a method changes the view: not at all, as [pause] does, or
    as [play] does on a binding that is not playing. *)
Inductive vstep (self : nat) : View → View → Prop :=
| vstep_same v : vstep self v v
| vstep_pause n cbs p id : vstep self (n, cbs, p, id) (n, cancelled id cbs, Some false, id)
| vstep_start n cbs p id :
    truthy_flag p = false →
    vstep self (n, cbs, p, id) (S n, cbs ++ [(S n, self)], Some true, Some (S n)).

(** The frame requests of the animator at [r] that are outstanding. *)
Definition outstanding (r : nat) (w : World) : list (nat * nat) :=
  filter (fun cb => cb.2 = r) (raf_callbacks (env w)).

(** Every pending callback belongs to a playing animator whose [animationId]
    is its handle, and handles are distinct. *)
Definition Inv (hp : list ThreeJSAnimator) (n : nat) (cbs : list (nat * nat)) : Prop :=
  NoDup cbs.*1 ∧
  ∀ id r, (id, r) ∈ cbs →
    (1 ≤ id ≤ n)%nat ∧
    ∃ a, hp !! r = Some a ∧ isPlaying a = Some true ∧ animationId a = Some id.

Definition WInv (w : World) : Prop :=
  Inv (heap w) (raf_id (env w)) (raf_callbacks (env w)).

(** The mesh that [createFloatingGeometry] builds, as a function of the
    thirteen draws it makes. *)
Definition created_mesh (a : ThreeJSAnimator) (h : Host)
    (type : option string) (options : Options) : Mesh :=
  let d := draws h in
  let config := merge_config options in
  let position :=
    {| vx := (random (1 + d) - 0.5) * 6;
       vy := (random (2 + d) - 0.5) * 6;
       vz := (random (3 + d) - 0.5) * 3 |} in
  {| uid := uids h;
     geometry := make_geometry (default "sphere"%string type) config;
     material_color := material_of (if gt (random d) 0.5 then color1 a else color2 a);
     position := position;
     rotation :=
       {| vx := random (4 + d) * Math_PI * 2;
          vy := random (5 + d) * Math_PI * 2;
          vz := random (6 + d) * Math_PI * 2 |};
     scale := {| vx := 1; vy := 1; vz := 1 |};
     userData :=
       {| rotationSpeed :=
            {| vx := (random (7 + d) - 0.5) * 0.02;
               vy := (random (8 + d) - 0.5) * 0.02;
               vz := (random (9 + d) - 0.5) * 0.02 |};
          floatSpeed := random (10 + d) * 0.01 + 0.005;
          floatAmount := random (11 + d) * 0.5 + 0.2;
          originalPosition := position;
          userData_scale := size config;
          pulseSpeed := random (12 + d) * 0.02 + 0.01 |} |}.

(** The shape kinds the [switch] names, with their primitives. *)
Definition supported_shapes : list (string * Primitive) :=
  [ ("sphere", Sphere); ("cube", Box); ("torus", Torus);
    ("octahedron", Octahedron); ("icosahedron", Icosahedron);
    ("tetrahedron", Tetrahedron) ]%string.

(** Two meshes, or two animators, that differ at most in colours. *)
Definition same_but_color (m1 m2 : Mesh) : Prop :=
  uid m1 = uid m2 ∧ geometry m1 = geometry m2 ∧ position m1 = position m2 ∧
  rotation m1 = rotation m2 ∧ scale m1 = scale m2 ∧ userData m1 = userData m2.

Definition palette_variant (a1 a2 : ThreeJSAnimator) : Prop :=
  canvas a1 = canvas a2 ∧ scene a1 = scene a2 ∧ camera a1 = camera a2 ∧
  renderer a1 = renderer a2 ∧ animationId a1 = animationId a2 ∧
  isPlaying a1 = isPlaying a2 ∧
  option_Forall2 (Forall2 same_but_color) (objects a1) (objects a2).

(** The host after [pause] on [a]. *)
Definition cancel_frame (a : ThreeJSAnimator) (h : Host) : Host :=
  with_raf (raf_id h) (cancelled (animationId a) (raf_callbacks h)) h.

(** [scene.remove] for each of [objs] in turn. *)
Definition scene_without (objs : list Mesh) (sc : list SceneNode) : list SceneNode :=
  foldl (fun sc obj => filter (fun n => n ≠ MeshNode (uid obj)) sc) sc objs.

(** Every registered animator is a constructed binding. *)
Definition registry_bound (w : World) : Prop :=
  ∀ k r, (k, r) ∈ animators w → ∃ a, heap w !! r = Some a ∧ bound a.

(** The last intersection report for [target], and whether both visibility
    sources currently report visible. *)
Definition last_report (target : string) (w : World) : option bool :=
  (fun p => p.2.2) <$> list_find (fun p => p.1 = target) (reported w).

Definition both_visible (target : string) (w : World) : bool :=
  negb (hidden (env w)) && bool_decide (last_report target w = Some true).

(** The binding the constructor leaves on an existing canvas. *)
Definition constructed (self : nat) (canvasId : string) (c1 c2 : option Z) (h : Host)
  : ThreeJSAnimator :=
  let time := inject_Z (clock h) * 0.001 in
  {| canvas := Some canvasId;
     scene := Some [AmbientLight; DirectionalLight; PointLight];
     camera := Some {| vx := Math_sin (time * 0.1) * 0.5;
                       vy := Math_cos (time * 0.15) * 0.3;
                       vz := 5 |};
     renderer := Some {| disposed := false; frames := 1 |};
     color1 := Some (default 0x00FFFF%Z c1);
     color2 := Some (default 0xFF00FF%Z c2);
     objects := Some [];
     animationId := Some (S (raf_id h));
     isPlaying := Some true |}.

(** The parts of the host that object creation leaves alone. *)
Definition same_page (h h' : Host) : Prop :=
  dom h' = dom h ∧ webgl h' = webgl h ∧ console h' = console h.

(** A body that, on a binding, completes normally, keeps it a binding on the
    same canvas and adds [k] objects. *)
Definition adds (k : nat) (m : M unit) : Prop :=
  ∀ a h objs, bound a → objects a = Some objs →
    ∃ s' objs',
      m {| this := a; host := h |} = (s', Normal tt) ∧
      bound (this s') ∧ canvas (this s') = canvas a ∧
      objects (this s') = Some objs' ∧ length objs' = (length objs + k)%nat ∧
      same_page h (host s').

(** The timers that [initCardAnimations] registers at time [t0], from
    [index] on. *)
Fixpoint card_timers (t0 index : Z) (configs : list CardConfig) : list (Z * Task) :=
  match configs with
  | [] => []
  | config :: rest =>
    ((t0 + index * 50)%Z, task_card config) :: card_timers t0 (index + 1) rest
  end.

(** A binding after [dispose]: paused and empty. *)
Definition disposed_binding (a : ThreeJSAnimator) : Prop :=
  bound a ∧ isPlaying a = Some false ∧ objects a = Some [] ∧
  (disposed <$> renderer a) = Some true.

(** The object at [index] of the animator at [r]. *)
Definition object_at (w : World) (r index : nat) : option Mesh :=
  a ← heap w !! r; objs ← objects a; objs !! index.

(** ** More predicates: scheduling liveness, well-formed bindings *)

(** Handles stored in [animationId] were handed out, a pending callback has
    the handle of no animator but its own, and (for every animator but
    [except]) a true play flag comes with the pending callback of its
    [animationId]. *)
Definition Live (except : option nat) (hp : list ThreeJSAnimator) (n : nat)
    (cbs : list (nat * nat)) : Prop :=
  (∀ r a id, hp !! r = Some a → animationId a = Some id → (id ≤ n)%nat) ∧
  (∀ id r' r a, (id, r') ∈ cbs → hp !! r = Some a → animationId a = Some id → r = r') ∧
  (∀ r a, hp !! r = Some a → except ≠ Some r → truthy_flag (isPlaying a) = true →
     ∃ id, animationId a = Some id ∧ (id, r) ∈ cbs).

Definition WLive (w : World) : Prop :=
  WInv w ∧ Live None (heap w) (raf_id (env w)) (raf_callbacks (env w)).

(** The children that [setupScene] adds. *)
Definition lights : list SceneNode := [AmbientLight; DirectionalLight; PointLight].

(** An object sits above or below its origin: x and z are those of
    [originalPosition]. *)
Definition anchored (m : Mesh) : Prop :=
  vx (position m) = vx (originalPosition (userData m)) ∧
  vz (position m) = vz (originalPosition (userData m)).

(** A constructed binding whose scene holds the lights and then its objects,
    whose camera is at z = 5 and whose objects are anchored. *)
Definition wf_binding (a : ThreeJSAnimator) : Prop :=
  bound a ∧
  (∃ objs, objects a = Some objs ∧
           scene a = Some (lights ++ (MeshNode ∘ uid <$> objs)) ∧
           Forall anchored objs) ∧
  vz <$> camera a = Some 5.

(** Every animator either never got a renderer or is a well-formed binding;
    the registry has distinct keys and holds well-formed bindings on the
    canvas of their key. *)
Definition WF (w : World) : Prop :=
  (∀ r a, heap w !! r = Some a → renderer a = None ∨ wf_binding a) ∧
  NoDup (animators w).*1 ∧
  (∀ k r, (k, r) ∈ animators w →
     ∃ a, heap w !! r = Some a ∧ wf_binding a ∧ canvas a = Some k).

Definition stays_unbound {A} (m : M A) : Prop :=
  ∀ s, renderer (this s) = None → renderer (this (m s).1) = None.

Definition stays_wf {A} (m : M A) : Prop :=
  ∀ s, wf_binding (this s) →
    wf_binding (this (m s).1) ∧ canvas (this (m s).1) = canvas (this s) ∧
    ∃ v, (m s).2 = Normal v.

(** A body that, on a binding, completes normally, keeps it a binding and
    appends [k] objects, each satisfying [P]; what was there stays in front. *)
Definition appends (P : Mesh → Prop) (k : nat) (m : M unit) : Prop :=
  ∀ a h objs, bound a → objects a = Some objs →
    ∃ s' more,
      m {| this := a; host := h |} = (s', Normal tt) ∧
      bound (this s') ∧
      objects (this s') = Some (objs ++ more) ∧ length more = k ∧ Forall P more.

(** A mesh of one of the kinds [types], built with the size [f s] for a draw
    [s] in [0, 1), and with the default segments and detail. *)
Definition drawn_from (types : list string) (f : Q → Q) (m : Mesh) : Prop :=
  ∃ t s, t ∈ types ∧ 0 <= s ∧ s < 1 ∧
    geometry m = make_geometry t {| size := f s; segments := 32; detail := 0 |} ∧
    userData_scale (userData m) = f s.

(** The same frame callback run once for each of [times], in order. *)
Definition after_frames (index : nat) (times : list Q) (obj : Mesh) : Mesh :=
  foldl (fun o t => animate_object t index o) obj times.

(** A body that leaves WebGL availability as it is. *)
Definition keeps_webgl {A} (m : M A) : Prop :=
  ∀ s, webgl (host (m s).1) = webgl (host s).

(** A page without WebGL on which nothing is registered and no animator has a
    renderer. *)
Definition NoGL (w : World) : Prop :=
  webgl (env w) = false ∧ animators w = [] ∧
  ∀ r a, heap w !! r = Some a → renderer a = None.

(** The three [+=] on the rotation that one frame makes. *)
Definition turn (speed r : Vector3) : Vector3 :=
  {| vx := vx r + vx speed; vy := vy r + vy speed; vz := vz r + vz speed |}.

End Runtime.

(** ** Concrete pages *)

Definition sample_runtime : Runtime :=
  {| random := sample_random; Math_sin := sample_sin; Math_cos := sample_cos |}.

Definition sample_run : World → list Event → World := @run sample_runtime.

(** A page with one canvas, an animator on it and one cube. *)
Definition sample_world : World :=
  sample_run (page ["c"%string] true)
    [ev_new "c" None None;
     ev_call 0 (m_createFloatingGeometry (Some "cube"%string) no_options)].

Definition sample_binding : ThreeJSAnimator :=
  default empty_object (heap sample_world !! 0%nat).

Definition sample_host : Host := env sample_world.

(** The same run with another palette. *)
Definition sample_binding' : ThreeJSAnimator :=
  default empty_object
    (heap (sample_run (page ["c"%string] true)
             [ev_new "c" (Some 0xFFFF00%Z) (Some 0x6600CC%Z);
              ev_call 0 (m_createFloatingGeometry (Some "cube"%string) no_options)])
     !! 0%nat).

(** The page once its first frame has run. *)
Definition running_world : World := sample_run sample_world [ev_frame 1].

(** A page with the hero canvas and one card canvas, after [init()] and the
    timer that runs [initCardAnimations]. *)
Definition staggering_world : World :=
  sample_run (page ["hero-canvas"; "about-canvas-1"]%string true) [ev_init; ev_timeout].

(** On a page with one card canvas: [init()], the timer that runs
    [initCardAnimations] and the timer of the first card. *)
Definition card_page_events : list Event := [ev_init; ev_timeout; ev_timeout].

(** A mesh as [createFloatingGeometry()] builds it on the sample binding. *)
Definition sample_mesh : Mesh :=
  @created_mesh sample_runtime sample_binding sample_host None no_options.

(** * Proofs *)

Section Proofs.

Context {rt : Runtime}.

(** ** Running method bodies symbolically *)

Ltac exec :=
  cbv beta iota zeta delta
    [mbind M_bind mret M_ret throw get_this get_host update_this update_host deref
     Math_random Date_now getElementById requestAnimationFrame cancelAnimationFrame
     console_log new_WebGLRenderer new_uid
     this host fst snd rafview
     canvas scene camera renderer color1 color2 objects animationId isPlaying
     with_canvas with_scene with_camera with_renderer with_colors with_objects
     with_animationId with_isPlaying
     dom webgl hidden clock draws uids raf_id raf_callbacks visibility_listeners
     intersection_observers released console
     with_hidden with_clock with_draws with_uids with_raf with_listeners with_released
     with_console].

Ltac destruct_state s :=
  let a := fresh "a" in
  let h := fresh "h" in
  destruct s as [a h]; destruct a, h.

(** *** Methods that leave frame scheduling alone *)

Lemma silent_ret {A} (v : A) : silent (mret v).
Proof. intros s. reflexivity. Qed.

Lemma silent_bind {A B} (m : M A) (k : A → M B) :
  silent m → (∀ v, silent (k v)) → silent (m ≫= k).
Proof.
  intros Hm Hk s. unfold mbind, M_bind. specialize (Hm s).
  destruct (m s) as [s' [v|e]]; cbn in *; [ | exact Hm ].
  rewrite <- Hm. apply Hk.
Qed.

Lemma silent_repeat_M n body : silent body → silent (repeat_M n body).
Proof.
  intros Hb. induction n as [|n IH]; cbn [repeat_M].
  - apply silent_ret.
  - apply silent_bind; auto.
Qed.

Lemma silent_forEach {A} (f : A → M unit) l : (∀ v, silent (f v)) → silent (forEach f l).
Proof.
  intros Hf. induction l as [|v l IH]; cbn [forEach].
  - apply silent_ret.
  - apply silent_bind; auto.
Qed.

Lemma silent_Math_random : silent Math_random.
Proof. intros s. destruct_state s. reflexivity. Qed.

Lemma silent_createFloatingGeometry type options :
  silent (createFloatingGeometry type options).
Proof.
  intros s. destruct_state s. unfold createFloatingGeometry.
  destruct scene0, objects0; exec; reflexivity.
Qed.

Lemma silent_random_object (types : list string) (f : Q → Q) :
  silent (r ← Math_random;
          s ← Math_random;
          createFloatingGeometry (pick types r)
            {| opt_size := Some (f s); opt_segments := None; opt_detail := None |};;
          mret tt).
Proof.
  apply silent_bind; [ apply silent_Math_random | intros r ].
  apply silent_bind; [ apply silent_Math_random | intros r' ].
  apply silent_bind; [ apply silent_createFloatingGeometry | intros; apply silent_ret ].
Qed.

Lemma silent_addRandomObjects count : silent (addRandomObjects count).
Proof. apply silent_repeat_M, (silent_random_object _ (fun s => s * 0.5 + 0.5)). Qed.

Lemma silent_createHeroScene : silent createHeroScene.
Proof.
  apply silent_bind; [ | intros _ ]; apply silent_repeat_M.
  - apply (silent_random_object _ (fun s => s * 0.8 + 0.4)).
  - apply silent_bind; [ apply silent_Math_random | intros r' ].
    apply silent_bind; [ apply silent_createFloatingGeometry | intros; apply silent_ret ].
Qed.

Lemma silent_dispose_object obj : silent (dispose_object obj).
Proof.
  intros s. destruct_state s. unfold dispose_object.
  destruct scene0; exec; reflexivity.
Qed.

(** *** The view after [pause], [animate], [play], [dispose] and the
    constructors *)

Lemma pause_view s :
  rafview (pause s).1 =
  (raf_id (host s), cancelled (animationId (this s)) (raf_callbacks (host s)),
   Some false, animationId (this s)).
Proof.
  destruct_state s. unfold pause, cancelled. exec.
  destruct (truthy_id _); reflexivity.
Qed.

Lemma animate_view self s :
  rafview (animate self s).1 =
  if truthy_flag (isPlaying (this s)) then
    (S (raf_id (host s)), raf_callbacks (host s) ++ [(S (raf_id (host s)), self)],
     isPlaying (this s), Some (S (raf_id (host s))))
  else rafview s.
Proof.
  destruct_state s. unfold animate. exec.
  destruct (truthy_flag _); [ | reflexivity ].
  destruct objects0, camera0, renderer0; exec; reflexivity.
Qed.

Lemma vstep_bind_silent {A B} self v (m : M A) (k : A → M B) s :
  vstep self v (rafview (m s).1) → (∀ x, silent (k x)) →
  vstep self v (rafview ((m ≫= k) s).1).
Proof.
  intros Hm Hk. unfold mbind, M_bind.
  destruct (m s) as [s' [x|e]]; cbn in *; [ | exact Hm ].
  rewrite Hk. exact Hm.
Qed.

Lemma pause_vstep self s : vstep self (rafview s) (rafview (pause s).1).
Proof. rewrite pause_view. destruct_state s. apply vstep_pause. Qed.

Lemma play_eq self s :
  play self s =
  if truthy_flag (isPlaying (this s)) then (s, Normal tt)
  else animate self {| this := with_isPlaying (Some true) (this s); host := host s |}.
Proof.
  destruct s as [a h]. unfold play, mbind, M_bind, get_this, update_this, mret, M_ret.
  cbn [this host]. destruct (truthy_flag _); reflexivity.
Qed.

Lemma play_vstep self s : vstep self (rafview s) (rafview (play self s).1).
Proof.
  rewrite play_eq. destruct (truthy_flag (isPlaying (this s))) eqn:Hp.
  - apply vstep_same.
  - rewrite animate_view. destruct s as [a h]. cbn. apply vstep_start, Hp.
Qed.

Lemma silent_dispose_rest :
  silent (objs ← deref objects "objects";
          forEach dispose_object objs;;
          a ← get_this;
          match renderer a with
          | Some r =>
            update_this (with_renderer (Some {| disposed := true; frames := frames r |}))
          | None => mret tt
          end;;
          update_this (with_objects (Some []))).
Proof.
  apply silent_bind; [ intros s; destruct_state s; destruct objects0; reflexivity | intros objs ].
  apply silent_bind; [ apply silent_forEach, silent_dispose_object | intros _ ].
  apply silent_bind; [ intros s; reflexivity | intros a ].
  apply silent_bind; [ | intros _ s; reflexivity ].
  destruct (renderer a); intros s; reflexivity.
Qed.

Lemma dispose_vstep self s : vstep self (rafview s) (rafview (dispose s).1).
Proof.
  unfold dispose. apply vstep_bind_silent; [ apply pause_vstep | ].
  intros _. apply silent_dispose_rest.
Qed.

Lemma method_vstep m self s : vstep self (rafview s) (rafview (method m self s).1).
Proof.
  destruct m; cbn [method].
  - rewrite silent_bind; [ apply vstep_same | apply silent_createFloatingGeometry | ].
    intros; apply silent_ret.
  - rewrite silent_addRandomObjects. apply vstep_same.
  - apply play_vstep.
  - apply pause_vstep.
  - apply dispose_vstep.
Qed.

Lemma on_visibilitychange_vstep self s :
  vstep self (rafview s) (rafview (on_visibilitychange self s).1).
Proof.
  unfold on_visibilitychange, mbind, M_bind, get_host.
  destruct (hidden (host s)); [ apply pause_vstep | apply play_vstep ].
Qed.

Lemma on_intersection_vstep self target b s :
  vstep self (rafview s) (rafview (on_intersection self target b s).1).
Proof.
  unfold on_intersection, mbind, M_bind, get_this.
  destruct (bool_decide _); [ | apply vstep_same ].
  destruct b; [ apply play_vstep | apply pause_vstep ].
Qed.

(** The constructor starts from the fresh object. *)
Lemma constructor_vstep self canvasId c1 c2 h :
  vstep self (rafview {| this := empty_object; host := h |})
    (rafview (constructor self canvasId c1 c2 {| this := empty_object; host := h |}).1).
Proof.
  destruct h. unfold constructor, empty_object, setupScene, setupEventListeners, animate.
  exec. destruct (bool_decide _); exec; [ | apply vstep_same ].
  destruct webgl0; exec; [ | apply vstep_same ].
  cbn [truthy_flag default negb]. exec. apply vstep_start. reflexivity.
Qed.

Lemma card_body_vstep config self h :
  vstep self (rafview {| this := empty_object; host := h |})
    (rafview (card_body config self {| this := empty_object; host := h |}).1).
Proof.
  unfold card_body. apply vstep_bind_silent; [ apply constructor_vstep | intros _ ].
  apply silent_bind; [ intros s; reflexivity | intros a ].
  destruct (canvas a); [ | apply silent_ret ].
  apply silent_bind; [ apply silent_addRandomObjects | intros; apply silent_ret ].
Qed.

Lemma HeroAnimator_constructor_vstep self h :
  vstep self (rafview {| this := empty_object; host := h |})
    (rafview (HeroAnimator_constructor self {| this := empty_object; host := h |}).1).
Proof.
  unfold HeroAnimator_constructor.
  apply vstep_bind_silent; [ apply constructor_vstep | intros _; apply silent_createHeroScene ].
Qed.

(** *** Closed forms on a constructed binding *)

Lemma pause_eq a h :
  pause {| this := a; host := h |} =
  ({| this := with_isPlaying (Some false) a; host := cancel_frame a h |}, Normal tt).
Proof.
  destruct a, h. unfold pause, cancel_frame, cancelled. exec.
  destruct (truthy_id _); reflexivity.
Qed.

Lemma animate_eq self a h objs cam r :
  isPlaying a = Some true → objects a = Some objs →
  camera a = Some cam → renderer a = Some r →
  let time := inject_Z (clock h) * 0.001 in
  animate self {| this := a; host := h |} =
  ({| this :=
        with_renderer (Some (render r))
          (with_camera
             (Some {| vx := Math_sin (time * 0.1) * 0.5;
                      vy := Math_cos (time * 0.15) * 0.3;
                      vz := vz cam |})
             (with_objects (Some (imap (animate_object time) objs))
                (with_animationId (Some (S (raf_id h))) a)));
      host := with_raf (S (raf_id h)) (raf_callbacks h ++ [(S (raf_id h), self)]) h |},
   Normal tt).
Proof.
  destruct a, h. cbn. intros -> -> -> ->. unfold animate. exec. reflexivity.
Qed.

Lemma createFloatingGeometry_eq a h type options sc objs :
  scene a = Some sc → objects a = Some objs →
  createFloatingGeometry type options {| this := a; host := h |} =
  ({| this :=
        with_objects (Some (objs ++ [created_mesh a h type options]))
          (with_scene (Some (sc ++ [MeshNode (uids h)])) a);
      host := with_uids (S (uids h)) (with_draws (13 + draws h) h) |},
   Normal (created_mesh a h type options)).
Proof.
  destruct a, h. cbn. intros -> ->.
  unfold createFloatingGeometry, created_mesh. exec. reflexivity.
Qed.

Lemma forEach_dispose_object objs a h sc :
  scene a = Some sc →
  forEach dispose_object objs {| this := a; host := h |} =
  ({| this := with_scene (Some (scene_without objs sc)) a;
      host := with_released (released h ++ (uid <$> objs)) h |}, Normal tt).
Proof.
  revert a h sc. induction objs as [|obj objs IH]; intros a h sc Hsc.
  - destruct a, h. cbn in *. subst. rewrite app_nil_r. reflexivity.
  - cbn [forEach]. unfold mbind at 1, M_bind at 1.
    assert (Hstep : dispose_object obj {| this := a; host := h |} =
      ({| this := with_scene (Some (filter (fun n => n ≠ MeshNode (uid obj)) sc)) a;
          host := with_released (released h ++ [uid obj]) h |}, Normal tt)).
    { destruct a, h. cbn in Hsc. subst. unfold dispose_object. exec. reflexivity. }
    rewrite Hstep.
    rewrite (IH _ _ (filter (fun n => n ≠ MeshNode (uid obj)) sc)) by reflexivity.
    destruct a, h. cbn. rewrite <- app_assoc. reflexivity.
Qed.

Lemma dispose_eq a h sc objs r :
  scene a = Some sc → objects a = Some objs → renderer a = Some r →
  dispose {| this := a; host := h |} =
  ({| this :=
        with_objects (Some [])
          (with_renderer (Some {| disposed := true; frames := frames r |})
             (with_scene (Some (scene_without objs sc))
                (with_isPlaying (Some false) a)));
      host := with_released (released h ++ (uid <$> objs)) (cancel_frame a h) |},
   Normal tt).
Proof.
  intros Hsc Hobjs Hr. unfold dispose. unfold mbind at 1, M_bind at 1.
  rewrite pause_eq. unfold mbind at 1, M_bind at 1.
  assert (Hd : deref objects "objects"
            {| this := with_isPlaying (Some false) a; host := cancel_frame a h |} =
          ({| this := with_isPlaying (Some false) a; host := cancel_frame a h |},
           Normal objs)).
  { unfold deref, mbind, M_bind, get_this. cbn. rewrite Hobjs. reflexivity. }
  rewrite Hd. unfold mbind at 1, M_bind at 1.
  rewrite (forEach_dispose_object _ _ _ sc) by exact Hsc.
  destruct a, h. cbn in *. subst. reflexivity.
Qed.

(** *** The constructor *)

Lemma constructor_present self canvasId c1 c2 h :
  canvasId ∈ dom h → webgl h = true →
  constructor self canvasId c1 c2 {| this := empty_object; host := h |} =
  ({| this := constructed self canvasId c1 c2 h;
      host :=
        with_raf (S (raf_id h)) (raf_callbacks h ++ [(S (raf_id h), self)])
          (with_listeners (visibility_listeners h ++ [self])
             (intersection_observers h ++ [self]) h) |},
   Normal tt).
Proof.
  destruct h. cbn. intros Hin ->.
  unfold constructor, constructed, empty_object, setupScene, setupEventListeners, animate.
  exec. rewrite bool_decide_eq_true_2 by exact Hin. exec. reflexivity.
Qed.

Lemma constructor_missing self canvasId c1 c2 h :
  canvasId ∉ dom h →
  constructor self canvasId c1 c2 {| this := empty_object; host := h |} =
  ({| this := empty_object;
      host := with_console (console h ++ [warn_canvas_not_found canvasId]) h |},
   Normal tt).
Proof.
  destruct h. cbn. intros Hin.
  unfold constructor, empty_object. exec.
  rewrite bool_decide_eq_false_2 by exact Hin. exec. reflexivity.
Qed.

Lemma constructor_no_context self canvasId c1 c2 h :
  canvasId ∈ dom h → webgl h = false →
  constructor self canvasId c1 c2 {| this := empty_object; host := h |} =
  ({| this := with_camera (Some {| vx := 0; vy := 0; vz := 0 |})
                (with_scene (Some []) (with_canvas (Some canvasId) empty_object));
      host := h |},
   Throw WebGLError).
Proof.
  destruct h. cbn. intros Hin ->.
  unfold constructor, empty_object. exec.
  rewrite bool_decide_eq_true_2 by exact Hin. exec. reflexivity.
Qed.

Lemma constructed_bound self canvasId c1 c2 h : bound (constructed self canvasId c1 c2 h).
Proof. repeat split; eexists; reflexivity. Qed.

(** ** The scheduling invariant *)

Lemma Inv_remove hp n cbs (P : nat * nat → Prop) `{!∀ x, Decision (P x)} :
  Inv hp n cbs → Inv hp n (filter P cbs).
Proof.
  intros [Hnd Hcb]. split.
  - eapply sublist_NoDup; [ exact Hnd | ]. apply fmap_sublist, sublist_filter.
  - intros id r Hin. apply list_elem_of_filter in Hin as [_ Hin]. auto.
Qed.

Lemma Inv_alloc hp n cbs a : Inv hp n cbs → Inv (hp ++ [a]) n cbs.
Proof.
  intros [Hnd Hcb]. split; [ exact Hnd | ].
  intros id r Hin. destruct (Hcb id r Hin) as (Hid & a0 & Hr & Hp).
  split; [ exact Hid | ]. exists a0. split; [ | exact Hp ].
  rewrite lookup_app_l; [ exact Hr | ]. eapply lookup_lt_Some, Hr.
Qed.

Lemma Inv_same hp n cbs r a a' :
  Inv hp n cbs → hp !! r = Some a →
  isPlaying a' = isPlaying a → animationId a' = animationId a →
  Inv (<[r:=a']> hp) n cbs.
Proof.
  intros [Hnd Hcb] Hr Hp Hid. split; [ exact Hnd | ].
  intros id r0 Hin. destruct (Hcb id r0 Hin) as (Hb & a0 & Hr0 & Hp0 & Hid0).
  split; [ exact Hb | ]. destruct (decide (r = r0)) as [<-|Hne].
  - exists a'. rewrite list_lookup_insert_eq by (eapply lookup_lt_Some, Hr).
    rewrite Hr in Hr0. simplify_eq. split; [ reflexivity | ]. split; congruence.
  - exists a0. rewrite list_lookup_insert_ne by exact Hne. auto.
Qed.

Lemma Inv_paused hp n cbs r a a' :
  Inv hp n cbs → hp !! r = Some a →
  Inv (<[r:=a']> hp) n (cancelled (animationId a) cbs).
Proof.
  intros HI Hr.
  assert (Hsub : ∀ cb, cb ∈ cancelled (animationId a) cbs → cb ∈ cbs).
  { intros cb. unfold cancelled. destruct (truthy_id _); [ | auto ].
    intros Hin. apply list_elem_of_filter in Hin. exact (proj2 Hin). }
  assert (HI' : Inv hp n (cancelled (animationId a) cbs)).
  { unfold cancelled. destruct (truthy_id _); [ apply Inv_remove | ]; exact HI. }
  destruct HI as [_ Hcb]. destruct HI' as [Hnd' _]. split; [ exact Hnd' | ].
  intros id r0 Hin. destruct (Hcb id r0 (Hsub _ Hin)) as (Hb & a0 & Hr0 & Hp0 & Hid0).
  split; [ exact Hb | ]. destruct (decide (r = r0)) as [<-|Hne].
  - exfalso. rewrite Hr in Hr0. injection Hr0 as <-.
    revert Hin. unfold cancelled. rewrite Hid0.
    destruct id as [|id]; [ lia | ]. cbn.
    intros Hin. apply list_elem_of_filter in Hin as [Hne _]. cbn in Hne. congruence.
  - exists a0. rewrite list_lookup_insert_ne by exact Hne. auto.
Qed.

Lemma Inv_started hp n cbs r a' :
  Inv hp n cbs → (r < length hp)%nat → (∀ id, (id, r) ∉ cbs) →
  isPlaying a' = Some true → animationId a' = Some (S n) →
  Inv (<[r:=a']> hp) (S n) (cbs ++ [(S n, r)]).
Proof.
  intros [Hnd Hcb] Hlt Hfree Hp Hid. split.
  - rewrite fmap_app. apply NoDup_app. split; [ exact Hnd | ]. split.
    + intros id Hin Hin'. apply list_elem_of_fmap in Hin as ([id' r'] & -> & Hin).
      apply list_elem_of_singleton in Hin'. cbn in Hin'. subst id'.
      destruct (Hcb _ _ Hin) as [Hb _]. lia.
    + apply NoDup_singleton.
  - intros id r0 Hin. apply elem_of_app in Hin as [Hin|Hin].
    + destruct (Hcb id r0 Hin) as (Hb & a0 & Hr0 & Hp0). split; [ lia | ].
      exists a0. split; [ | exact Hp0 ].
      rewrite list_lookup_insert_ne; [ exact Hr0 | ].
      intros <-. exact (Hfree _ Hin).
    + apply list_elem_of_singleton in Hin. injection Hin as -> ->.
      split; [ lia | ]. exists a'. rewrite list_lookup_insert_eq by exact Hlt. auto.
Qed.

Lemma Inv_vstep hp n cbs r a a' n' cbs' :
  Inv hp n cbs → hp !! r = Some a →
  vstep r (n, cbs, isPlaying a, animationId a) (n', cbs', isPlaying a', animationId a') →
  Inv (<[r:=a']> hp) n' cbs'.
Proof.
  intros HI Hr Hv. inversion Hv; subst.
  - eapply Inv_same; eauto.
  - eapply Inv_paused; eauto.
  - apply Inv_started.
    + exact HI.
    + eapply lookup_lt_Some; exact Hr.
    + intros id' Hin. destruct HI as [_ Hcb].
      destruct (Hcb _ _ Hin) as (_ & a0 & Hr0 & Hp0 & _).
      rewrite Hr in Hr0. simplify_eq.
      match goal with H : truthy_flag _ = false |- _ => rewrite Hp0 in H; discriminate end.
    + congruence.
    + congruence.
Qed.

Lemma call_WInv {A} r (m : M A) w :
  (∀ s, vstep r (rafview s) (rafview (m s).1)) → WInv w → WInv (call r m w).1.
Proof.
  intros Hm HI. unfold call. destruct (heap w !! r) as [a|] eqn:Hr; [ | exact HI ].
  specialize (Hm {| this := a; host := env w |}).
  destruct (m _) as [s c]. cbn in *. eapply Inv_vstep; eauto.
Qed.

Lemma new_WInv {A} (body : nat → M A) w :
  (∀ h, vstep (length (heap w)) (rafview {| this := empty_object; host := h |})
          (rafview (body (length (heap w)) {| this := empty_object; host := h |}).1)) →
  WInv w → WInv (new body w).1.1.
Proof.
  intros Hm HI. unfold new. specialize (Hm (env w)).
  destruct (body _ _) as [s c]. cbn in *.
  replace (heap w ++ [this s]) with (<[length (heap w) := this s]> (heap w ++ [empty_object])).
  - eapply Inv_vstep; [ apply Inv_alloc, HI | | exact Hm ].
    rewrite lookup_app_r, Nat.sub_diag by lia. reflexivity.
  - rewrite insert_app_r_alt, Nat.sub_diag by lia. reflexivity.
Qed.

Lemma dispatch_WInv handler listeners w :
  (∀ r s, vstep r (rafview s) (rafview (handler r s).1)) →
  WInv w → WInv (dispatch handler listeners w).
Proof.
  intros Hh. revert w. induction listeners as [|r rest IH]; intros w HI; cbn [dispatch].
  - exact HI.
  - apply IH, call_WInv; auto.
Qed.

Lemma forEach_animator_WInv m l w :
  (∀ r s, vstep r (rafview s) (rafview (m r s).1)) →
  WInv w → WInv (forEach_animator m l w).1.
Proof.
  intros Hm. revert w. induction l as [|[k r] l IH]; intros w HI; cbn [forEach_animator].
  - exact HI.
  - pose proof (call_WInv r (m r) w (Hm r) HI) as HI'.
    destruct (call r (m r) w) as [w' [[v|e]|]]; cbn in *; auto.
Qed.

Lemma initCard_WInv config w : WInv w → WInv (initCard config w).
Proof.
  intros HI. unfold initCard.
  pose proof (new_WInv (card_body config) w (card_body_vstep config _) HI) as HI'.
  destruct (new (card_body config) w) as [[w1 r] [[|]|e]]; exact HI'.
Qed.

Lemma initHeroAnimation_WInv w : WInv w → WInv (initHeroAnimation w).
Proof.
  intros HI. unfold initHeroAnimation.
  pose proof (new_WInv HeroAnimator_constructor w (HeroAnimator_constructor_vstep _) HI) as HI'.
  destruct (new HeroAnimator_constructor w) as [[w1 r] [v|e]]; exact HI'.
Qed.

Lemma stagger_WInv configs index w : WInv w → WInv (stagger configs index w).
Proof.
  revert index w. induction configs as [|c rest IH]; intros index w HI; cbn [stagger].
  - exact HI.
  - apply IH. exact HI.
Qed.

Lemma timeout_WInv w : WInv w → WInv (timeout w).
Proof.
  intros HI. unfold timeout. destruct (timers w) as [|[due [|config]] q]; [ exact HI | | ].
  - apply stagger_WInv. exact HI.
  - apply initCard_WInv. exact HI.
Qed.

Lemma frame_WInv handle w : WInv w → WInv (frame handle w).
Proof.
  intros HI. unfold frame.
  destruct (list_find _ _) as [[i [id r]]|] eqn:Hfind; [ | exact HI ].
  apply list_find_Some in Hfind as (Hi & Hid & _). cbn in Hid. subst id.
  assert (Hin : (handle, r) ∈ raf_callbacks (env w)).
  { apply list_elem_of_lookup. eauto. }
  destruct (proj2 HI _ _ Hin) as (Hb & a & Hr & Hp & Ha).
  set (w1 := with_env _ w).
  assert (HI1 : WInv w1) by (apply Inv_remove, HI).
  unfold call. change (heap w1) with (heap w). rewrite Hr.
  pose proof (animate_view r {| this := a; host := env w1 |}) as Hv.
  destruct (animate r _) as [s c]. cbn in *. rewrite Hp in Hv. cbn in Hv.
  injection Hv as Hn Hc Hp' Ha'. unfold WInv. cbn. rewrite Hn, Hc.
  apply Inv_started.
  - exact HI1.
  - eapply lookup_lt_Some; exact Hr.
  - intros id Hin'. apply list_elem_of_filter in Hin' as [Hne Hin'].
    destruct (proj2 HI _ _ Hin') as (_ & a0 & Hr0 & _ & Ha0).
    rewrite Hr in Hr0. simplify_eq; cbn in Hne; congruence.
  - exact Hp'.
  - exact Ha'.
Qed.

Lemma step_WInv w e : WInv w → WInv (step w e).
Proof.
  intros HI. destruct e; cbn [step].
  - apply new_WInv; [ intros; apply constructor_vstep | exact HI ].
  - apply new_WInv; [ intros; apply HeroAnimator_constructor_vstep | exact HI ].
  - apply call_WInv; [ intros; apply method_vstep | exact HI ].
  - apply frame_WInv, HI.
  - apply dispatch_WInv; [ intros; apply on_visibilitychange_vstep | exact HI ].
  - apply dispatch_WInv; [ intros; apply on_intersection_vstep | exact HI ].
  - exact HI.
  - apply timeout_WInv, HI.
  - apply initHeroAnimation_WInv, HI.
  - apply forEach_animator_WInv; [ intros; apply pause_vstep | exact HI ].
  - apply forEach_animator_WInv; [ intros; apply play_vstep | exact HI ].
  - unfold AnimationManager_dispose.
    pose proof (forEach_animator_WInv (fun _ => dispose) (animators w) w
                  (fun r s => dispose_vstep r s) HI) as HI'.
    destruct (forEach_animator _ _ _) as [w' [v|e]]; exact HI'.
Qed.

Lemma run_WInv es w : WInv w → WInv (run w es).
Proof.
  revert w. induction es as [|e es IH]; intros w HI; cbn; [ exact HI | ].
  apply IH, step_WInv, HI.
Qed.

Lemma page_WInv d gl : WInv (page d gl).
Proof.
  split; [ constructor | ]. intros id r Hin. cbn in Hin. inversion Hin.
Qed.

(** ** Properties of one binding *)

Lemma bound_fields a :
  bound a →
  ∃ cv sc cam r objs p,
    canvas a = Some cv ∧ scene a = Some sc ∧ camera a = Some cam ∧
    renderer a = Some r ∧ objects a = Some objs ∧ isPlaying a = Some p.
Proof.
  intros ([cv Hcv] & [sc Hsc] & [cam Hcam] & [r Hr] & [objs Hobjs] & [p Hp] & _).
  exists cv, sc, cam, r, objs, p. repeat split; assumption.
Qed.

Lemma bound_with_objects_scene a objs sc :
  bound a → bound (with_objects (Some objs) (with_scene (Some sc) a)).
Proof.
  destruct a. unfold bound. cbn. intros (? & ? & ? & ? & ? & ? & ? & ?).
  repeat split; eauto.
Qed.

Lemma cancelled_idem id cbs : cancelled id (cancelled id cbs) = cancelled id cbs.
Proof.
  unfold cancelled. destruct (truthy_id id); [ | reflexivity ].
  rewrite list_filter_filter. apply list_filter_iff.
  intros cb. split; [ intros [H _]; exact H | intros H; split; exact H ].
Qed.

Lemma dispose_again a h :
  bound a →
  let s1 := (dispose {| this := a; host := h |}).1 in
  dispose s1 = (s1, Normal tt).
Proof.
  intros Hb. destruct (bound_fields a Hb) as (cv & sc & cam & r & objs & p & Hf).
  destruct Hf as (Hcv & Hsc & Hcam & Hr & Hobjs & Hp).
  cbn zeta. rewrite (dispose_eq a h sc objs r) by assumption. cbn [fst].
  erewrite dispose_eq; [ | reflexivity | reflexivity | reflexivity ].
  destruct a, h. cbn in *. unfold cancel_frame. cbn.
  rewrite cancelled_idem, app_nil_r. reflexivity.
Qed.

Lemma repeat_dispose n a h :
  bound a →
  repeat_M (S n) dispose {| this := a; host := h |} =
  ((dispose {| this := a; host := h |}).1, Normal tt).
Proof.
  intros Hb. pose proof (dispose_again a h Hb) as Hagain. cbn zeta in Hagain.
  destruct (bound_fields a Hb) as (cv & sc & cam & r & objs & p & Hf).
  destruct Hf as (Hcv & Hsc & Hcam & Hr & Hobjs & Hp).
  cbn [repeat_M]. unfold mbind at 1, M_bind at 1.
  rewrite (dispose_eq a h sc objs r) in * by assumption. cbn [fst] in *.
  induction n as [|n IH]; [ reflexivity | ].
  cbn [repeat_M]. unfold mbind at 1, M_bind at 1. rewrite Hagain. exact IH.
Qed.

(** C4. Calling [dispose()] N > 1 times on a binding leaves the same state as
    calling it once, and no call throws. *)
Theorem dispose_idempotent a h (N : nat) :
  bound a → (1 < N)%nat →
  repeat_M N dispose {| this := a; host := h |} =
    repeat_M 1 dispose {| this := a; host := h |} ∧
  (repeat_M N dispose {| this := a; host := h |}).2 = Normal tt.
Proof.
  intros Hb HN. destruct N as [|N]; [ lia | ].
  rewrite !repeat_dispose by exact Hb. split; reflexivity.
Qed.

(** The object that the constructor leaves when the canvas is missing is not a
    binding: [dispose()] on it throws, [this.objects] being undefined. *)
Remark dispose_without_canvas h :
  (dispose {| this := empty_object; host := h |}).2 = Throw (TypeError "objects").
Proof. destruct h. reflexivity. Qed.

(** C10. [dispose()] records nothing that stops a binding for good: a later
    [play()] sets the play flag, requests a frame and runs the frame body over
    the now empty collection, and the frame it requested does so again. *)
Theorem play_after_dispose_restarts self a h :
  bound a →
  let s1 := (dispose {| this := a; host := h |}).1 in
  let r1 := play self s1 in
  let r2 := animate self r1.1 in
  r1.2 = Normal tt ∧
  isPlaying (this r1.1) = Some true ∧
  objects (this r1.1) = Some [] ∧
  animationId (this r1.1) = Some (S (raf_id h)) ∧
  (S (raf_id h), self) ∈ raf_callbacks (host r1.1) ∧
  frames <$> renderer (this r1.1) = S ∘ frames <$> renderer a ∧
  r2.2 = Normal tt ∧
  objects (this r2.1) = Some [] ∧
  (S (S (raf_id h)), self) ∈ raf_callbacks (host r2.1) ∧
  frames <$> renderer (this r2.1) = S ∘ S ∘ frames <$> renderer a.
Proof.
  intros Hb. destruct (bound_fields a Hb) as (cv & sc & cam & r & objs & p & Hf).
  destruct Hf as (Hcv & Hsc & Hcam & Hr & Hobjs & Hp).
  cbn zeta. rewrite (dispose_eq a h sc objs r) by assumption. cbn [fst].
  rewrite play_eq. cbn [this host isPlaying with_objects with_renderer with_scene
    with_isPlaying truthy_flag default from_option id].
  erewrite animate_eq; [ | reflexivity | reflexivity | cbn; exact Hcam | reflexivity ].
  cbn [fst snd this host].
  erewrite animate_eq; [ | reflexivity | reflexivity | reflexivity | reflexivity ].
  destruct a, h. cbn in *. subst.
  repeat split; try reflexivity; apply elem_of_app; right; apply list_elem_of_singleton;
    reflexivity.
Qed.

(** C3, as the code has it. On a running binding, [pause()] followed at once by
    [play()] resets nothing and resumes scheduling, and [play()] itself runs
    one frame body: every object is the image under [animate_object] of what
    it was at the pause, so its rotation has advanced by its velocity on each
    axis, its x and z position, geometry and animation profile are kept, and
    one frame request for the binding is pending. *)
Theorem pause_play_runs_one_frame self a h objs :
  bound a → isPlaying a = Some true → objects a = Some objs →
  let s1 := (pause {| this := a; host := h |}).1 in
  let r := play self s1 in
  let time := inject_Z (clock h) * 0.001 in
  r.2 = Normal tt ∧
  isPlaying (this r.1) = Some true ∧
  animationId (this r.1) = Some (S (raf_id h)) ∧
  raf_callbacks (host r.1) =
    cancelled (animationId a) (raf_callbacks h) ++ [(S (raf_id h), self)] ∧
  objects (this r.1) = Some (imap (animate_object time) objs) ∧
  ∀ i obj, objs !! i = Some obj →
    ∃ obj', imap (animate_object time) objs !! i = Some obj' ∧
      vx (rotation obj') = vx (rotation obj) + vx (rotationSpeed (userData obj)) ∧
      vy (rotation obj') = vy (rotation obj) + vy (rotationSpeed (userData obj)) ∧
      vz (rotation obj') = vz (rotation obj) + vz (rotationSpeed (userData obj)) ∧
      vx (position obj') = vx (position obj) ∧
      vz (position obj') = vz (position obj) ∧
      userData obj' = userData obj ∧
      geometry obj' = geometry obj.
Proof.
  intros Hb Hplay Hobjs.
  destruct (bound_fields a Hb) as (cv & sc & cam & r & objs' & p & Hf).
  destruct Hf as (Hcv & Hsc & Hcam & Hr & Hobjs' & Hp).
  cbn zeta. rewrite pause_eq. cbn [fst]. rewrite play_eq.
  cbn [this host isPlaying with_isPlaying truthy_flag default from_option id].
  erewrite animate_eq; [ | reflexivity | cbn; exact Hobjs | cbn; exact Hcam | cbn; exact Hr ].
  cbn [fst snd this host].
  split; [ reflexivity | ]. split; [ reflexivity | ]. split; [ reflexivity | ].
  split; [ destruct h; reflexivity | ]. split; [ reflexivity | ].
  intros i obj Hi. exists (animate_object (inject_Z (clock h) * 0.001) i obj).
  split; [ | repeat split; destruct h; reflexivity ].
  rewrite list_lookup_imap, Hi. destruct h; reflexivity.
Qed.

(** ** Object creation *)

Lemma make_geometry_default type config :
  type ∉ supported_shapes.*1 →
  make_geometry type config =
    SphereGeometry (size config) (segments config) (segments config).
Proof.
  intros Hnot. unfold make_geometry.
  repeat match goal with
  | |- context [String.eqb type ?s] =>
    destruct (String.eqb_spec type s) as [->|_];
      [ exfalso; apply Hnot; compute_done | ]
  end.
  reflexivity.
Qed.

(** C7. On a binding, [createFloatingGeometry] never throws and appends
    exactly one object to the owned collection (and to the scene); each of the
    six supported kinds yields its own primitive, the six primitives are
    distinct, and any other kind, or none, yields the sphere that ['sphere']
    yields. *)
Theorem createFloatingGeometry_appends_one a h type options :
  bound a →
  ∃ mesh objs sc,
    objects a = Some objs ∧ scene a = Some sc ∧
    let r := createFloatingGeometry type options {| this := a; host := h |} in
    r.2 = Normal mesh ∧
    objects (this r.1) = Some (objs ++ [mesh]) ∧
    scene (this r.1) = Some (sc ++ [MeshNode (uid mesh)]) ∧
    (∀ t p, (t, p) ∈ supported_shapes → type = Some t → primitive (geometry mesh) = p) ∧
    ((∀ t, type = Some t → t ∉ supported_shapes.*1) →
       geometry mesh =
         SphereGeometry (size (merge_config options)) (segments (merge_config options))
           (segments (merge_config options))) ∧
    NoDup supported_shapes.*1 ∧ NoDup supported_shapes.*2.
Proof.
  intros Hb. destruct (bound_fields a Hb) as (cv & sc & cam & r & objs & p & Hf).
  destruct Hf as (Hcv & Hsc & Hcam & Hr & Hobjs & Hp).
  exists (created_mesh a h type options), objs, sc.
  split; [ exact Hobjs | ]. split; [ exact Hsc | ].
  cbn zeta. rewrite (createFloatingGeometry_eq a h type options sc objs) by assumption.
  cbn [fst snd this host].
  split; [ reflexivity | ]. split; [ destruct a; reflexivity | ].
  split; [ destruct a; reflexivity | ]. split; [ | split; [ | split ] ].
  - intros t q Hin ->. unfold supported_shapes in Hin.
    repeat (apply elem_of_cons in Hin as [Hin|Hin]; [ injection Hin as -> ->; reflexivity | ]).
    inversion Hin.
  - intros Hnot. cbn [created_mesh geometry]. destruct type as [t|]; [ | reflexivity ].
    apply make_geometry_default, Hnot. reflexivity.
  - compute_done.
  - apply (NoDup_fmap_1 (fun p : Primitive =>
             match p with
             | Sphere => 0 | Box => 1 | Torus => 2
             | Octahedron => 3 | Icosahedron => 4 | Tetrahedron => 5
             end%nat)).
    compute_done.
Qed.

(** C8. With every draw of [Math.random] in [0, 1), each randomized attribute
    of a created object is within the bounds the code gives it: the colour is
    one of the two palette colours; x and y are in [-3, 3) and z in
    [-1.5, 1.5); each rotation is in [0, 2 Math.PI); each rotation velocity is
    in [-0.01, 0.01); the float frequency is in [0.005, 0.015], the float
    amplitude in [0.2, 0.7] and the pulse frequency in [0.01, 0.03]. The
    upper ends of the last three are closed: each is a product plus a
    constant, and once the sum is rounded a draw next to 1 gives the end
    point itself. *)
Theorem created_attributes_in_bounds a h type options :
  (∀ n, 0 <= random n ∧ random n < 1) → bound a →
  ∃ mesh c1 c2,
    (createFloatingGeometry type options {| this := a; host := h |}).2 = Normal mesh ∧
    color1 a = Some c1 ∧ color2 a = Some c2 ∧
    (material_color mesh = ColorHex c1 ∨ material_color mesh = ColorHex c2) ∧
    (-(3) <= vx (position mesh) ∧ vx (position mesh) < 3) ∧
    (-(3) <= vy (position mesh) ∧ vy (position mesh) < 3) ∧
    (-(1.5) <= vz (position mesh) ∧ vz (position mesh) < 1.5) ∧
    (0 <= vx (rotation mesh) ∧ vx (rotation mesh) < 2 * Math_PI) ∧
    (0 <= vy (rotation mesh) ∧ vy (rotation mesh) < 2 * Math_PI) ∧
    (0 <= vz (rotation mesh) ∧ vz (rotation mesh) < 2 * Math_PI) ∧
    (-(0.01) <= vx (rotationSpeed (userData mesh)) ∧ vx (rotationSpeed (userData mesh)) < 0.01) ∧
    (-(0.01) <= vy (rotationSpeed (userData mesh)) ∧ vy (rotationSpeed (userData mesh)) < 0.01) ∧
    (-(0.01) <= vz (rotationSpeed (userData mesh)) ∧ vz (rotationSpeed (userData mesh)) < 0.01) ∧
    (0.005 <= floatSpeed (userData mesh) ∧ floatSpeed (userData mesh) <= 0.015) ∧
    (0.2 <= floatAmount (userData mesh) ∧ floatAmount (userData mesh) <= 0.7) ∧
    (0.01 <= pulseSpeed (userData mesh) ∧ pulseSpeed (userData mesh) <= 0.03) ∧
    originalPosition (userData mesh) = position mesh.
Proof.
  intros Hrand Hb. destruct (bound_fields a Hb) as (cv & sc & cam & r & objs & p & Hf).
  destruct Hf as (Hcv & Hsc & Hcam & Hr & Hobjs & Hp).
  destruct Hb as (_ & _ & _ & _ & _ & _ & [c1 Hc1] & [c2 Hc2]).
  exists (created_mesh a h type options), c1, c2.
  rewrite (createFloatingGeometry_eq a h type options sc objs) by assumption.
  split; [ reflexivity | ]. split; [ exact Hc1 | ]. split; [ exact Hc2 | ].
  split.
  { cbn [created_mesh material_color]. rewrite Hc1, Hc2.
    destruct (gt _ _); [ left | right ]; reflexivity. }
  cbn [created_mesh position rotation userData rotationSpeed floatSpeed floatAmount
       pulseSpeed originalPosition vx vy vz].
  assert (Hpi : Math_PI == 884279719003555 # 281474976710656) by reflexivity.
  repeat match goal with
  | |- context [random ?n] =>
    let v := fresh "v" in
    let Hv := fresh "Hv" in
    pose proof (Hrand n) as Hv; set (v := random n) in *; clearbody v
  end.
  repeat split; try reflexivity; rewrite ?Hpi; lra.
Qed.

(** ** The colour set by a frame *)

Lemma animate_object_color_blind time i m1 m2 :
  same_but_color m1 m2 → animate_object time i m1 = animate_object time i m2.
Proof.
  destruct m1, m2. unfold same_but_color. cbn.
  intros (-> & -> & -> & -> & -> & ->). reflexivity.
Qed.

Lemma imap_color_blind (f : nat → Mesh → Mesh) l1 l2 :
  (∀ i m1 m2, same_but_color m1 m2 → f i m1 = f i m2) →
  Forall2 same_but_color l1 l2 → imap f l1 = imap f l2.
Proof.
  intros Hf Hl. revert f Hf. induction Hl as [|m1 m2 l1 l2 Hm Hl IH]; intros f Hf.
  - reflexivity.
  - cbn [imap]. f_equal; [ apply Hf, Hm | ]. apply IH. intros i. apply Hf.
Qed.

(** Runs that differ only in the palette stay palette variants of each other:
    the constructor and object creation. *)
Lemma constructor_palette_variant self canvasId c1 c2 c1' c2' h :
  let r1 := constructor self canvasId c1 c2 {| this := empty_object; host := h |} in
  let r2 := constructor self canvasId c1' c2' {| this := empty_object; host := h |} in
  palette_variant (this r1.1) (this r2.1) ∧ host r1.1 = host r2.1 ∧ r1.2 = r2.2.
Proof.
  cbn zeta. destruct (decide (canvasId ∈ dom h)) as [Hin|Hout].
  - destruct (webgl h) eqn:Hgl.
    + rewrite !constructor_present by assumption. cbn.
      split; [ | split; reflexivity ].
      unfold palette_variant. cbn. repeat split. repeat constructor.
    + rewrite !constructor_no_context by assumption. cbn.
      split; [ | split; reflexivity ].
      unfold palette_variant. cbn. repeat split. constructor.
  - rewrite !constructor_missing by assumption. cbn.
    split; [ | split; reflexivity ].
    unfold palette_variant. cbn. repeat split. constructor.
Qed.

Lemma createFloatingGeometry_palette_variant a1 a2 h type options :
  palette_variant a1 a2 → bound a1 →
  let r1 := createFloatingGeometry type options {| this := a1; host := h |} in
  let r2 := createFloatingGeometry type options {| this := a2; host := h |} in
  palette_variant (this r1.1) (this r2.1) ∧ host r1.1 = host r2.1.
Proof.
  intros Hv Hb. destruct (bound_fields a1 Hb) as (cv & sc & cam & r & objs & p & Hf).
  destruct Hf as (Hcv & Hsc & Hcam & Hr & Hobjs & Hp).
  destruct Hv as (Ecv & Esc & Ecam & Er & Eid & Ep & Eobjs).
  rewrite Hobjs in Eobjs. inversion Eobjs as [objs1 objs2 Hobjs12 E1 E2|]; subst.
  cbn zeta.
  rewrite (createFloatingGeometry_eq a1 h type options sc objs) by assumption.
  rewrite (createFloatingGeometry_eq a2 h type options sc objs2) by congruence.
  cbn [fst this host]. split; [ | reflexivity ].
  destruct a1, a2. unfold palette_variant. cbn in *. subst.
  repeat split. constructor. apply Forall2_app; [ assumption | ].
  repeat constructor.
Qed.

(** C9. Take two runs that differ only in the palette of a binding (so the
    two animators differ at most in [color1], [color2] and in the material
    colours of their objects) and let the frame body run in both on the same
    host: afterwards the objects are the same in both runs, colours included,
    and the colour of the object at [index] is
    [setHSL((time * 0.1 + index * 0.1) % 1, 0.7, 0.6)]. *)
Theorem frame_colors_independent_of_palette self a1 a2 h :
  palette_variant a1 a2 → bound a1 → isPlaying a1 = Some true →
  let r1 := animate self {| this := a1; host := h |} in
  let r2 := animate self {| this := a2; host := h |} in
  let time := inject_Z (clock h) * 0.001 in
  r1.2 = Normal tt ∧ r2.2 = Normal tt ∧
  objects (this r1.1) = objects (this r2.1) ∧
  host r1.1 = host r2.1 ∧
  ∃ objs', objects (this r1.1) = Some objs' ∧
    (∃ objs, objects a1 = Some objs ∧ length objs' = length objs) ∧
    ∀ i mesh, objs' !! i = Some mesh →
      material_color mesh =
        ColorHSL (mod1 (time * 0.1 + inject_Z (Z.of_nat i) * 0.1)) 0.7 0.6.
Proof.
  intros Hv Hb Hplay. destruct (bound_fields a1 Hb) as (cv & sc & cam & r & objs & p & Hf).
  destruct Hf as (Hcv & Hsc & Hcam & Hr & Hobjs & Hp).
  destruct Hv as (Ecv & Esc & Ecam & Er & Eid & Ep & Eobjs).
  rewrite Hobjs in Eobjs. inversion Eobjs as [objs1 objs2 Hobjs12 E1 E2|]; subst.
  cbn zeta.
  rewrite (animate_eq self a1 h objs cam r) by assumption.
  rewrite (animate_eq self a2 h objs2 cam r) by congruence.
  cbn [fst snd this host].
  split; [ reflexivity | ]. split; [ reflexivity | ].
  assert (Hsame : imap (animate_object (inject_Z (clock h) * 0.001)) objs =
                  imap (animate_object (inject_Z (clock h) * 0.001)) objs2).
  { apply imap_color_blind; [ | exact Hobjs12 ].
    intros i m1 m2. apply animate_object_color_blind. }
  split; [ destruct a1, a2; cbn; rewrite Hsame; reflexivity | ].
  split; [ reflexivity | ].
  exists (imap (animate_object (inject_Z (clock h) * 0.001)) objs).
  split; [ destruct a1; reflexivity | ].
  split; [ exists objs; split; [ exact Hobjs | apply length_imap ] | ].
  intros i mesh Hi. rewrite list_lookup_imap in Hi.
  destruct (objs !! i) as [obj|]; [ | discriminate ].
  injection Hi as <-. reflexivity.
Qed.

(** ** Frame requests *)

Lemma outstanding_at_most_one r w :
  WInv w →
  (length (outstanding r w) ≤ 1)%nat ∧
  ∀ a, heap w !! r = Some a → truthy_flag (isPlaying a) = false → outstanding r w = [].
Proof.
  intros [Hnd Hcb].
  assert (Hown : ∀ cb, cb ∈ outstanding r w →
            ∃ a, heap w !! r = Some a ∧ isPlaying a = Some true ∧ animationId a = Some cb.1).
  { intros [id r'] Hin. apply list_elem_of_filter in Hin as [Hr Hin]. cbn in Hr. subst r'.
    destruct (Hcb _ _ Hin) as (_ & a & Ha). exists a. exact Ha. }
  assert (Hnd' : NoDup (outstanding r w).*1).
  { eapply sublist_NoDup; [ exact Hnd | ]. apply fmap_sublist, sublist_filter. }
  split.
  - destruct (outstanding r w) as [|x [|y l]]; cbn; [ lia | lia | ].
    exfalso.
    destruct (Hown x) as (a & Ha & _ & Hx); [ left | ].
    destruct (Hown y) as (a' & Ha' & _ & Hy); [ right; left | ].
    assert (a' = a) as -> by congruence.
    assert (Hxy : x.1 = y.1) by congruence.
    cbn in Hnd'. apply NoDup_cons in Hnd' as [Hnot _]. apply Hnot. rewrite Hxy. left.
  - intros a Ha Hp. destruct (outstanding r w) as [|x l]; [ reflexivity | ].
    destruct (Hown x) as (a' & Ha' & Hp' & _); [ left | ].
    assert (a' = a) as -> by congruence. rewrite Hp' in Hp. discriminate.
Qed.

(** C6. In every state the page can reach, whatever the order of
    constructions, method calls, frames, timers and visibility notifications,
    each animator has at most one frame request outstanding, and none when
    its play flag is not true. *)
Theorem one_frame_request_outstanding d gl (es : list Event) (r : nat) :
  let w := run (page d gl) es in
  (length (outstanding r w) ≤ 1)%nat ∧
  match heap w !! r with
  | Some a => truthy_flag (isPlaying a) = false → outstanding r w = []
  | None => outstanding r w = []
  end.
Proof.
  cbn zeta. pose proof (run_WInv es (page d gl) (page_WInv d gl)) as HI.
  destruct (outstanding_at_most_one r _ HI) as [Hone Hnone]. split; [ exact Hone | ].
  destruct (heap _ !! r) as [a|] eqn:Hr; [ intros Hp; eapply Hnone; eauto | ].
  destruct (outstanding r _) as [|[id r'] l] eqn:Hout; [ reflexivity | exfalso ].
  assert (Hin : (id, r') ∈ outstanding r (run (page d gl) es)) by (rewrite Hout; left).
  apply list_elem_of_filter in Hin as [Hr' Hin]. cbn in Hr'. subst r'.
  destruct (proj2 HI _ _ Hin) as (_ & a & Ha & _). congruence.
Qed.

(** ** Visibility *)

Lemma play_isPlaying self s : isPlaying (this (play self s).1) = Some true.
Proof.
  rewrite play_eq. destruct (truthy_flag (isPlaying (this s))) eqn:Hp.
  - cbn. destruct (isPlaying (this s)) as [[|]|]; try discriminate. reflexivity.
  - pose proof (animate_view self
      {| this := with_isPlaying (Some true) (this s); host := host s |}) as Hv.
    apply (f_equal (fun v => v.1.2)) in Hv. exact Hv.
Qed.

Lemma pause_isPlaying s : isPlaying (this (pause s).1) = Some false.
Proof. pose proof (pause_view s) as Hv. apply (f_equal (fun v => v.1.2)) in Hv. exact Hv. Qed.

Lemma animate_keeps self s :
  canvas (this (animate self s).1) = canvas (this s) ∧
  hidden (host (animate self s).1) = hidden (host s).
Proof.
  destruct_state s. unfold animate. exec.
  destruct (truthy_flag _); [ | split; reflexivity ].
  destruct objects0, camera0, renderer0; exec; split; reflexivity.
Qed.

Lemma play_keeps self s :
  canvas (this (play self s).1) = canvas (this s) ∧
  hidden (host (play self s).1) = hidden (host s).
Proof.
  rewrite play_eq. destruct (truthy_flag _); [ split; reflexivity | ].
  destruct (animate_keeps self
    {| this := with_isPlaying (Some true) (this s); host := host s |}) as [Hc Hh].
  rewrite Hc, Hh. destruct s as [[] ?]. split; reflexivity.
Qed.

Lemma pause_keeps s :
  canvas (this (pause s).1) = canvas (this s) ∧
  hidden (host (pause s).1) = hidden (host s).
Proof.
  destruct s as [a h]. rewrite pause_eq. destruct a, h. unfold cancel_frame. split; reflexivity.
Qed.

Lemma call_heap_other {A} r r' (m : M A) w : r ≠ r' → heap (call r' m w).1 !! r = heap w !! r.
Proof.
  intros Hne. unfold call. destruct (heap w !! r') as [a|]; [ | reflexivity ].
  destruct (m _) as [s c]. cbn. apply list_lookup_insert_ne. congruence.
Qed.

Lemma call_heap_self {A} r (m : M A) w a :
  heap w !! r = Some a →
  heap (call r m w).1 !! r = Some (this (m {| this := a; host := env w |}).1) ∧
  env (call r m w).1 = host (m {| this := a; host := env w |}).1.
Proof.
  intros Hr. unfold call. rewrite Hr. destruct (m _) as [s c]. cbn.
  split; [ | reflexivity ]. apply list_lookup_insert_eq. eapply lookup_lt_Some, Hr.
Qed.

Lemma call_env_other {A} r (m : M A) w : heap w !! r = None → (call r m w).1 = w.
Proof. intros Hr. unfold call. rewrite Hr. reflexivity. Qed.

(** What a round of listeners leaves in the animator at [r], when each
    handler turns [P] into [Q] and keeps the host condition [E]. *)
Lemma dispatch_lookup (E : Host → Prop) (P Q : ThreeJSAnimator → Prop) handler :
  (∀ r a h, E h →
     E (host (handler r {| this := a; host := h |}).1) ∧
     (P a → Q (this (handler r {| this := a; host := h |}).1))) →
  (∀ a, Q a → P a) →
  ∀ listeners w r a,
    E (env w) → heap w !! r = Some a → Q a ∨ (P a ∧ r ∈ listeners) →
    ∃ a', heap (dispatch handler listeners w) !! r = Some a' ∧ Q a'.
Proof.
  intros Hh HQP listeners. induction listeners as [|r0 rest IH]; intros w r a HE Hr Hcase.
  - destruct Hcase as [HQ|[_ Hin]]; [ eauto | inversion Hin ].
  - cbn [dispatch]. destruct (decide (r0 = r)) as [->|Hne].
    + destruct (call_heap_self r (handler r) w a Hr) as [Hr' He'].
      destruct (Hh r a (env w) HE) as [HE' HPQ].
      eapply IH; [ rewrite He'; exact HE' | exact Hr' | left ].
      apply HPQ. destruct Hcase as [HQ|[HP _]]; auto.
    + destruct (heap w !! r0) as [a0|] eqn:Hr0.
      * destruct (call_heap_self r0 (handler r0) w a0 Hr0) as [_ He'].
        destruct (Hh r0 a0 (env w) HE) as [HE' _].
        eapply IH; [ rewrite He'; exact HE' | | ].
        -- rewrite call_heap_other by congruence. exact Hr.
        -- destruct Hcase as [HQ|[HP Hin]]; [ left; exact HQ | right ].
           split; [ exact HP | ]. apply elem_of_cons in Hin as [->|Hin]; [ congruence | exact Hin ].
      * rewrite call_env_other by exact Hr0.
        eapply IH; [ exact HE | exact Hr | ].
        destruct Hcase as [HQ|[HP Hin]]; [ left; exact HQ | right ].
        split; [ exact HP | ]. apply elem_of_cons in Hin as [->|Hin]; [ congruence | exact Hin ].
Qed.

(** C1, as the code has it. The two visibility sources drive a binding
    independently: after a visibilitychange notification the binding is
    running exactly when the document is shown, and after an intersection
    notification for its canvas it is running exactly when the canvas
    intersects, in both cases whatever the other source last reported. So a
    not-visible report from either source pauses the binding, and a visible
    report from either source alone makes it run. *)
Theorem visibility_last_report_wins (w : World) (r : nat) (a : ThreeJSAnimator) :
  heap w !! r = Some a →
  (∀ hid, r ∈ visibility_listeners (env w) →
     ∃ a', heap (step w (ev_visibilitychange hid)) !! r = Some a' ∧
           isPlaying a' = Some (negb hid)) ∧
  (∀ target b, r ∈ intersection_observers (env w) → canvas a = Some target →
     ∃ a', heap (step w (ev_intersection target b)) !! r = Some a' ∧
           isPlaying a' = Some b).
Proof.
  intros Hr. split.
  - intros hid Hin. cbn [step]. unfold visibilitychange.
    eapply (dispatch_lookup (fun h => hidden h = hid) (fun _ => True)
              (fun a' => isPlaying a' = Some (negb hid))).
    + intros r0 a0 h Hh. unfold on_visibilitychange, mbind, M_bind, get_host.
      cbn [host]. rewrite Hh. destruct hid; cbn [negb].
      * split; [ | intros _; apply pause_isPlaying ].
        rewrite (proj2 (pause_keeps _)). exact Hh.
      * split; [ | intros _; apply play_isPlaying ].
        rewrite (proj2 (play_keeps _ _)). exact Hh.
    + auto.
    + destruct w as [? []]; reflexivity.
    + exact Hr.
    + right. split; [ exact I | ]. destruct w as [? []]; exact Hin.
  - intros target b Hin Hcv. cbn [step]. unfold intersection.
    destruct (dispatch_lookup (fun _ => True) (fun a' => canvas a' = Some target)
                (fun a' => canvas a' = Some target ∧ isPlaying a' = Some b)
                (fun r0 => on_intersection r0 target b)) with
      (listeners := intersection_observers (env w))
      (w := with_reported ((target, b) :: reported w) w) (r := r) (a := a)
      as (a' & Ha' & _ & Hp'); [ | intros a0 [H _]; exact H | exact I | exact Hr | | eauto ].
    + intros r0 a0 h _. split; [ exact I | ]. intros Hc.
      unfold on_intersection, mbind, M_bind, get_this. cbn [this].
      rewrite bool_decide_eq_true_2 by exact Hc. destruct b.
      * split; [ | apply play_isPlaying ]. rewrite (proj1 (play_keeps _ _)). exact Hc.
      * split; [ | apply pause_isPlaying ]. rewrite (proj1 (pause_keeps _)). exact Hc.
    + right. split; [ exact Hcv | exact Hin ].
Qed.

(** ** The pool *)

Lemma Math_random_eq a h :
  Math_random {| this := a; host := h |} =
  ({| this := a; host := with_draws (S (draws h)) h |}, Normal (random (draws h))).
Proof. reflexivity. Qed.

Lemma adds_random_object (types : list string) (f : Q → Q) :
  adds 1 (r ← Math_random;
          s ← Math_random;
          createFloatingGeometry (pick types r)
            {| opt_size := Some (f s); opt_segments := None; opt_detail := None |};;
          mret tt).
Proof.
  intros a h objs Hb Hobjs.
  destruct (bound_fields a Hb) as (cv & sc & cam & r & objs' & p & Hf).
  destruct Hf as (Hcv & Hsc & Hcam & Hr & Hobjs' & Hp).
  unfold mbind at 1, M_bind at 1. rewrite Math_random_eq.
  unfold mbind at 1, M_bind at 1. rewrite Math_random_eq.
  unfold mbind at 1, M_bind at 1.
  erewrite createFloatingGeometry_eq; [ | exact Hsc | exact Hobjs ].
  eexists _, _. split; [ reflexivity | ]. cbn [this host].
  split; [ apply bound_with_objects_scene, Hb | ].
  split; [ reflexivity | ]. split; [ reflexivity | ].
  split; [ rewrite length_app; reflexivity | ].
  repeat split.
Qed.

Lemma adds_repeat_M n body : adds 1 body → adds n (repeat_M n body).
Proof.
  intros Hbody. induction n as [|n IH]; intros a h objs Hb Hobjs.
  - exists {| this := a; host := h |}, objs. cbn.
    repeat split; auto; try apply Hb; lia.
  - cbn [repeat_M]. unfold mbind at 1, M_bind at 1.
    destruct (Hbody a h objs Hb Hobjs) as (s1 & objs1 & E1 & Hb1 & Hc1 & Ho1 & Hl1 & Hp1).
    rewrite E1. destruct s1 as [a1 h1]. cbn [this host] in *.
    destruct (IH a1 h1 objs1 Hb1 Ho1) as (s2 & objs2 & E2 & Hb2 & Hc2 & Ho2 & Hl2 & Hp2).
    exists s2, objs2. split; [ exact E2 | ]. split; [ exact Hb2 | ].
    split; [ congruence | ]. split; [ exact Ho2 | ]. split; [ lia | ].
    destruct Hp1 as (? & ? & ?), Hp2 as (? & ? & ?). repeat split; congruence.
Qed.

Lemma adds_addRandomObjects count : adds count (addRandomObjects count).
Proof. apply adds_repeat_M, (adds_random_object _ (fun s => s * 0.5 + 0.5)). Qed.

Lemma card_body_present config self h :
  config_id config ∈ dom h → webgl h = true →
  ∃ s' objs,
    card_body config self {| this := empty_object; host := h |} = (s', Normal true) ∧
    bound (this s') ∧ canvas (this s') = Some (config_id config) ∧
    objects (this s') = Some objs ∧ length objs = 3%nat ∧
    isPlaying (this s') = Some true ∧
    same_page h (host s').
Proof.
  intros Hin Hgl. unfold card_body. unfold mbind at 1, M_bind at 1.
  rewrite constructor_present by assumption.
  unfold mbind at 1, M_bind at 1, get_this at 1. cbn [this constructed canvas].
  unfold mbind at 1, M_bind at 1.
  edestruct (adds_addRandomObjects 3) as (s' & objs & E & Hb & Hc & Ho & Hl & Hp);
    [ apply constructed_bound | reflexivity | ].
  fold (constructed self (config_id config) (Some (config_colors config).1)
          (Some (config_colors config).2) h).
  pose proof (silent_addRandomObjects 3
    {| this := constructed self (config_id config) (Some (config_colors config).1)
                 (Some (config_colors config).2) h;
       host := with_raf (S (raf_id h)) (raf_callbacks h ++ [(S (raf_id h), self)])
                 (with_listeners (visibility_listeners h ++ [self])
                    (intersection_observers h ++ [self]) h) |}) as Hsilent.
  rewrite E in *. apply (f_equal (fun v => v.1.2)) in Hsilent. cbn in Hsilent.
  exists s', objs. split; [ reflexivity | ]. split; [ exact Hb | ].
  split; [ exact Hc | ]. split; [ exact Ho | ]. split; [ exact Hl | ].
  split; [ exact Hsilent | ].
  destruct Hp as (Hd & Hw & Hcon). destruct h. cbn in *. repeat split; assumption.
Qed.

Lemma card_body_missing config self h :
  config_id config ∉ dom h →
  card_body config self {| this := empty_object; host := h |} =
  ({| this := empty_object;
      host := with_console (console h ++ [warn_canvas_not_found (config_id config)]) h |},
   Normal false).
Proof.
  intros Hout. unfold card_body. unfold mbind at 1, M_bind at 1.
  rewrite constructor_missing by assumption. reflexivity.
Qed.

Lemma Map_set_fresh k v m : k ∉ m.*1 → Map_set k v m = m ++ [(k, v)].
Proof.
  induction m as [|[k' v'] m IH]; intros Hk; [ reflexivity | ].
  cbn [Map_set]. destruct (String.eqb_spec k' k) as [->|Hne].
  - exfalso. apply Hk. left.
  - cbn. f_equal. apply IH. intros Hin. apply Hk. right. exact Hin.
Qed.

Lemma initCard_present config w :
  config_id config ∈ dom (env w) → webgl (env w) = true →
  ∃ a objs,
    heap (initCard config w) = heap w ++ [a] ∧
    bound a ∧ canvas a = Some (config_id config) ∧
    objects a = Some objs ∧ length objs = 3%nat ∧
    isPlaying a = Some true ∧
    animators (initCard config w) =
      Map_set (config_id config) (length (heap w)) (animators w) ∧
    same_page (env w) (env (initCard config w)) ∧
    timers (initCard config w) = timers w.
Proof.
  intros Hin Hgl. unfold initCard, new.
  destruct (card_body_present config (length (heap w)) (env w) Hin Hgl)
    as (s' & objs & E & Hb & Hc & Ho & Hl & Hplay & Hp).
  rewrite E. exists (this s'), objs. cbn.
  split; [ reflexivity | ]. split; [ exact Hb | ]. split; [ exact Hc | ].
  split; [ exact Ho | ]. split; [ exact Hl | ]. split; [ exact Hplay | ].
  split; [ reflexivity | ]. split; [ exact Hp | reflexivity ].
Qed.

Lemma initCard_missing config w :
  config_id config ∉ dom (env w) →
  heap (initCard config w) = heap w ++ [empty_object] ∧
  animators (initCard config w) = animators w ∧
  console (env (initCard config w)) =
    console (env w) ++ [warn_canvas_not_found (config_id config)] ∧
  dom (env (initCard config w)) = dom (env w) ∧
  webgl (env (initCard config w)) = webgl (env w) ∧
  timers (initCard config w) = timers w.
Proof.
  intros Hout. unfold initCard, new. rewrite card_body_missing by assumption.
  destruct w as [? []]. cbn. repeat split.
Qed.

Lemma insert_timer_last due t q :
  Forall (fun e => (e.1 ≤ due)%Z) q → insert_timer due t q = q ++ [(due, t)].
Proof.
  induction 1 as [|[d t'] q Hd Hq IH]; [ reflexivity | ].
  cbn [insert_timer]. cbn in Hd. rewrite (proj2 (Z.ltb_ge due d)) by exact Hd.
  cbn. f_equal. exact IH.
Qed.

Lemma stagger_eq configs index w :
  (0 ≤ index)%Z →
  Forall (fun e => (e.1 ≤ clock (env w) + index * 50)%Z) (timers w) →
  stagger configs index w =
    with_timers (timers w ++ card_timers (clock (env w)) index configs) w.
Proof.
  revert index w. induction configs as [|c rest IH]; intros index w Hi Hq.
  - cbn. rewrite app_nil_r. destruct w; reflexivity.
  - cbn [stagger card_timers]. unfold setTimeout. rewrite insert_timer_last by exact Hq.
    rewrite IH; [ | lia | ].
    + cbn. rewrite <- app_assoc. reflexivity.
    + cbn. apply Forall_app. split.
      * eapply Forall_impl; [ exact Hq | ]. cbn. intros; lia.
      * repeat constructor. cbn. lia.
Qed.

Lemma initCardAnimations_eq w :
  timers w = [] →
  initCardAnimations w = with_timers (card_timers (clock (env w)) 0 (cardConfigs w)) w.
Proof.
  intros Hq. unfold initCardAnimations. rewrite stagger_eq; [ | lia | ].
  - rewrite Hq. reflexivity.
  - rewrite Hq. constructor.
Qed.

(** Firing the staggered timers one after the other. *)
Lemma run_card_timers configs :
  ∀ w t0 index,
    timers w = card_timers t0 index configs →
    webgl (env w) = true →
    NoDup (config_id <$> configs) →
    (∀ c, c ∈ configs → config_id c ∉ (animators w).*1) →
    let w' := run w (replicate (length configs) ev_timeout) in
    timers w' = [] ∧
    (animators w').*1 =
      (animators w).*1 ++ filter (fun k => k ∈ dom (env w)) (config_id <$> configs) ∧
    console (env w') =
      console (env w) ++
      (warn_canvas_not_found <$> filter (fun k => k ∉ dom (env w)) (config_id <$> configs)) ∧
    dom (env w') = dom (env w) ∧
    (∃ more, heap w' = heap w ++ more) ∧
    ∀ k r, (k, r) ∈ animators w' →
      (k, r) ∈ animators w ∨
      ∃ a objs, heap w' !! r = Some a ∧ bound a ∧ canvas a = Some k ∧
                objects a = Some objs ∧ length objs = 3%nat ∧
                isPlaying a = Some true.
Proof.
  induction configs as [|c rest IH]; intros w t0 index Hq Hgl Hnd Hfresh.
  - cbn. rewrite !app_nil_r. repeat split; auto. exists []. rewrite app_nil_r. reflexivity.
  - cbn [length replicate run fold_left step]. fold (run (timeout w) (replicate (length rest) ev_timeout)).
    cbn [card_timers] in Hq. unfold timeout. rewrite Hq. cbn [run_task].
    set (w0 := with_timers _ _).
    assert (Hdom0 : dom (env w0) = dom (env w)) by (destruct w as [? []]; reflexivity).
    assert (Hgl0 : webgl (env w0) = true) by (destruct w as [? []]; exact Hgl).
    assert (Hcon0 : console (env w0) = console (env w)) by (destruct w as [? []]; reflexivity).
    assert (Hq0 : timers w0 = card_timers t0 (index + 1) rest) by reflexivity.
    assert (Hheap0 : heap w0 = heap w) by reflexivity.
    assert (Han0 : animators w0 = animators w) by reflexivity.
    clearbody w0.
    apply NoDup_cons in Hnd as [Hc Hnd]. cbn [fmap list_fmap] in *.
    destruct (decide (config_id c ∈ dom (env w))) as [Hin|Hout].
    + destruct (initCard_present c w0)
        as (a & objs & Hh & Hb & Hcv & Ho & Hl & Hplay & Han & Hp & Ht);
        [ rewrite Hdom0; exact Hin | exact Hgl0 | ].
      destruct Hp as (Hd1 & Hw1 & Hc1).
      rewrite Map_set_fresh in Han
        by (rewrite Han0; apply Hfresh; left).
      destruct (IH (initCard c w0) t0 (index + 1)%Z) as (Rt & Ra & Rc & Rd & [more Rh] & Rb).
      * rewrite Ht. exact Hq0.
      * rewrite Hw1. exact Hgl0.
      * exact Hnd.
      * intros c' Hc'. rewrite Han, fmap_app. cbn. intros Hk.
        apply elem_of_app in Hk as [Hk|Hk].
        -- rewrite Han0 in Hk. revert Hk. apply Hfresh. right. exact Hc'.
        -- apply list_elem_of_singleton in Hk. apply Hc. rewrite <- Hk.
           apply list_elem_of_fmap. exists c'. split; [ reflexivity | exact Hc' ].
      * cbn zeta in *. split; [ exact Rt | ]. split; [ | split; [ | split; [ | split ] ] ].
        -- rewrite Ra, Han, Han0, fmap_app, Hd1, Hdom0. cbn [fmap list_fmap].
           rewrite filter_cons_True by exact Hin. cbn. rewrite <- app_assoc. reflexivity.
        -- rewrite Rc, Hc1, Hcon0, Hd1, Hdom0.
           rewrite filter_cons_False by (intros H; exact (H Hin)). reflexivity.
        -- rewrite Rd, Hd1, Hdom0. reflexivity.
        -- exists ([a] ++ more). rewrite Rh, Hh, Hheap0, <- app_assoc. reflexivity.
        -- intros k r Hkr. destruct (Rb k r Hkr) as [Hold|Hnew]; [ | right; exact Hnew ].
           rewrite Han, Han0 in Hold. apply elem_of_app in Hold as [Hold|Hold];
             [ left; exact Hold | right ].
           apply list_elem_of_singleton in Hold. injection Hold as -> ->.
           exists a, objs. split; [ | auto ].
           rewrite Rh, Hh, lookup_app_l by (rewrite length_app; cbn; lia).
           rewrite lookup_app_r, Nat.sub_diag by lia. reflexivity.
    + destruct (initCard_missing c w0) as (Hh & Han & Hc1 & Hd1 & Hw1 & Ht);
        [ rewrite Hdom0; exact Hout | ].
      destruct (IH (initCard c w0) t0 (index + 1)%Z) as (Rt & Ra & Rc & Rd & [more Rh] & Rb).
      * rewrite Ht. exact Hq0.
      * rewrite Hw1. exact Hgl0.
      * exact Hnd.
      * intros c' Hc'. rewrite Han, Han0. apply Hfresh. right. exact Hc'.
      * cbn zeta in *. split; [ exact Rt | ]. split; [ | split; [ | split; [ | split ] ] ].
        -- rewrite Ra, Han, Han0, Hd1, Hdom0.
           rewrite filter_cons_False by exact Hout. reflexivity.
        -- rewrite Rc, Hc1, Hcon0, Hd1, Hdom0.
           rewrite filter_cons_True by exact Hout. cbn. rewrite <- app_assoc. reflexivity.
        -- rewrite Rd, Hd1, Hdom0. reflexivity.
        -- exists ([empty_object] ++ more). rewrite Rh, Hh, Hheap0, <- app_assoc. reflexivity.
        -- intros k r Hkr. destruct (Rb k r Hkr) as [Hold|Hnew]; [ | right; exact Hnew ].
           left. rewrite Han, Han0 in Hold. exact Hold.
Qed.

Lemma length_filter_partition (d : list string) (l : list string) :
  (length (filter (fun k => k ∈ d) l) + length (filter (fun k => k ∉ d) l))%nat = length l.
Proof.
  induction l as [|k l IH]; [ reflexivity | ].
  destruct (decide (k ∈ d)) as [Hin|Hout].
  - rewrite filter_cons_True, filter_cons_False by (auto; intros H; exact (H Hin)). cbn. lia.
  - rewrite filter_cons_False, filter_cons_True by auto. cbn. lia.
Qed.

(** C5. Pool initialization over the K configured cards, on a page where M of
    their canvases are missing (and a WebGL context can be created): once the
    staggered timers have fired, the registry has gained exactly the K-M cards
    whose canvas exists, in order, each a running binding on its canvas
    holding three objects; the console has gained exactly one warning per
    missing canvas; no timer is left, so nothing was aborted. *)
Theorem pool_init_skips_missing_targets (w : World) :
  timers w = [] → webgl (env w) = true →
  NoDup (config_id <$> cardConfigs w) →
  (∀ c, c ∈ cardConfigs w → config_id c ∉ (animators w).*1) →
  let ids := config_id <$> cardConfigs w in
  let present := filter (fun k => k ∈ dom (env w)) ids in
  let missing := filter (fun k => k ∉ dom (env w)) ids in
  let w' := run (initCardAnimations w) (replicate (length (cardConfigs w)) ev_timeout) in
  timers w' = [] ∧
  (animators w').*1 = (animators w).*1 ++ present ∧
  length (animators w') =
    (length (animators w) + (length (cardConfigs w) - length missing))%nat ∧
  console (env w') = console (env w) ++ (warn_canvas_not_found <$> missing) ∧
  ∀ k r, (k, r) ∈ animators w' →
    (k, r) ∈ animators w ∨
    ∃ a objs, heap w' !! r = Some a ∧ bound a ∧ canvas a = Some k ∧
              objects a = Some objs ∧ length objs = 3%nat ∧
              isPlaying a = Some true.
Proof.
  intros Hq Hgl Hnd Hfresh. cbn zeta. rewrite initCardAnimations_eq by exact Hq.
  set (w0 := with_timers _ w).
  destruct (run_card_timers (cardConfigs w) w0 (clock (env w)) 0%Z)
    as (Rt & Ra & Rc & Rd & _ & Rb); [ reflexivity | exact Hgl | exact Hnd | exact Hfresh | ].
  cbn zeta in *. change (env w0) with (env w) in *. change (animators w0) with (animators w) in *.
  split; [ exact Rt | ]. split; [ exact Ra | ]. split; [ | split; [ exact Rc | exact Rb ] ].
  apply (f_equal length) in Ra. rewrite length_app, !length_fmap in Ra. rewrite Ra.
  f_equal.
  pose proof (length_filter_partition (dom (env w)) (config_id <$> cardConfigs w)) as Hpart.
  rewrite length_fmap in Hpart. lia.
Qed.

(** *** Pool dispose *)

Lemma dispose_bound a h :
  bound a →
  (dispose {| this := a; host := h |}).2 = Normal tt ∧
  disposed_binding (this (dispose {| this := a; host := h |}).1) ∧
  same_page h (host (dispose {| this := a; host := h |}).1).
Proof.
  intros Hb. destruct (bound_fields a Hb) as (cv & sc & cam & r & objs & p & Hf).
  destruct Hf as (Hcv & Hsc & Hcam & Hr & Hobjs & Hp).
  rewrite (dispose_eq a h sc objs r) by assumption. cbn [fst snd this host].
  split; [ reflexivity | ]. split.
  - destruct a. unfold disposed_binding, bound in *. cbn in *.
    destruct Hb as (? & ? & ? & ? & ? & ? & ? & ?). repeat split; eauto.
  - destruct h. repeat split.
Qed.

Lemma call_dispose r w a :
  heap w !! r = Some a → bound a →
  (call r dispose w).2 = Some (Normal tt) ∧
  (∃ a', heap (call r dispose w).1 !! r = Some a' ∧ disposed_binding a') ∧
  timers (call r dispose w).1 = timers w ∧
  animators (call r dispose w).1 = animators w ∧
  same_page (env w) (env (call r dispose w).1) ∧
  length (heap (call r dispose w).1) = length (heap w).
Proof.
  intros Hr Hb. destruct (dispose_bound a (env w) Hb) as (Hc & Hd & Hp).
  destruct (call_heap_self r dispose w a Hr) as [Hr' He'].
  unfold call in *. rewrite Hr in *. destruct (dispose _) as [s c]. cbn in *.
  split; [ congruence | ]. split; [ eauto | ]. split; [ reflexivity | ].
  split; [ reflexivity | ]. split; [ exact Hp | apply length_insert ].
Qed.

Lemma forEach_dispose l :
  ∀ w,
    (∀ k r, (k, r) ∈ l → ∃ a, heap w !! r = Some a ∧ bound a) →
    let res := forEach_animator (fun _ => dispose) l w in
    res.2 = Normal tt ∧
    timers res.1 = timers w ∧
    animators res.1 = animators w ∧
    same_page (env w) (env res.1) ∧
    length (heap res.1) = length (heap w) ∧
    (∀ r, (∀ k, (k, r) ∉ l) → heap res.1 !! r = heap w !! r) ∧
    (∀ k r, (k, r) ∈ l → ∃ a', heap res.1 !! r = Some a' ∧ disposed_binding a').
Proof.
  induction l as [|[k0 r0] l IH]; intros w Hgood.
  - cbn. repeat split; auto. intros k r Hin. inversion Hin.
  - cbn [forEach_animator].
    destruct (Hgood k0 r0) as (a0 & Hr0 & Hb0); [ left | ].
    destruct (call_dispose r0 w a0 Hr0 Hb0) as (Hc & (a1 & Hr1 & Hd1) & Ht & Ha & Hp & Hl).
    pose proof (fun r Hne => call_heap_other r r0 dispose w Hne) as Hother.
    destruct (call r0 dispose w) as [w1 c1]. cbn [fst snd] in *. subst c1.
    assert (Hgood1 : ∀ k r, (k, r) ∈ l → ∃ a, heap w1 !! r = Some a ∧ bound a).
    { intros k r Hin. destruct (decide (r = r0)) as [->|Hne].
      - exists a1. split; [ exact Hr1 | apply Hd1 ].
      - rewrite Hother by exact Hne. apply (Hgood k). right. exact Hin. }
    destruct (IH w1 Hgood1) as (Rc & Rt & Ra & Rp & Rl & Rother & Rd).
    cbn zeta in *. split; [ exact Rc | ]. split; [ congruence | ].
    split; [ congruence | ]. split.
    { destruct Hp as (? & ? & ?), Rp as (? & ? & ?). repeat split; congruence. }
    split; [ congruence | ]. split.
    + intros r Hnot. rewrite Rother.
      * apply Hother. intros ->. apply (Hnot k0). left.
      * intros k Hin. apply (Hnot k). right. exact Hin.
    + intros k r Hin. apply elem_of_cons in Hin as [Heq|Hin]; [ | eauto ].
      injection Heq as -> ->.
      destruct (decide (r0 ∈ l.*2)) as [Hin'|Hnot].
      * apply list_elem_of_fmap in Hin' as ([k' r'] & -> & Hin'). eauto.
      * exists a1. split; [ | exact Hd1 ]. rewrite Rother; [ exact Hr1 | ].
        intros k' Hin'. apply Hnot. apply list_elem_of_fmap. exists (k', r0). auto.
Qed.

(** C2, as the code has it. Pool [dispose()] disposes every registered binding
    and leaves the registry empty, but it cancels no timer: a staggered
    creation that is still pending fires afterwards, and when its canvas
    exists it creates a running binding and registers it. *)
Theorem dispose_leaves_pending_creations (w : World) config (due : Z) q :
  registry_bound w →
  timers w = (due, task_card config) :: q →
  config_id config ∈ dom (env w) → webgl (env w) = true →
  let res := AnimationManager_dispose w in
  let w2 := step res.1 ev_timeout in
  res.2 = Normal tt ∧
  animators res.1 = [] ∧
  timers res.1 = timers w ∧
  (∀ k r, (k, r) ∈ animators w →
     ∃ a, heap res.1 !! r = Some a ∧ isPlaying a = Some false ∧ objects a = Some []) ∧
  ∃ a, animators w2 = [(config_id config, length (heap w))] ∧
       heap w2 !! length (heap w) = Some a ∧
       bound a ∧ canvas a = Some (config_id config) ∧ isPlaying a = Some true.
Proof.
  intros Hgood Hq Hin Hgl. cbn zeta. unfold AnimationManager_dispose.
  destruct (forEach_dispose (animators w) w Hgood) as (Rc & Rt & Ra & Rp & Rl & _ & Rd).
  destruct (forEach_animator _ _ _) as [w1 c1]. cbn [fst snd] in *. subst c1.
  destruct Rp as (Hd1 & Hw1 & Hc1).
  split; [ reflexivity | ]. split; [ reflexivity | ]. split; [ exact Rt | ]. split.
  { intros k r Hkr. destruct (Rd k r Hkr) as (a' & Ha' & _ & Hp' & Ho' & _). eauto. }
  cbn [step]. unfold timeout. cbn [fst timers with_animators]. rewrite Rt, Hq. cbn [run_task].
  set (w0 := with_timers _ _).
  destruct (initCard_present config w0)
    as (a & objs & Hh & Hb & Hcv & Ho & Hl & Hplay & Han & Hp & Ht).
  { subst w0. cbn. rewrite Hd1. exact Hin. }
  { subst w0. cbn. rewrite Hw1. exact Hgl. }
  exists a. rewrite Han, Hh. subst w0. cbn [heap animators with_timers with_env
    with_heap_env with_animators Map_set]. rewrite Rl.
  split; [ reflexivity | ]. split; [ | auto ].
  rewrite lookup_app_r, Rl, Nat.sub_diag by lia. reflexivity.
Qed.

(** ** A running binding keeps a frame request pending *)

Lemma Live_weaken r hp n cbs : Live None hp n cbs → Live (Some r) hp n cbs.
Proof.
  intros (HL & HK & HP). split; [ exact HL | ]. split; [ exact HK | ].
  intros r0 a Hr0 _. apply HP; [ exact Hr0 | discriminate ].
Qed.

Lemma Live_alloc hp n cbs : Live None hp n cbs → Live None (hp ++ [empty_object]) n cbs.
Proof.
  assert (Hcase : ∀ r a, (hp ++ [empty_object]) !! r = Some a →
            hp !! r = Some a ∨ a = empty_object).
  { intros r a Hr. apply lookup_app_Some in Hr as [Hr|[_ Hr]]; [ left; exact Hr | right ].
    apply list_lookup_singleton_Some in Hr as [_ <-]. reflexivity. }
  intros (HL & HK & HP). split; [ | split ].
  - intros r a id Hr Hid. destruct (Hcase r a Hr) as [Hr'| ->]; [ eauto | discriminate ].
  - intros id r' r a Hin Hr Hid. destruct (Hcase r a Hr) as [Hr'| ->]; [ eauto | discriminate ].
  - intros r a Hr Hex Hp. destruct (Hcase r a Hr) as [Hr'| ->]; [ eauto | discriminate ].
Qed.

Lemma Live_same hp n cbs r a a' :
  Live None hp n cbs → hp !! r = Some a →
  isPlaying a' = isPlaying a → animationId a' = animationId a →
  Live None (<[r:=a']> hp) n cbs.
Proof.
  intros (HL & HK & HP) Hr Hp Hid.
  assert (Hcase : ∀ r0 a0, <[r:=a']> hp !! r0 = Some a0 →
            ∃ a1, hp !! r0 = Some a1 ∧ isPlaying a0 = isPlaying a1 ∧
                  animationId a0 = animationId a1).
  { intros r0 a0 Hr0. destruct (decide (r = r0)) as [<-|Hne].
    - rewrite list_lookup_insert_eq in Hr0 by (eapply lookup_lt_Some; exact Hr).
      injection Hr0 as <-. eauto.
    - rewrite list_lookup_insert_ne in Hr0 by exact Hne. eauto. }
  split; [ | split ].
  - intros r0 a0 id Hr0 Hid0. destruct (Hcase r0 a0 Hr0) as (a1 & Hr1 & _ & E).
    rewrite E in Hid0. eauto.
  - intros id r' r0 a0 Hin Hr0 Hid0. destruct (Hcase r0 a0 Hr0) as (a1 & Hr1 & _ & E).
    rewrite E in Hid0. eauto.
  - intros r0 a0 Hr0 Hex Hp0. destruct (Hcase r0 a0 Hr0) as (a1 & Hr1 & E1 & E2).
    rewrite E1 in Hp0. rewrite E2. eauto.
Qed.

Lemma cancelled_subset id cbs cb : cb ∈ cancelled id cbs → cb ∈ cbs.
Proof.
  unfold cancelled. destruct (truthy_id id); [ | auto ].
  intros Hin. apply list_elem_of_filter in Hin. exact (proj2 Hin).
Qed.

Lemma cancelled_keeps id cbs cb : cb ∈ cbs → Some cb.1 ≠ id → cb ∈ cancelled id cbs.
Proof.
  intros Hin Hne. unfold cancelled. destruct (truthy_id id) eqn:Ht; [ | exact Hin ].
  apply list_elem_of_filter. split; [ | exact Hin ].
  destruct id as [id|]; [ | discriminate ]. cbn. congruence.
Qed.

Lemma Live_paused hp n cbs r a a' :
  Live None hp n cbs → hp !! r = Some a →
  isPlaying a' = Some false → animationId a' = animationId a →
  Live None (<[r:=a']> hp) n (cancelled (animationId a) cbs).
Proof.
  intros (HL & HK & HP) Hr Hp Hid.
  assert (Hlt : (r < length hp)%nat) by (eapply lookup_lt_Some; exact Hr).
  split; [ | split ].
  - intros r0 a0 id Hr0 Hid0. destruct (decide (r = r0)) as [<-|Hne].
    + rewrite list_lookup_insert_eq in Hr0 by exact Hlt. injection Hr0 as <-.
      rewrite Hid in Hid0. eauto.
    + rewrite list_lookup_insert_ne in Hr0 by exact Hne. eauto.
  - intros id r' r0 a0 Hin Hr0 Hid0. apply cancelled_subset in Hin.
    destruct (decide (r = r0)) as [<-|Hne].
    + rewrite list_lookup_insert_eq in Hr0 by exact Hlt. injection Hr0 as <-.
      rewrite Hid in Hid0. eauto.
    + rewrite list_lookup_insert_ne in Hr0 by exact Hne. eauto.
  - intros r0 a0 Hr0 _ Hp0. destruct (decide (r = r0)) as [<-|Hne].
    + rewrite list_lookup_insert_eq in Hr0 by exact Hlt. injection Hr0 as <-.
      rewrite Hp in Hp0. discriminate.
    + rewrite list_lookup_insert_ne in Hr0 by exact Hne.
      destruct (HP r0 a0 Hr0) as (id0 & Hid0 & Hin0); [ discriminate | exact Hp0 | ].
      exists id0. split; [ exact Hid0 | ]. apply cancelled_keeps; [ exact Hin0 | ].
      cbn. intros E. apply Hne. eapply HK; [ exact Hin0 | exact Hr | ]. congruence.
Qed.

Lemma Live_started hp n cbs r a a' :
  Inv hp n cbs → Live (Some r) hp n cbs → hp !! r = Some a →
  isPlaying a' = Some true → animationId a' = Some (S n) →
  Live None (<[r:=a']> hp) (S n) (cbs ++ [(S n, r)]).
Proof.
  intros [_ Hcb] (HL & HK & HP) Hr Hp Hid.
  assert (Hlt : (r < length hp)%nat) by (eapply lookup_lt_Some; exact Hr).
  split; [ | split ].
  - intros r0 a0 id Hr0 Hid0. destruct (decide (r = r0)) as [<-|Hne].
    + rewrite list_lookup_insert_eq in Hr0 by exact Hlt. injection Hr0 as <-.
      rewrite Hid in Hid0. injection Hid0 as <-. lia.
    + rewrite list_lookup_insert_ne in Hr0 by exact Hne.
      pose proof (HL r0 a0 id Hr0 Hid0). lia.
  - intros id r' r0 a0 Hin Hr0 Hid0. apply elem_of_app in Hin as [Hin|Hin].
    + destruct (Hcb _ _ Hin) as [Hb _]. destruct (decide (r = r0)) as [<-|Hne].
      * rewrite list_lookup_insert_eq in Hr0 by exact Hlt. injection Hr0 as <-.
        rewrite Hid in Hid0. injection Hid0 as <-. lia.
      * rewrite list_lookup_insert_ne in Hr0 by exact Hne. eauto.
    + apply list_elem_of_singleton in Hin. injection Hin as -> ->.
      destruct (decide (r = r0)) as [<-|Hne]; [ reflexivity | ].
      rewrite list_lookup_insert_ne in Hr0 by exact Hne.
      pose proof (HL r0 a0 _ Hr0 Hid0). lia.
  - intros r0 a0 Hr0 _ Hp0. destruct (decide (r = r0)) as [<-|Hne].
    + rewrite list_lookup_insert_eq in Hr0 by exact Hlt. injection Hr0 as <-.
      exists (S n). split; [ exact Hid | ]. apply elem_of_app. right. left.
    + rewrite list_lookup_insert_ne in Hr0 by exact Hne.
      destruct (HP r0 a0 Hr0) as (id0 & Hid0 & Hin0); [ congruence | exact Hp0 | ].
      exists id0. split; [ exact Hid0 | ]. apply elem_of_app. left. exact Hin0.
Qed.

Lemma Live_vstep hp n cbs r a a' n' cbs' :
  Inv hp n cbs → Live None hp n cbs → hp !! r = Some a →
  vstep r (n, cbs, isPlaying a, animationId a) (n', cbs', isPlaying a', animationId a') →
  Live None (<[r:=a']> hp) n' cbs'.
Proof.
  intros HI HL Hr Hv. inversion Hv; subst.
  - eapply Live_same; eauto.
  - eapply Live_paused; eauto.
  - eapply Live_started; eauto. apply Live_weaken, HL.
Qed.

Lemma call_WLive {A} r (m : M A) w :
  (∀ s, vstep r (rafview s) (rafview (m s).1)) → WLive w → WLive (call r m w).1.
Proof.
  intros Hm [HI HL]. split; [ apply call_WInv; assumption | ].
  unfold call. destruct (heap w !! r) as [a|] eqn:Hr; [ | exact HL ].
  specialize (Hm {| this := a; host := env w |}).
  destruct (m _) as [s c]. cbn in *. eapply Live_vstep; eauto.
Qed.

Lemma new_WLive {A} (body : nat → M A) w :
  (∀ h, vstep (length (heap w)) (rafview {| this := empty_object; host := h |})
          (rafview (body (length (heap w)) {| this := empty_object; host := h |}).1)) →
  WLive w → WLive (new body w).1.1.
Proof.
  intros Hm [HI HL]. split; [ apply new_WInv; assumption | ].
  unfold new. specialize (Hm (env w)).
  destruct (body _ _) as [s c]. cbn in *.
  replace (heap w ++ [this s]) with (<[length (heap w) := this s]> (heap w ++ [empty_object])).
  - eapply Live_vstep; [ apply Inv_alloc, HI | apply Live_alloc, HL | | exact Hm ].
    rewrite lookup_app_r, Nat.sub_diag by lia. reflexivity.
  - rewrite insert_app_r_alt, Nat.sub_diag by lia. reflexivity.
Qed.

Lemma dispatch_WLive handler listeners w :
  (∀ r s, vstep r (rafview s) (rafview (handler r s).1)) →
  WLive w → WLive (dispatch handler listeners w).
Proof.
  intros Hh. revert w. induction listeners as [|r rest IH]; intros w HI; cbn [dispatch].
  - exact HI.
  - apply IH, call_WLive; auto.
Qed.

Lemma forEach_animator_WLive m l w :
  (∀ r s, vstep r (rafview s) (rafview (m r s).1)) →
  WLive w → WLive (forEach_animator m l w).1.
Proof.
  intros Hm. revert w. induction l as [|[k r] l IH]; intros w HI; cbn [forEach_animator].
  - exact HI.
  - pose proof (call_WLive r (m r) w (Hm r) HI) as HI'.
    destruct (call r (m r) w) as [w' [[v|e]|]]; cbn in *; auto.
Qed.

Lemma initCard_WLive config w : WLive w → WLive (initCard config w).
Proof.
  intros HI. unfold initCard.
  pose proof (new_WLive (card_body config) w (card_body_vstep config _) HI) as HI'.
  destruct (new (card_body config) w) as [[w1 r] [[|]|e]]; exact HI'.
Qed.

Lemma stagger_heap_env configs index w :
  heap (stagger configs index w) = heap w ∧ env (stagger configs index w) = env w.
Proof.
  revert index w. induction configs as [|c rest IH]; intros index w; cbn [stagger].
  - split; reflexivity.
  - destruct (IH (index + 1)%Z (setTimeout (task_card c) (index * 50) w)) as [-> ->].
    split; reflexivity.
Qed.

Lemma timeout_WLive w : WLive w → WLive (timeout w).
Proof.
  intros HI. unfold timeout. destruct (timers w) as [|[due [|config]] q]; [ exact HI | | ].
  - cbn [run_task]. unfold initCardAnimations, WLive, WInv.
    rewrite !(proj1 (stagger_heap_env _ _ _)), !(proj2 (stagger_heap_env _ _ _)). exact HI.
  - apply initCard_WLive. exact HI.
Qed.

Lemma frame_WLive handle w : WLive w → WLive (frame handle w).
Proof.
  intros [HI HL]. split; [ apply frame_WInv, HI | ]. unfold frame.
  destruct (list_find _ _) as [[i [id r]]|] eqn:Hfind; [ | exact HL ].
  apply list_find_Some in Hfind as (Hi & Hid & _). cbn in Hid. subst id.
  assert (Hin : (handle, r) ∈ raf_callbacks (env w)).
  { apply list_elem_of_lookup. eauto. }
  destruct (proj2 HI _ _ Hin) as (Hb & a & Hr & Hp & Ha).
  set (w1 := with_env _ w).
  assert (HI1 : WInv w1) by (apply Inv_remove, HI).
  assert (HL1 : Live (Some r) (heap w) (raf_id (env w))
                  (filter (fun cb => cb.1 ≠ handle) (raf_callbacks (env w)))).
  { destruct HL as (HL & HK & HP). split; [ exact HL | ]. split.
    - intros id r' r0 a0 Hin0. apply list_elem_of_filter in Hin0 as [_ Hin0]. eauto.
    - intros r0 a0 Hr0 Hex Hp0.
      destruct (HP r0 a0 Hr0) as (id0 & Hid0 & Hin0); [ discriminate | exact Hp0 | ].
      exists id0. split; [ exact Hid0 | ]. apply list_elem_of_filter. split; [ | exact Hin0 ].
      cbn. intros ->. apply Hex. f_equal. eapply HK; eauto. }
  unfold call. change (heap w1) with (heap w). rewrite Hr.
  pose proof (animate_view r {| this := a; host := env w1 |}) as Hv.
  destruct (animate r _) as [s c]. cbn in *. rewrite Hp in Hv. cbn in Hv.
  injection Hv as Hn Hc Hp' Ha'. rewrite Hn, Hc.
  eapply Live_started; [ exact HI1 | exact HL1 | exact Hr | congruence | exact Ha' ].
Qed.

Lemma step_WLive w e : WLive w → WLive (step w e).
Proof.
  intros HI. destruct e; cbn [step].
  - apply new_WLive; [ intros; apply constructor_vstep | exact HI ].
  - apply new_WLive; [ intros; apply HeroAnimator_constructor_vstep | exact HI ].
  - apply call_WLive; [ intros; apply method_vstep | exact HI ].
  - apply frame_WLive, HI.
  - apply dispatch_WLive; [ intros; apply on_visibilitychange_vstep | exact HI ].
  - apply dispatch_WLive; [ intros; apply on_intersection_vstep | exact HI ].
  - exact HI.
  - apply timeout_WLive, HI.
  - unfold init, initHeroAnimation.
    pose proof (new_WLive HeroAnimator_constructor w (HeroAnimator_constructor_vstep _) HI)
      as HI'.
    destruct (new HeroAnimator_constructor w) as [[w1 r] [v|e]]; exact HI'.
  - apply forEach_animator_WLive; [ intros; apply pause_vstep | exact HI ].
  - apply forEach_animator_WLive; [ intros; apply play_vstep | exact HI ].
  - unfold AnimationManager_dispose.
    pose proof (forEach_animator_WLive (fun _ => dispose) (animators w) w
                  (fun r s => dispose_vstep r s) HI) as HI'.
    destruct (forEach_animator _ _ _) as [w' [v|e]]; exact HI'.
Qed.

Lemma run_WLive es w : WLive w → WLive (run w es).
Proof.
  revert w. induction es as [|e es IH]; intros w HI; cbn; [ exact HI | ].
  apply IH, step_WLive, HI.
Qed.

Lemma page_WLive d gl : WLive (page d gl).
Proof.
  split; [ apply page_WInv | ]. split; [ | split ].
  - intros r a id Hr. cbn in Hr. rewrite lookup_nil in Hr. discriminate.
  - intros id r' r a Hin. cbn in Hin. inversion Hin.
  - intros r a Hr. cbn in Hr. rewrite lookup_nil in Hr. discriminate.
Qed.

Lemma WLive_outstanding w r :
  WLive w →
  match heap w !! r with
  | Some a =>
    if truthy_flag (isPlaying a)
    then ∃ id, animationId a = Some id ∧ outstanding r w = [(id, r)]
    else outstanding r w = []
  | None => outstanding r w = []
  end.
Proof.
  intros [HI (_ & _ & HP)].
  destruct (outstanding_at_most_one r _ HI) as [Hone Hnone].
  destruct (heap _ !! r) as [a|] eqn:Hr.
  - destruct (truthy_flag (isPlaying a)) eqn:Hp; [ | eapply Hnone; eauto ].
    destruct (HP r a Hr) as (id & Hid & Hin); [ discriminate | exact Hp | ].
    exists id. split; [ exact Hid | ].
    assert (Hin' : (id, r) ∈ outstanding r w).
    { apply list_elem_of_filter. split; [ reflexivity | exact Hin ]. }
    destruct (outstanding r _) as [|x [|y l]]; cbn in Hone; [ inversion Hin' | | lia ].
    apply list_elem_of_singleton in Hin'. congruence.
  - destruct (outstanding r _) as [|[id r'] l] eqn:Hout; [ reflexivity | exfalso ].
    assert (Hin : (id, r') ∈ outstanding r w) by (rewrite Hout; left).
    apply list_elem_of_filter in Hin as [Hr' Hin]. cbn in Hr'. subst r'.
    destruct (proj2 HI _ _ Hin) as (_ & a & Ha & _). congruence.
Qed.

(** X1. In every state the page can reach, an animator whose play flag is
    true has exactly one frame request outstanding, and it is the one whose
    handle [animationId] holds: the loop of a running binding never stalls and
    [pause()] would cancel the right request. *)
Theorem running_binding_has_frame_request d gl (es : list Event) (r : nat) :
  let w := run (page d gl) es in
  match heap w !! r with
  | Some a =>
    if truthy_flag (isPlaying a)
    then ∃ id, animationId a = Some id ∧ outstanding r w = [(id, r)]
    else outstanding r w = []
  | None => outstanding r w = []
  end.
Proof. cbn zeta. apply WLive_outstanding, run_WLive, page_WLive. Qed.

(** ** Well-formed bindings and the registry *)

Lemma wf_fields a :
  wf_binding a →
  ∃ cv cam r objs p c1 c2,
    a = {| canvas := Some cv;
           scene := Some (lights ++ (MeshNode ∘ uid <$> objs));
           camera := Some cam; renderer := Some r;
           color1 := Some c1; color2 := Some c2;
           objects := Some objs; animationId := animationId a;
           isPlaying := Some p |} ∧
    vz cam = 5 ∧ Forall anchored objs.
Proof.
  intros (Hb & (objs & Hobjs & Hsc & Hanch) & Hcam).
  destruct Hb as ([cv Hcv] & _ & [cam Hc] & [r Hr] & _ & [p Hp] & [c1 Hc1] & [c2 Hc2]).
  exists cv, cam, r, objs, p, c1, c2. destruct a. cbn in *. subst.
  injection Hcam as Hcam. repeat split; assumption.
Qed.

Lemma wf_intro cv cam r objs p c1 c2 id :
  vz cam = 5 → Forall anchored objs →
  wf_binding {| canvas := Some cv;
                scene := Some (lights ++ (MeshNode ∘ uid <$> objs));
                camera := Some cam; renderer := Some r;
                color1 := Some c1; color2 := Some c2;
                objects := Some objs; animationId := id;
                isPlaying := Some p |}.
Proof.
  intros Hcam Hanch. split; [ repeat split; eexists; reflexivity | ]. split.
  - exists objs. split; [ reflexivity | ]. split; [ reflexivity | exact Hanch ].
  - cbn. rewrite Hcam. reflexivity.
Qed.

Lemma wf_bound a : wf_binding a → bound a.
Proof. intros [Hb _]. exact Hb. Qed.

Lemma wf_renderer a : wf_binding a → renderer a = None → False.
Proof. intros (Hb & _) Hr. destruct Hb as (_ & _ & _ & [r Hr'] & _). congruence. Qed.

Lemma animate_object_uid time objs :
  MeshNode ∘ uid <$> imap (animate_object time) objs = MeshNode ∘ uid <$> objs.
Proof.
  rewrite fmap_imap, <- imap_const. apply imap_ext. intros i m _. reflexivity.
Qed.

Lemma animate_object_anchored time objs :
  Forall anchored objs → Forall anchored (imap (animate_object time) objs).
Proof.
  intros Hall. apply Forall_lookup. intros i m Hi.
  rewrite list_lookup_imap in Hi. destruct (objs !! i) as [m0|] eqn:Hm0; [ | discriminate ].
  injection Hi as <-. exact (proj1 (Forall_lookup _ _) Hall i m0 Hm0).
Qed.

Lemma filter_all {A} (P : A → Prop) `{!∀ x, Decision (P x)} (l : list A) :
  (∀ x, x ∈ l → P x) → filter P l = l.
Proof.
  induction l as [|x l IH]; intros Hl; [ reflexivity | ].
  rewrite filter_cons_True by (apply Hl; left). f_equal. apply IH.
  intros y Hy. apply Hl. right. exact Hy.
Qed.

Lemma filter_none {A} (P : A → Prop) `{!∀ x, Decision (P x)} (l : list A) :
  (∀ x, x ∈ l → ¬ P x) → filter P l = [].
Proof.
  induction l as [|x l IH]; intros Hl; [ reflexivity | ].
  rewrite filter_cons_False by (apply Hl; left). apply IH.
  intros y Hy. apply Hl. right. exact Hy.
Qed.

Lemma scene_without_filter objs sc :
  scene_without objs sc = filter (fun n => n ∉ (MeshNode ∘ uid <$> objs)) sc.
Proof.
  unfold scene_without. revert sc. induction objs as [|obj objs IH]; intros sc.
  - cbn. symmetry. apply filter_all. intros n _ Hin. inversion Hin.
  - cbn [foldl]. rewrite IH, list_filter_filter.
    apply list_filter_iff. intros n. cbn. rewrite not_elem_of_cons. split.
    + intros [H1 H2]. split; assumption.
    + intros [H1 H2]. split; assumption.
Qed.

Lemma scene_without_lights objs :
  scene_without objs (lights ++ (MeshNode ∘ uid <$> objs)) = lights.
Proof.
  rewrite scene_without_filter, filter_app, filter_all, filter_none.
  - apply app_nil_r.
  - intros n Hin Hnot. exact (Hnot Hin).
  - intros n Hin Hn. apply list_elem_of_fmap in Hn as (m & -> & _).
    unfold lights in Hin. cbn in Hin.
    repeat (apply elem_of_cons in Hin as [Hin|Hin]; [ discriminate | ]). inversion Hin.
Qed.

(** *** Methods on an animator without renderer *)

Lemma stays_unbound_ret {A} (v : A) : stays_unbound (mret v).
Proof. intros s Hs. exact Hs. Qed.

Lemma stays_unbound_bind {A B} (m : M A) (k : A → M B) :
  stays_unbound m → (∀ v, stays_unbound (k v)) → stays_unbound (m ≫= k).
Proof.
  intros Hm Hk s Hs. unfold mbind, M_bind. specialize (Hm s Hs).
  destruct (m s) as [s' [v|e]]; cbn in *; [ | exact Hm ]. apply Hk, Hm.
Qed.

Lemma stays_unbound_repeat_M n body : stays_unbound body → stays_unbound (repeat_M n body).
Proof.
  intros Hb. induction n as [|n IH]; cbn [repeat_M].
  - apply stays_unbound_ret.
  - apply stays_unbound_bind; auto.
Qed.

Lemma stays_unbound_forEach {A} (f : A → M unit) l :
  (∀ v, stays_unbound (f v)) → stays_unbound (forEach f l).
Proof.
  intros Hf. induction l as [|v l IH]; cbn [forEach].
  - apply stays_unbound_ret.
  - apply stays_unbound_bind; auto.
Qed.

Lemma stays_unbound_Math_random : stays_unbound Math_random.
Proof. intros s Hs. exact Hs. Qed.

Lemma stays_unbound_createFloatingGeometry type options :
  stays_unbound (createFloatingGeometry type options).
Proof.
  intros s. destruct_state s. cbn. intros ->. unfold createFloatingGeometry.
  destruct scene0, objects0; exec; reflexivity.
Qed.

Lemma stays_unbound_random_object (types : list string) (f : Q → Q) :
  stays_unbound (r ← Math_random;
                 s ← Math_random;
                 createFloatingGeometry (pick types r)
                   {| opt_size := Some (f s); opt_segments := None; opt_detail := None |};;
                 mret tt).
Proof.
  apply stays_unbound_bind; [ apply stays_unbound_Math_random | intros r ].
  apply stays_unbound_bind; [ apply stays_unbound_Math_random | intros r' ].
  apply stays_unbound_bind; [ apply stays_unbound_createFloatingGeometry | ].
  intros; apply stays_unbound_ret.
Qed.

Lemma stays_unbound_addRandomObjects count : stays_unbound (addRandomObjects count).
Proof.
  apply stays_unbound_repeat_M, (stays_unbound_random_object _ (fun s => s * 0.5 + 0.5)).
Qed.

Lemma stays_unbound_createHeroScene : stays_unbound createHeroScene.
Proof.
  apply stays_unbound_bind; [ | intros _ ]; apply stays_unbound_repeat_M.
  - apply (stays_unbound_random_object _ (fun s => s * 0.8 + 0.4)).
  - apply stays_unbound_bind; [ apply stays_unbound_Math_random | intros r' ].
    apply stays_unbound_bind; [ apply stays_unbound_createFloatingGeometry | ].
    intros; apply stays_unbound_ret.
Qed.

Lemma stays_unbound_pause : stays_unbound pause.
Proof. intros [a h] Hs. rewrite pause_eq. destruct a. exact Hs. Qed.

Lemma stays_unbound_animate self : stays_unbound (animate self).
Proof.
  intros s. destruct_state s. cbn. intros ->. unfold animate. exec.
  destruct (truthy_flag _); [ | reflexivity ].
  destruct objects0, camera0; exec; reflexivity.
Qed.

Lemma stays_unbound_play self : stays_unbound (play self).
Proof.
  intros s Hs. rewrite play_eq. destruct (truthy_flag _); [ exact Hs | ].
  apply stays_unbound_animate. destruct s as [[] ?]. exact Hs.
Qed.

Lemma stays_unbound_dispose : stays_unbound dispose.
Proof.
  unfold dispose. apply stays_unbound_bind; [ apply stays_unbound_pause | intros _ ].
  apply stays_unbound_bind.
  { intros s. destruct_state s. cbn. intros ->. destruct objects0; reflexivity. }
  intros objs. apply stays_unbound_bind.
  { apply stays_unbound_forEach. intros obj s. destruct_state s. cbn. intros ->.
    unfold dispose_object. destruct scene0; exec; reflexivity. }
  intros _ s. destruct_state s. cbn. intros ->. reflexivity.
Qed.

Lemma stays_unbound_method m self : stays_unbound (method m self).
Proof.
  destruct m; cbn [method].
  - apply stays_unbound_bind; [ apply stays_unbound_createFloatingGeometry | ].
    intros; apply stays_unbound_ret.
  - apply stays_unbound_addRandomObjects.
  - apply stays_unbound_play.
  - apply stays_unbound_pause.
  - apply stays_unbound_dispose.
Qed.

Lemma stays_unbound_on_visibilitychange self : stays_unbound (on_visibilitychange self).
Proof.
  intros s. unfold on_visibilitychange, mbind, M_bind, get_host.
  destruct (hidden (host s)); [ apply stays_unbound_pause | apply stays_unbound_play ].
Qed.

Lemma stays_unbound_on_intersection self target b :
  stays_unbound (on_intersection self target b).
Proof.
  intros s. unfold on_intersection, mbind, M_bind, get_this.
  destruct (bool_decide _); [ | exact (fun H => H) ].
  destruct b; [ apply stays_unbound_play | apply stays_unbound_pause ].
Qed.

(** *** Methods on a well-formed binding *)

Lemma stays_wf_ret {A} (v : A) : stays_wf (mret v).
Proof. intros s Hs. split; [ exact Hs | ]. split; [ reflexivity | ]. exists v. reflexivity. Qed.

Lemma stays_wf_bind {A B} (m : M A) (k : A → M B) :
  stays_wf m → (∀ v, stays_wf (k v)) → stays_wf (m ≫= k).
Proof.
  intros Hm Hk s Hs. unfold mbind, M_bind. destruct (Hm s Hs) as (Hw & Hc & v & Hv).
  destruct (m s) as [s' c]. cbn in *. subst c.
  destruct (Hk v s' Hw) as (Hw' & Hc' & v' & Hv'). split; [ exact Hw' | ].
  split; [ congruence | ]. exists v'. exact Hv'.
Qed.

Lemma stays_wf_repeat_M n body : stays_wf body → stays_wf (repeat_M n body).
Proof.
  intros Hb. induction n as [|n IH]; cbn [repeat_M].
  - apply stays_wf_ret.
  - apply stays_wf_bind; auto.
Qed.

Lemma stays_wf_Math_random : stays_wf Math_random.
Proof.
  intros s Hs. split; [ exact Hs | ]. split; [ reflexivity | ]. eexists. reflexivity.
Qed.

Lemma created_mesh_anchored a h type options : anchored (created_mesh a h type options).
Proof. split; reflexivity. Qed.

Lemma stays_wf_createFloatingGeometry type options :
  stays_wf (createFloatingGeometry type options).
Proof.
  intros [a h] Hs. cbn [this] in Hs.
  destruct (wf_fields a Hs) as (cv & cam & r & objs & p & c1 & c2 & Ha & Hcam & Hanch).
  rewrite (createFloatingGeometry_eq a h type options
             (lights ++ (MeshNode ∘ uid <$> objs)) objs)
    by (rewrite Ha; reflexivity).
  cbn [fst snd this]. split; [ | split; [ destruct a; reflexivity | eexists; reflexivity ] ].
  rewrite Ha at 2. cbn [with_objects with_scene canvas scene camera renderer color1 color2
    objects animationId isPlaying].
  rewrite <- app_assoc.
  change (MeshNode ∘ uid <$> objs) with (MeshNode ∘ uid <$> objs).
  replace ((MeshNode ∘ uid <$> objs) ++ [MeshNode (uids h)])
    with (MeshNode ∘ uid <$> (objs ++ [created_mesh a h type options]))
    by (rewrite fmap_app; reflexivity).
  apply wf_intro; [ exact Hcam | ].
  apply Forall_app. split; [ exact Hanch | ]. constructor; [ | constructor ].
  apply created_mesh_anchored.
Qed.

Lemma stays_wf_random_object (types : list string) (f : Q → Q) :
  stays_wf (r ← Math_random;
            s ← Math_random;
            createFloatingGeometry (pick types r)
              {| opt_size := Some (f s); opt_segments := None; opt_detail := None |};;
            mret tt).
Proof.
  apply stays_wf_bind; [ apply stays_wf_Math_random | intros r ].
  apply stays_wf_bind; [ apply stays_wf_Math_random | intros r' ].
  apply stays_wf_bind; [ apply stays_wf_createFloatingGeometry | ].
  intros; apply stays_wf_ret.
Qed.

Lemma stays_wf_addRandomObjects count : stays_wf (addRandomObjects count).
Proof. apply stays_wf_repeat_M, (stays_wf_random_object _ (fun s => s * 0.5 + 0.5)). Qed.

Lemma stays_wf_createHeroScene : stays_wf createHeroScene.
Proof.
  apply stays_wf_bind; [ | intros _ ]; apply stays_wf_repeat_M.
  - apply (stays_wf_random_object _ (fun s => s * 0.8 + 0.4)).
  - apply stays_wf_bind; [ apply stays_wf_Math_random | intros r' ].
    apply stays_wf_bind; [ apply stays_wf_createFloatingGeometry | ].
    intros; apply stays_wf_ret.
Qed.

Lemma stays_wf_pause : stays_wf pause.
Proof.
  intros [a h] Hs. cbn [this] in Hs. rewrite pause_eq. cbn [fst snd this].
  destruct (wf_fields a Hs) as (cv & cam & r & objs & p & c1 & c2 & Ha & Hcam & Hanch).
  split; [ | split; [ destruct a; reflexivity | eexists; reflexivity ] ].
  rewrite Ha. apply wf_intro; assumption.
Qed.

Lemma animate_idle self s :
  truthy_flag (isPlaying (this s)) = false → animate self s = (s, Normal tt).
Proof.
  intros Hp. unfold animate, mbind, M_bind, get_this. rewrite Hp. reflexivity.
Qed.

Lemma stays_wf_animate self : stays_wf (animate self).
Proof.
  intros [a h] Hs. cbn [this] in Hs.
  destruct (wf_fields a Hs) as (cv & cam & r & objs & p & c1 & c2 & Ha & Hcam & Hanch).
  destruct p.
  - rewrite (animate_eq self a h objs cam r) by (rewrite Ha; reflexivity).
    cbn [fst snd this]. split; [ | split; [ destruct a; reflexivity | eexists; reflexivity ] ].
    rewrite Ha. cbn [with_renderer with_camera with_objects with_animationId canvas scene
      camera renderer color1 color2 objects animationId isPlaying].
    rewrite <- (animate_object_uid (inject_Z (clock h) * 0.001) objs).
    apply wf_intro; [ exact Hcam | apply animate_object_anchored, Hanch ].
  - rewrite animate_idle by (rewrite Ha; reflexivity).
    split; [ exact Hs | ]. split; [ reflexivity | eexists; reflexivity ].
Qed.

Lemma stays_wf_play self : stays_wf (play self).
Proof.
  intros s Hs. rewrite play_eq. destruct (truthy_flag _).
  - split; [ exact Hs | ]. split; [ reflexivity | eexists; reflexivity ].
  - destruct s as [a h]. cbn [this host] in *.
    destruct (wf_fields a Hs) as (cv & cam & r & objs & p & c1 & c2 & Ha & Hcam & Hanch).
    destruct (stays_wf_animate self {| this := with_isPlaying (Some true) a; host := h |})
      as (Hw & Hc & Hv).
    + rewrite Ha. apply wf_intro; assumption.
    + split; [ exact Hw | ]. split; [ | exact Hv ]. rewrite Hc. destruct a; reflexivity.
Qed.

Lemma stays_wf_dispose : stays_wf dispose.
Proof.
  intros [a h] Hs. cbn [this] in Hs.
  destruct (wf_fields a Hs) as (cv & cam & r & objs & p & c1 & c2 & Ha & Hcam & Hanch).
  rewrite (dispose_eq a h (lights ++ (MeshNode ∘ uid <$> objs)) objs r)
    by (rewrite Ha; reflexivity).
  cbn [fst snd this]. split; [ | split; [ destruct a; reflexivity | eexists; reflexivity ] ].
  rewrite Ha. cbn [with_renderer with_scene with_objects with_isPlaying canvas scene
    camera renderer color1 color2 objects animationId isPlaying].
  rewrite scene_without_lights.
  change lights with (lights ++ (MeshNode ∘ uid <$> [])) at 1.
  apply wf_intro; [ exact Hcam | constructor ].
Qed.

Lemma stays_wf_method m self : stays_wf (method m self).
Proof.
  destruct m; cbn [method].
  - apply stays_wf_bind; [ apply stays_wf_createFloatingGeometry | ].
    intros; apply stays_wf_ret.
  - apply stays_wf_addRandomObjects.
  - apply stays_wf_play.
  - apply stays_wf_pause.
  - apply stays_wf_dispose.
Qed.

Lemma stays_wf_on_visibilitychange self : stays_wf (on_visibilitychange self).
Proof.
  intros s. unfold on_visibilitychange, mbind, M_bind, get_host.
  destruct (hidden (host s)); [ apply stays_wf_pause | apply stays_wf_play ].
Qed.

Lemma stays_wf_on_intersection self target b : stays_wf (on_intersection self target b).
Proof.
  intros s. unfold on_intersection, mbind, M_bind, get_this.
  destruct (bool_decide _); [ | apply (stays_wf_ret tt) ].
  destruct b; [ apply stays_wf_play | apply stays_wf_pause ].
Qed.

(** *** What the constructors leave *)

Lemma constructed_wf self canvasId c1 c2 h : wf_binding (constructed self canvasId c1 c2 h).
Proof.
  unfold constructed. change [AmbientLight; DirectionalLight; PointLight]
    with (lights ++ (MeshNode ∘ uid <$> [])).
  apply wf_intro; [ reflexivity | constructor ].
Qed.

Lemma random_object_throws (types : list string) (f : Q → Q) s :
  scene (this s) = None →
  ((r ← Math_random;
    s ← Math_random;
    createFloatingGeometry (pick types r)
      {| opt_size := Some (f s); opt_segments := None; opt_detail := None |};;
    mret tt) s).2 = Throw (TypeError "scene").
Proof.
  destruct_state s. cbn. intros ->. unfold createFloatingGeometry. exec. reflexivity.
Qed.

Lemma bind_throw {A B} (m : M A) (k : A → M B) s e :
  (m s).2 = Throw e → ((m ≫= k) s).2 = Throw e.
Proof.
  intros H. unfold mbind, M_bind. destruct (m s) as [s' c]. cbn in *. subst c. reflexivity.
Qed.

Lemma createHeroScene_throws s :
  scene (this s) = None → (createHeroScene s).2 = Throw (TypeError "scene").
Proof.
  intros Hs. unfold createHeroScene. apply bind_throw. cbn [repeat_M]. apply bind_throw.
  apply (random_object_throws _ (fun s => s * 0.8 + 0.4)), Hs.
Qed.

Lemma constructor_outcome self canvasId c1 c2 h :
  let res := constructor self canvasId c1 c2 {| this := empty_object; host := h |} in
  (renderer (this res.1) = None ∧ canvas (this res.1) = None ∧
   scene (this res.1) = None ∧ res.2 = Normal tt) ∨
  (renderer (this res.1) = None ∧ res.2 = Throw WebGLError) ∨
  (wf_binding (this res.1) ∧ canvas (this res.1) = Some canvasId ∧ res.2 = Normal tt).
Proof.
  cbn zeta. destruct (decide (canvasId ∈ dom h)) as [Hin|Hout].
  - destruct (webgl h) eqn:Hgl.
    + rewrite constructor_present by assumption. right. right.
      split; [ apply constructed_wf | split; reflexivity ].
    + rewrite constructor_no_context by assumption. right. left. split; reflexivity.
  - rewrite constructor_missing by assumption. left. repeat split.
Qed.

Lemma card_body_unfold config self s :
  card_body config self s =
  let (s', c) := constructor self (config_id config) (Some (config_colors config).1)
                   (Some (config_colors config).2) s in
  match c with
  | Normal _ =>
    match canvas (this s') with
    | Some _ => (addRandomObjects 3;; mret true) s'
    | None => (s', Normal false)
    end
  | Throw e => (s', Throw e)
  end.
Proof.
  unfold card_body. unfold mbind at 1, M_bind at 1.
  destruct (constructor _ _ _ _ _) as [s' [[]|e]]; [ | reflexivity ].
  unfold mbind at 1, M_bind at 1, get_this. cbn [fst snd this].
  destruct (canvas (this s')); reflexivity.
Qed.

Lemma HeroAnimator_constructor_unfold self s :
  HeroAnimator_constructor self s =
  let (s', c) := constructor self "hero-canvas" (Some 0x00FFFF%Z) (Some 0xFF00FF%Z) s in
  match c with
  | Normal _ => createHeroScene s'
  | Throw e => (s', Throw e)
  end.
Proof. reflexivity. Qed.

Lemma card_body_outcome config self h :
  let res := card_body config self {| this := empty_object; host := h |} in
  (renderer (this res.1) = None ∧ res.2 ≠ Normal true) ∨
  (wf_binding (this res.1) ∧ canvas (this res.1) = Some (config_id config)).
Proof.
  cbn zeta. rewrite card_body_unfold.
  pose proof (constructor_outcome self (config_id config) (Some (config_colors config).1)
                (Some (config_colors config).2) h) as Hout.
  cbn zeta in Hout.
  destruct (constructor _ _ _ _ _) as [s c]. cbn [fst snd] in Hout.
  destruct Hout as [H1|[H2|H3]].
  - destruct H1 as (Hr & Hcv & Hs & ->). left. rewrite Hcv. cbn [fst snd].
    split; [ exact Hr | discriminate ].
  - destruct H2 as (Hr & ->). left. split; [ exact Hr | discriminate ].
  - destruct H3 as (Hw & Hc & ->). right. rewrite Hc.
    destruct (stays_wf_bind (addRandomObjects 3) (fun _ => mret true)
                (stays_wf_addRandomObjects 3) (fun _ => stays_wf_ret true) s Hw)
      as (Hw' & Hc' & _).
    split; [ exact Hw' | congruence ].
Qed.

Lemma HeroAnimator_constructor_outcome self h :
  let res := HeroAnimator_constructor self {| this := empty_object; host := h |} in
  (renderer (this res.1) = None ∧ res.2 ≠ Normal tt) ∨
  (wf_binding (this res.1) ∧ canvas (this res.1) = Some "hero-canvas"%string).
Proof.
  cbn zeta. rewrite HeroAnimator_constructor_unfold.
  pose proof (constructor_outcome self "hero-canvas" (Some 0x00FFFF%Z) (Some 0xFF00FF%Z) h)
    as Hout.
  cbn zeta in Hout.
  destruct (constructor _ _ _ _ _) as [s c]. cbn [fst snd] in Hout.
  destruct Hout as [H1|[H2|H3]].
  - destruct H1 as (Hr & _ & Hs & ->). left.
    pose proof (createHeroScene_throws s Hs) as Hthrow.
    pose proof (stays_unbound_createHeroScene s Hr) as Hu.
    destruct (createHeroScene s) as [s' c']. cbn in *. subst c'.
    split; [ exact Hu | discriminate ].
  - destruct H2 as (Hr & ->). left. split; [ exact Hr | discriminate ].
  - destruct H3 as (Hw & Hc & ->). right.
    destruct (stays_wf_createHeroScene s Hw) as (Hw' & Hc' & v & Hv).
    split; [ exact Hw' | congruence ].
Qed.

(** *** The invariant *)

Lemma Map_set_elem k v m k' v' :
  (k', v') ∈ Map_set k v m → (k', v') = (k, v) ∨ (k', v') ∈ m.
Proof.
  induction m as [|[k0 v0] m IH]; cbn [Map_set].
  - intros Hin. apply list_elem_of_singleton in Hin. left. exact Hin.
  - destruct (String.eqb k0 k).
    + intros Hin. apply elem_of_cons in Hin as [Hin|Hin].
      * left. exact Hin.
      * right. apply elem_of_cons. right. exact Hin.
    + intros Hin. apply elem_of_cons in Hin as [Hin|Hin].
      * right. apply elem_of_cons. left. exact Hin.
      * destruct (IH Hin) as [H|H]; [ left; exact H | ].
        right. apply elem_of_cons. right. exact H.
Qed.

Lemma Map_set_keys k v m :
  (Map_set k v m).*1 = if bool_decide (k ∈ m.*1) then m.*1 else m.*1 ++ [k].
Proof.
  induction m as [|[k0 v0] m IH]; cbn [Map_set]; [ reflexivity | ].
  destruct (String.eqb_spec k0 k) as [->|Hne].
  - cbn. rewrite bool_decide_eq_true_2 by left. reflexivity.
  - cbn. rewrite IH. destruct (bool_decide (k ∈ m.*1)) eqn:Hd.
    + apply bool_decide_eq_true_1 in Hd.
      rewrite bool_decide_eq_true_2 by (right; exact Hd). reflexivity.
    + apply bool_decide_eq_false_1 in Hd.
      rewrite bool_decide_eq_false_2; [ reflexivity | ].
      intros Hin. apply elem_of_cons in Hin as [Hin|Hin]; [ congruence | exact (Hd Hin) ].
Qed.

Lemma Map_set_NoDup k v m : NoDup m.*1 → NoDup (Map_set k v m).*1.
Proof.
  intros Hnd. rewrite Map_set_keys. destruct (bool_decide (k ∈ m.*1)) eqn:Hd; [ exact Hnd | ].
  apply bool_decide_eq_false_1 in Hd. apply NoDup_app. split; [ exact Hnd | ].
  split; [ | apply NoDup_singleton ].
  intros x Hx Hx'. apply list_elem_of_singleton in Hx'. subst x. exact (Hd Hx).
Qed.

Lemma Map_set_lookup k v m : (k, v) ∈ Map_set k v m.
Proof.
  induction m as [|[k0 v0] m IH]; cbn [Map_set]; [ left | ].
  destruct (String.eqb k0 k); [ left | right; exact IH ].
Qed.

Lemma WF_call {A} r (m : M A) w :
  stays_unbound m → stays_wf m → WF w → WF (call r m w).1.
Proof.
  intros Hu Hw (Hheap & Hnd & Hreg). unfold call.
  destruct (heap w !! r) as [a|] eqn:Hr; [ | repeat split; assumption ].
  specialize (Hu {| this := a; host := env w |}).
  specialize (Hw {| this := a; host := env w |}).
  destruct (m _) as [s c]. cbn [fst snd this host] in *.
  unfold with_heap_env. cbn [heap animators].
  assert (Hlt : (r < length (heap w))%nat) by (eapply lookup_lt_Some; exact Hr).
  split; [ | split; [ exact Hnd | ] ].
  - intros r0 a0 Hr0. unfold with_heap_env in Hr0; cbn [heap] in Hr0. destruct (decide (r = r0)) as [<-|Hne].
    + rewrite list_lookup_insert_eq in Hr0 by exact Hlt. injection Hr0 as <-.
      destruct (Hheap r a Hr) as [Hn|Hwf]; [ left; auto | right; apply Hw, Hwf ].
    + rewrite list_lookup_insert_ne in Hr0 by exact Hne. eauto.
  - intros k r0 Hin. unfold with_heap_env in *; cbn [heap animators] in *.
    destruct (Hreg k r0 Hin) as (a0 & Hr0 & Hwf & Hc).
    destruct (decide (r = r0)) as [<-|Hne].
    + rewrite Hr in Hr0. injection Hr0 as <-. exists (this s).
      rewrite list_lookup_insert_eq by exact Hlt.
      destruct (Hw Hwf) as (Hwf' & Hc' & _). split; [ reflexivity | ].
      split; [ exact Hwf' | congruence ].
    + exists a0. rewrite list_lookup_insert_ne by exact Hne. auto.
Qed.

Lemma WF_new {A} (body : nat → M A) w :
  (∀ h, renderer (this (body (length (heap w)) {| this := empty_object; host := h |}).1) = None ∨
        wf_binding (this (body (length (heap w)) {| this := empty_object; host := h |}).1)) →
  WF w → WF (new body w).1.1.
Proof.
  intros Hb (Hheap & Hnd & Hreg). unfold new. specialize (Hb (env w)).
  destruct (body _ _) as [s c]. cbn in *.
  split; [ | split; [ exact Hnd | ] ].
  - intros r a Hr. unfold with_heap_env in Hr; cbn [heap] in Hr. apply lookup_app_Some in Hr as [Hr|[_ Hr]]; [ eauto | ].
    apply list_lookup_singleton_Some in Hr as [_ <-]. exact Hb.
  - intros k r Hin. unfold with_heap_env in *; cbn [heap animators] in *.
    destruct (Hreg k r Hin) as (a & Hr & Hwf). exists a.
    split; [ | exact Hwf ]. rewrite lookup_app_l; [ exact Hr | ].
    eapply lookup_lt_Some; exact Hr.
Qed.

Lemma WF_register k r a w :
  WF w → heap w !! r = Some a → wf_binding a → canvas a = Some k →
  WF (with_animators (Map_set k r (animators w)) w).
Proof.
  intros (Hheap & Hnd & Hreg) Hr Hwf Hc. split; [ exact Hheap | ].
  split; [ apply Map_set_NoDup, Hnd | ].
  intros k' r' Hin. cbn in Hin. apply Map_set_elem in Hin as [Heq|Hin]; [ | eauto ].
  injection Heq as -> ->. exists a. auto.
Qed.

Lemma WF_env e w : WF w → WF (with_env e w).
Proof. intros H. exact H. Qed.

Lemma dispatch_WF handler listeners w :
  (∀ r, stays_unbound (handler r)) → (∀ r, stays_wf (handler r)) →
  WF w → WF (dispatch handler listeners w).
Proof.
  intros Hu Hw. revert w. induction listeners as [|r rest IH]; intros w HI; cbn [dispatch].
  - exact HI.
  - apply IH, WF_call; auto.
Qed.

Lemma forEach_animator_WF m l w :
  (∀ r, stays_unbound (m r)) → (∀ r, stays_wf (m r)) →
  WF w → WF (forEach_animator m l w).1.
Proof.
  intros Hu Hw. revert w. induction l as [|[k r] l IH]; intros w HI; cbn [forEach_animator].
  - exact HI.
  - pose proof (WF_call r (m r) w (Hu r) (Hw r) HI) as HI'.
    destruct (call r (m r) w) as [w' [[v|e]|]]; cbn in *; auto.
Qed.

Lemma new_lookup {A} (body : nat → M A) w :
  heap (new body w).1.1 !! (new body w).1.2 =
    Some (this (body (length (heap w)) {| this := empty_object; host := env w |}).1) ∧
  (new body w).2 = (body (length (heap w)) {| this := empty_object; host := env w |}).2 ∧
  animators (new body w).1.1 = animators w.
Proof.
  unfold new. destruct (body _ _) as [s c]. cbn.
  rewrite lookup_app_r, Nat.sub_diag by lia. repeat split.
Qed.

Lemma initCard_WF config w : WF w → WF (initCard config w).
Proof.
  intros HI. unfold initCard.
  pose proof (card_body_outcome config (length (heap w)) (env w)) as Hout. cbn zeta in Hout.
  assert (HI' : WF (new (card_body config) w).1.1).
  { apply WF_new; [ | exact HI ]. intros h.
    destruct (card_body_outcome config (length (heap w)) h) as [[H _]|[H _]]; auto. }
  destruct (new_lookup (card_body config) w) as (Hl & Hc & _).
  destruct (new (card_body config) w) as [[w1 r] c]. cbn [fst snd] in *. subst c.
  destruct (card_body config _ _) as [s [[|]|e]]; cbn [fst snd] in *.
  - destruct Hout as [[_ Hne]|[Hwf Hcv]]; [ congruence | ].
    eapply WF_register; eauto.
  - exact HI'.
  - exact HI'.
Qed.

Lemma initHeroAnimation_WF w : WF w → WF (initHeroAnimation w).
Proof.
  intros HI. unfold initHeroAnimation.
  pose proof (HeroAnimator_constructor_outcome (length (heap w)) (env w)) as Hout.
  cbn zeta in Hout.
  assert (HI' : WF (new HeroAnimator_constructor w).1.1).
  { apply WF_new; [ | exact HI ]. intros h.
    destruct (HeroAnimator_constructor_outcome (length (heap w)) h) as [[H _]|[H _]]; auto. }
  destruct (new_lookup HeroAnimator_constructor w) as (Hl & Hc & _).
  destruct (new HeroAnimator_constructor w) as [[w1 r] c]. cbn [fst snd] in *. subst c.
  destruct (HeroAnimator_constructor _ _) as [s [[]|e]]; cbn [fst snd] in *.
  - destruct Hout as [[_ Hne]|[Hwf Hcv]]; [ congruence | ].
    eapply WF_register; eauto.
  - exact HI'.
Qed.

Lemma stagger_WF configs index w : WF w → WF (stagger configs index w).
Proof.
  revert index w. induction configs as [|c rest IH]; intros index w HI; cbn [stagger].
  - exact HI.
  - apply IH. exact HI.
Qed.

Lemma step_WF w e : WF w → WF (step w e).
Proof.
  intros HI. destruct e; cbn [step].
  - apply WF_new; [ | exact HI ]. intros h.
    destruct (constructor_outcome (length (heap w)) canvasId c1 c2 h)
      as [(H & _)|[(H & _)|(H & _)]]; auto.
  - apply WF_new; [ | exact HI ]. intros h.
    destruct (HeroAnimator_constructor_outcome (length (heap w)) h) as [[H _]|[H _]]; auto.
  - apply WF_call; [ apply stays_unbound_method | apply stays_wf_method | exact HI ].
  - unfold frame. destruct (list_find _ _) as [[i [id r]]|]; [ | exact HI ].
    apply WF_call; [ apply stays_unbound_animate | apply stays_wf_animate | exact HI ].
  - apply dispatch_WF;
      [ apply stays_unbound_on_visibilitychange | apply stays_wf_on_visibilitychange | exact HI ].
  - apply dispatch_WF;
      [ intros; apply stays_unbound_on_intersection
      | intros; apply stays_wf_on_intersection | exact HI ].
  - exact HI.
  - unfold timeout. destruct (timers w) as [|[due [|config]] q]; [ exact HI | | ].
    + apply stagger_WF. exact HI.
    + apply initCard_WF. exact HI.
  - apply (initHeroAnimation_WF w HI).
  - apply forEach_animator_WF;
      [ intros; apply stays_unbound_pause | intros; apply stays_wf_pause | exact HI ].
  - apply forEach_animator_WF;
      [ apply stays_unbound_play | apply stays_wf_play | exact HI ].
  - unfold AnimationManager_dispose.
    pose proof (forEach_animator_WF (fun _ => dispose) (animators w) w
                  (fun _ => stays_unbound_dispose) (fun _ => stays_wf_dispose) HI) as HI'.
    destruct (forEach_animator _ _ _) as [w' [v|e]]; [ | exact HI' ].
    destruct HI' as (Hheap & _ & _). split; [ exact Hheap | ].
    split; [ constructor | ]. intros k r Hin. inversion Hin.
Qed.

Lemma run_WF es w : WF w → WF (run w es).
Proof.
  revert w. induction es as [|e es IH]; intros w HI; cbn; [ exact HI | ].
  apply IH, step_WF, HI.
Qed.

Lemma page_WF d gl : WF (page d gl).
Proof.
  split; [ | split ].
  - intros r a Hr. cbn in Hr. rewrite lookup_nil in Hr. discriminate.
  - constructor.
  - intros k r Hin. inversion Hin.
Qed.

(** *** One object through its frames *)

Lemma mod1_range v : 0 <= v → 0 <= mod1 v ∧ mod1 v < 1.
Proof.
  intros Hv. unfold mod1, trunc. destruct (Qlt_le_dec v 0) as [Hlt|_]; [ lra | ].
  pose proof (Qfloor_le v) as H1. pose proof (Qlt_floor v) as H2.
  rewrite inject_Z_plus in H2. change (inject_Z 1) with 1 in H2. split; lra.
Qed.

(** X7. One frame keeps an object near its origin: with the sine within
    [-1, 1] at the two arguments the frame uses, the new height is within a
    tenth of the float amount of the recorded origin, the uniform scale is
    within ten percent of the recorded size, and for a time that is not
    negative the hue is in [0, 1) with saturation 0.7 and lightness 0.6. *)
Theorem frame_motion_is_bounded (time : Q) (index : nat) (obj : Mesh) :
  let ud := userData obj in
  let i := inject_Z (Z.of_nat index) in
  let obj' := animate_object time index obj in
  0 <= time →
  0 <= floatAmount ud →
  0 <= userData_scale ud →
  -(1) <= Math_sin (time * floatSpeed ud + i) ∧ Math_sin (time * floatSpeed ud + i) <= 1 →
  -(1) <= Math_sin (time * pulseSpeed ud + i) ∧ Math_sin (time * pulseSpeed ud + i) <= 1 →
  (vy (originalPosition ud) - 0.1 * floatAmount ud <= vy (position obj') ∧
   vy (position obj') <= vy (originalPosition ud) + 0.1 * floatAmount ud) ∧
  (0.9 * userData_scale ud <= vx (scale obj') ∧ vx (scale obj') <= 1.1 * userData_scale ud) ∧
  vy (scale obj') = vx (scale obj') ∧ vz (scale obj') = vx (scale obj') ∧
  ∃ hue, material_color obj' = ColorHSL hue 0.7 0.6 ∧ 0 <= hue ∧ hue < 1.
Proof.
  cbn zeta. intros Ht Hamt Hsz [Hf1 Hf2] [Hp1 Hp2]. unfold animate_object.
  cbn [position scale material_color vx vy vz].
  set (sf := Math_sin (time * floatSpeed (userData obj) + inject_Z (Z.of_nat index))) in *.
  set (sp := Math_sin (time * pulseSpeed (userData obj) + inject_Z (Z.of_nat index))) in *.
  set (amt := floatAmount (userData obj)) in *.
  set (sz := userData_scale (userData obj)) in *.
  split; [ split; nra | ]. split; [ split; nra | ].
  split; [ reflexivity | ]. split; [ reflexivity | ].
  eexists. split; [ reflexivity | ]. apply mod1_range.
  assert (0 <= inject_Z (Z.of_nat index)).
  { change 0 with (inject_Z 0). rewrite <- Zle_Qle. lia. }
  nra.
Qed.

Lemma animate_object_step t index obj :
  let obj' := animate_object t index obj in
  uid obj' = uid obj ∧ geometry obj' = geometry obj ∧ userData obj' = userData obj ∧
  vx (position obj') = vx (position obj) ∧ vz (position obj') = vz (position obj) ∧
  vx (rotation obj') = vx (rotation obj) + vx (rotationSpeed (userData obj)) ∧
  vy (rotation obj') = vy (rotation obj) + vy (rotationSpeed (userData obj)) ∧
  vz (rotation obj') = vz (rotation obj) + vz (rotationSpeed (userData obj)).
Proof. repeat split. Qed.

Lemma animate_object_reads t index o1 o2 :
  userData o1 = userData o2 →
  vx (position o1) = vx (position o2) → vz (position o1) = vz (position o2) →
  position (animate_object t index o1) = position (animate_object t index o2) ∧
  scale (animate_object t index o1) = scale (animate_object t index o2) ∧
  material_color (animate_object t index o1) = material_color (animate_object t index o2).
Proof. intros Hu Hx Hz. unfold animate_object. cbn. rewrite Hu, Hx, Hz. repeat split. Qed.

(** X8. Over any number of frames only the rotation has a memory, and it
    counts frames, not time: after the frames at [times] and one more at [t],
    the rotation is the initial one with the rotation speed added once per
    frame, one addition after the other, whatever the times were; position,
    scale and colour are what a single frame at [t] gives the initial object;
    and the identity, the geometry and the motion profile are unchanged. *)
Theorem frames_accumulate_rotation_only (index : nat) (times : list Q) (t : Q) (obj : Mesh) :
  let obj' := animate_object t index (after_frames index times obj) in
  rotation obj' =
    Nat.iter (S (length times)) (turn (rotationSpeed (userData obj))) (rotation obj) ∧
  position obj' = position (animate_object t index obj) ∧
  scale obj' = scale (animate_object t index obj) ∧
  material_color obj' = material_color (animate_object t index obj) ∧
  uid obj' = uid obj ∧ geometry obj' = geometry obj ∧ userData obj' = userData obj.
Proof.
  cbn zeta. unfold after_frames. revert obj.
  induction times as [|t' times IH]; intros obj.
  - cbn [foldl length]. repeat split.
  - cbn [foldl]. destruct (IH (animate_object t' index obj))
      as (Hr & Hp & Hs & Hc & Hu & Hg & Hd).
    destruct (animate_object_step t' index obj)
      as (Su & Sg & Sd & Sx & Sz & _).
    cbn zeta in *.
    destruct (animate_object_reads t index (animate_object t' index obj) obj Sd Sx Sz)
      as (Ep & Es & Ec).
    split; [ | repeat split; congruence ].
    rewrite Hr, Sd. cbn [length]. rewrite (Nat.iter_succ_r (S (length times))).
    reflexivity.
Qed.

(** *** Repeated calls *)

(** X9. Calling [play()] or [pause()] a second time changes nothing: the
    second [play()] finds the flag set and returns at once, and the second
    [pause()] cancels a handle that is no longer pending. [pause()] leaves the
    handle in [animationId] as it was. *)
Theorem play_and_pause_are_idempotent (self : nat) (s : St) :
  play self (play self s).1 = ((play self s).1, Normal tt) ∧
  pause (pause s).1 = pause s ∧
  animationId (this (pause s).1) = animationId (this s).
Proof.
  split; [ | split ].
  - rewrite (play_eq self (play self s).1), play_isPlaying. reflexivity.
  - destruct s as [a h]. rewrite !pause_eq. cbn [fst]. rewrite pause_eq.
    unfold cancel_frame. destruct a, h. cbn. rewrite cancelled_idem. reflexivity.
  - destruct s as [a h]. rewrite pause_eq. destruct a. reflexivity.
Qed.

(** X10. [dispose()] on a consistent binding releases the geometry and the
    material of exactly its own objects, once each and in list order, takes
    their nodes out of the scene so that only the three lights remain, and
    marks the renderer disposed; canvas, camera and palette stay. *)
Theorem dispose_releases_owned_objects a h objs :
  wf_binding a → objects a = Some objs →
  let res := dispose {| this := a; host := h |} in
  res.2 = Normal tt ∧
  released (host res.1) = released h ++ (uid <$> objs) ∧
  scene (this res.1) = Some lights ∧
  objects (this res.1) = Some [] ∧
  (disposed <$> renderer (this res.1)) = Some true ∧
  (frames <$> renderer (this res.1)) = (frames <$> renderer a) ∧
  canvas (this res.1) = canvas a ∧ camera (this res.1) = camera a ∧
  color1 (this res.1) = color1 a ∧ color2 (this res.1) = color2 a ∧
  console (host res.1) = console h ∧ draws (host res.1) = draws h.
Proof.
  intros Hs Ho. cbn zeta.
  destruct (wf_fields a Hs) as (cv & cam & r & objs' & p & c1 & c2 & Ha & Hcam & Hanch).
  assert (objs' = objs) as -> by (rewrite Ha in Ho; cbn in Ho; congruence).
  rewrite (dispose_eq a h (lights ++ (MeshNode ∘ uid <$> objs)) objs r)
    by (rewrite Ha; reflexivity).
  cbn [fst snd this host]. rewrite Ha.
  cbn [with_renderer with_scene with_objects with_isPlaying canvas scene
    camera renderer color1 color2 objects animationId isPlaying].
  rewrite scene_without_lights. destruct h. repeat split.
Qed.

(** *** What the random populations contain *)

Lemma pick_named (types : list string) r :
  types ≠ [] → 0 <= r → r < 1 → ∃ t, pick types r = Some t ∧ t ∈ types.
Proof.
  intros Hne H0 H1. unfold pick, Math_floor.
  set (n := length types).
  assert (Hn : (0 < n)%nat) by (destruct types; [ congruence | cbn; lia ]).
  assert (HnQ : 0 < inject_Z (Z.of_nat n)).
  { change 0 with (inject_Z 0). rewrite <- Zlt_Qlt. lia. }
  assert (Hlo : (0 ≤ Qfloor (r * inject_Z (Z.of_nat n)))%Z).
  { change 0%Z with (Qfloor 0). apply Qfloor_resp_le. nra. }
  assert (Hhi : (Qfloor (r * inject_Z (Z.of_nat n)) < Z.of_nat n)%Z).
  { rewrite Zlt_Qlt. eapply Qle_lt_trans; [ apply Qfloor_le | ]. nra. }
  rewrite (proj2 (Z.ltb_ge _ _) Hlo).
  destruct (lookup_lt_is_Some_2 types (Z.to_nat (Qfloor (r * inject_Z (Z.of_nat n)))))
    as [t Ht]; [ fold n; lia | ].
  exists t. split; [ exact Ht | ]. eapply list_elem_of_lookup_2, Ht.
Qed.

Lemma appends_random_object (types : list string) (f : Q → Q) :
  types ≠ [] → (∀ n, 0 <= random n ∧ random n < 1) →
  appends (drawn_from types f) 1
    (r ← Math_random;
     s ← Math_random;
     createFloatingGeometry (pick types r)
       {| opt_size := Some (f s); opt_segments := None; opt_detail := None |};;
     mret tt).
Proof.
  intros Hne Hrand a h objs Hb Hobjs.
  destruct (bound_fields a Hb) as (cv & sc & cam & r & objs' & p & Hf).
  destruct Hf as (Hcv & Hsc & Hcam & Hr & Hobjs' & Hp).
  unfold mbind at 1, M_bind at 1. rewrite Math_random_eq.
  unfold mbind at 1, M_bind at 1. rewrite Math_random_eq.
  unfold mbind at 1, M_bind at 1.
  erewrite createFloatingGeometry_eq; [ | exact Hsc | exact Hobjs ].
  eexists _, [_]. split; [ reflexivity | ]. cbn [this host].
  split; [ apply bound_with_objects_scene, Hb | ].
  split; [ reflexivity | ]. split; [ reflexivity | ].
  constructor; [ | constructor ].
  destruct (Hrand (draws h)) as [Hr0 Hr1].
  destruct (pick_named types (random (draws h)) Hne Hr0 Hr1) as (t & Ht & Hin).
  destruct (Hrand (S (draws h))) as [Hs0 Hs1].
  exists t, (random (S (draws h))). split; [ exact Hin | ].
  split; [ exact Hs0 | ]. split; [ exact Hs1 | ].
  unfold created_mesh. cbn [geometry userData userData_scale]. rewrite Ht.
  split; reflexivity.
Qed.

Lemma appends_fixed_object (type : string) (f : Q → Q) :
  (∀ n, 0 <= random n ∧ random n < 1) →
  appends (drawn_from [type] f) 1
    (s ← Math_random;
     createFloatingGeometry (Some type)
       {| opt_size := Some (f s); opt_segments := None; opt_detail := None |};;
     mret tt).
Proof.
  intros Hrand a h objs Hb Hobjs.
  destruct (bound_fields a Hb) as (cv & sc & cam & r & objs' & p & Hf).
  destruct Hf as (Hcv & Hsc & Hcam & Hr & Hobjs' & Hp).
  unfold mbind at 1, M_bind at 1. rewrite Math_random_eq.
  unfold mbind at 1, M_bind at 1.
  erewrite createFloatingGeometry_eq; [ | exact Hsc | exact Hobjs ].
  eexists _, [_]. split; [ reflexivity | ]. cbn [this host].
  split; [ apply bound_with_objects_scene, Hb | ].
  split; [ reflexivity | ]. split; [ reflexivity | ].
  constructor; [ | constructor ].
  destruct (Hrand (draws h)) as [Hs0 Hs1].
  exists type, (random (draws h)). split; [ left | ].
  split; [ exact Hs0 | ]. split; [ exact Hs1 | ]. split; reflexivity.
Qed.

Lemma appends_repeat_M P n body : appends P 1 body → appends P n (repeat_M n body).
Proof.
  intros Hbody. induction n as [|n IH]; intros a h objs Hb Hobjs.
  - exists {| this := a; host := h |}, []. cbn. rewrite app_nil_r.
    repeat split; auto; apply Hb.
  - cbn [repeat_M]. unfold mbind at 1, M_bind at 1.
    destruct (Hbody a h objs Hb Hobjs) as (s1 & m1 & E1 & Hb1 & Ho1 & Hl1 & HP1).
    rewrite E1. destruct s1 as [a1 h1]. cbn [this host] in *.
    destruct (IH a1 h1 _ Hb1 Ho1) as (s2 & m2 & E2 & Hb2 & Ho2 & Hl2 & HP2).
    exists s2, (m1 ++ m2). split; [ exact E2 | ]. split; [ exact Hb2 | ].
    split; [ etransitivity; [ exact Ho2 | f_equal; symmetry; apply List.app_assoc ] | ].
    split; [ rewrite length_app; lia | ]. apply Forall_app. split; assumption.
Qed.

Lemma drawn_from_size types (f : Q → Q) lo hi m :
  (∀ s, 0 <= s → s < 1 → lo <= f s ∧ f s < hi) →
  drawn_from types f m →
  lo <= userData_scale (userData m) ∧ userData_scale (userData m) < hi.
Proof. intros Hf (t & s & _ & H0 & H1 & _ & ->). apply Hf; assumption. Qed.

(** X11. With draws in [0, 1), [addRandomObjects(count)] on a binding returns
    normally and appends exactly [count] objects behind the ones already
    there. Each new object is of one of the six named kinds (the lookup in
    [types] is never out of range, so the [default] branch of the switch is
    not what builds it), has the default segments and detail, and a size in
    [0.5, 1] that is also its recorded scale. The upper end is closed: the
    size is a product plus 0.5, and once that sum is rounded a draw next to 1
    gives 1 itself. *)
Theorem addRandomObjects_population (count : nat) a h objs :
  (∀ n, 0 <= random n ∧ random n < 1) →
  bound a → objects a = Some objs →
  let res := addRandomObjects count {| this := a; host := h |} in
  ∃ more,
    res.2 = Normal tt ∧
    objects (this res.1) = Some (objs ++ more) ∧ length more = count ∧
    Forall (fun m =>
      ∃ t sz, t ∈ ["sphere"; "cube"; "torus"; "octahedron"; "icosahedron"; "tetrahedron"]%string ∧
        geometry m = make_geometry t {| size := sz; segments := 32; detail := 0 |} ∧
        userData_scale (userData m) = sz ∧ 0.5 <= sz ∧ sz <= 1) more.
Proof.
  intros Hrand Hb Ho. cbn zeta.
  destruct (appends_repeat_M _ count _
              (appends_random_object
                 ["sphere"; "cube"; "torus"; "octahedron"; "icosahedron"; "tetrahedron"]%string
                 (fun s => s * 0.5 + 0.5) ltac:(discriminate) Hrand) a h objs Hb Ho)
    as (s' & more & E & _ & Ho' & Hl & HP).
  exists more. unfold addRandomObjects. rewrite E. cbn [fst snd].
  split; [ reflexivity | ]. split; [ exact Ho' | ]. split; [ exact Hl | ].
  eapply Forall_impl; [ exact HP | ]. intros m (t & s & Hin & H0 & H1 & Hg & Hs).
  exists t, (s * 0.5 + 0.5). split; [ exact Hin | ]. split; [ exact Hg | ].
  split; [ exact Hs | ]. split; lra.
Qed.

(** X12. With draws in [0, 1), [createHeroScene()] on a binding returns
    normally and appends twenty-three objects: first twenty of the five kinds
    sphere, cube, torus, octahedron and icosahedron (never a tetrahedron) with
    sizes in [0.4, 1.2], then three icosahedra of detail 0 with sizes in
    [1, 2.5]. The upper ends are closed: each size is a product plus a
    constant, and once that sum is rounded a draw next to 1 gives the end
    point itself. *)
Theorem createHeroScene_population a h objs :
  (∀ n, 0 <= random n ∧ random n < 1) →
  bound a → objects a = Some objs →
  let res := createHeroScene {| this := a; host := h |} in
  ∃ small large,
    res.2 = Normal tt ∧
    objects (this res.1) = Some (objs ++ small ++ large) ∧
    length small = 20%nat ∧ length large = 3%nat ∧
    Forall (fun m =>
      primitive (geometry m) ∈ [Sphere; Box; Torus; Octahedron; Icosahedron] ∧
      0.4 <= userData_scale (userData m) ∧ userData_scale (userData m) <= 1.2) small ∧
    Forall (fun m =>
      ∃ sz, geometry m = IcosahedronGeometry sz 0 ∧
            userData_scale (userData m) = sz ∧ 1 <= sz ∧ sz <= 2.5) large.
Proof.
  intros Hrand Hb Ho. cbn zeta.
  destruct (appends_repeat_M _ 20 _
              (appends_random_object
                 ["sphere"; "cube"; "torus"; "octahedron"; "icosahedron"]%string
                 (fun s => s * 0.8 + 0.4) ltac:(discriminate) Hrand) a h objs Hb Ho)
    as ([a1 h1] & small & E1 & Hb1 & Ho1 & Hl1 & HP1).
  cbn [this] in *.
  destruct (appends_repeat_M _ 3 _
              (appends_fixed_object "icosahedron" (fun s => s * 1.5 + 1) Hrand)
              a1 h1 _ Hb1 Ho1)
    as (s2 & large & E2 & _ & Ho2 & Hl2 & HP2).
  assert (E : createHeroScene {| this := a; host := h |} = (s2, Normal tt)).
  { unfold createHeroScene. unfold mbind at 1, M_bind at 1. rewrite E1. exact E2. }
  exists small, large. rewrite E. cbn [fst snd].
  split; [ reflexivity | ].
  split; [ etransitivity; [ exact Ho2 | f_equal; symmetry; apply List.app_assoc ] | ].
  split; [ exact Hl1 | ]. split; [ exact Hl2 | ]. split.
  - eapply Forall_impl; [ exact HP1 | ]. intros m (t & s & Hin & H0 & H1 & Hg & Hs).
    split; [ | rewrite Hs; split; lra ]. rewrite Hg.
    repeat (apply elem_of_cons in Hin as [->|Hin]; [ cbn; repeat constructor | ]).
    inversion Hin.
  - eapply Forall_impl; [ exact HP2 | ]. intros m (t & s & Hin & H0 & H1 & Hg & Hs).
    apply list_elem_of_singleton in Hin. subst t.
    exists (s * 1.5 + 1). split; [ exact Hg | ]. split; [ exact Hs | ]. split; lra.
Qed.

(** *** The pool's three sweeps, from any state the page can reach *)

Lemma call_wf r (m : M unit) w a :
  stays_wf m → heap w !! r = Some a → wf_binding a →
  (call r m w).2 = Some (Normal tt) ∧
  heap (call r m w).1 !! r = Some (this (m {| this := a; host := env w |}).1) ∧
  wf_binding (this (m {| this := a; host := env w |}).1) ∧
  canvas (this (m {| this := a; host := env w |}).1) = canvas a ∧
  timers (call r m w).1 = timers w ∧
  animators (call r m w).1 = animators w.
Proof.
  intros Hm Hr Hwf. destruct (call_heap_self r m w a Hr) as [Hr' _].
  destruct (Hm {| this := a; host := env w |} Hwf) as (Hwf' & Hc & [] & Hv).
  split; [ | split; [ exact Hr' | split; [ exact Hwf' | split; [ exact Hc | ] ] ] ].
  - unfold call. rewrite Hr. destruct (m _) as [s c]. cbn in *. congruence.
  - unfold call. rewrite Hr. destruct (m _) as [s c]. split; reflexivity.
Qed.

Lemma forEach_animator_post (m : nat → M unit) (Q : ThreeJSAnimator → Prop) l :
  (∀ r, stays_wf (m r)) →
  (∀ r s, wf_binding (this s) → Q (this (m r s).1)) →
  ∀ w,
    (∀ k r, (k, r) ∈ l → ∃ a, heap w !! r = Some a ∧ wf_binding a ∧ canvas a = Some k) →
    let res := forEach_animator m l w in
    res.2 = Normal tt ∧
    timers res.1 = timers w ∧
    animators res.1 = animators w ∧
    (∀ r, (∀ k, (k, r) ∉ l) → heap res.1 !! r = heap w !! r) ∧
    (∀ k r, (k, r) ∈ l →
       ∃ a', heap res.1 !! r = Some a' ∧ wf_binding a' ∧ canvas a' = Some k ∧ Q a').
Proof.
  intros Hm HQ. induction l as [|[k0 r0] l IH]; intros w Hgood.
  - cbn. repeat split; auto. intros k r Hin. inversion Hin.
  - cbn [forEach_animator].
    destruct (Hgood k0 r0) as (a0 & Hr0 & Hw0 & Hc0); [ left | ].
    destruct (call_wf r0 (m r0) w a0 (Hm r0) Hr0 Hw0) as (Hc & Hr1 & Hw1 & Hcv1 & Ht & Ha).
    pose proof (HQ r0 {| this := a0; host := env w |} Hw0) as HQ1.
    pose proof (fun r Hne => call_heap_other r r0 (m r0) w Hne) as Hother.
    destruct (call r0 (m r0) w) as [w1 c1]. cbn [fst snd] in *. subst c1.
    set (a1 := this (m r0 {| this := a0; host := env w |}).1) in *. clearbody a1.
    assert (Hgood1 : ∀ k r, (k, r) ∈ l →
              ∃ a, heap w1 !! r = Some a ∧ wf_binding a ∧ canvas a = Some k).
    { intros k r Hin. destruct (decide (r = r0)) as [->|Hne].
      - exists a1. split; [ exact Hr1 | ]. split; [ exact Hw1 | ].
        destruct (Hgood k r0) as (a & Hr & _ & Hcv); [ right; exact Hin | ]. congruence.
      - rewrite Hother by exact Hne. apply (Hgood k). right. exact Hin. }
    destruct (IH w1 Hgood1) as (Rc & Rt & Ra & Rother & Rd).
    cbn zeta in *. split; [ exact Rc | ]. split; [ congruence | ].
    split; [ congruence | ]. split.
    + intros r Hnot. rewrite Rother.
      * apply Hother. intros ->. apply (Hnot k0). left.
      * intros k Hin. apply (Hnot k). right. exact Hin.
    + intros k r Hin. apply elem_of_cons in Hin as [Heq|Hin]; [ | eauto ].
      injection Heq as -> ->.
      destruct (decide (r0 ∈ l.*2)) as [Hin'|Hnot].
      * apply list_elem_of_fmap in Hin' as ([k' r'] & Heq & Hin').
        cbn [snd] in Heq. subst r'.
        destruct (Rd k' r0 Hin') as (a' & Hr' & Hw' & _ & HQ').
        exists a'. split; [ exact Hr' | ]. split; [ exact Hw' | ]. split; [ | exact HQ' ].
        destruct (Rd k' r0 Hin') as (a'' & Hr'' & _ & Hk'' & _).
        destruct (Hgood k' r0) as (b & Hb & _ & Hbk); [ right; exact Hin' | ].
        congruence.
      * exists a1. split; [ | split; [ exact Hw1 | split; [ congruence | exact HQ1 ] ] ].
        rewrite Rother; [ exact Hr1 | ].
        intros k' Hin'. apply Hnot. apply list_elem_of_fmap. exists (k', r0). auto.
Qed.

Lemma reachable d gl es : WLive (run (page d gl) es) ∧ WF (run (page d gl) es).
Proof. split; [ apply run_WLive, page_WLive | apply run_WF, page_WF ]. Qed.

Lemma dispose_wf_result s :
  wf_binding (this s) →
  isPlaying (this (dispose s).1) = Some false ∧
  objects (this (dispose s).1) = Some [] ∧
  scene (this (dispose s).1) = Some lights ∧
  (disposed <$> renderer (this (dispose s).1)) = Some true.
Proof.
  destruct s as [a h]. cbn [this]. intros Hs.
  destruct (wf_fields a Hs) as (cv & cam & r & objs & p & c1 & c2 & Ha & Hcam & Hanch).
  rewrite (dispose_eq a h (lights ++ (MeshNode ∘ uid <$> objs)) objs r)
    by (rewrite Ha; reflexivity).
  cbn [fst snd this]. rewrite Ha.
  cbn [with_renderer with_scene with_objects with_isPlaying canvas scene
    camera renderer color1 color2 objects animationId isPlaying].
  rewrite scene_without_lights. repeat split.
Qed.

(** X2. In every state the page can reach, the registry holds at most one
    entry per canvas id, and every entry refers to a binding that was
    constructed completely (canvas, scene, camera, renderer, palette and
    object list are all set) on the canvas the entry is keyed by. A binding
    whose construction failed is never registered. *)
Theorem registry_holds_constructed_bindings d gl (es : list Event) :
  let w := run (page d gl) es in
  NoDup (animators w).*1 ∧
  ∀ k r, (k, r) ∈ animators w →
    ∃ a, heap w !! r = Some a ∧ bound a ∧ canvas a = Some k.
Proof.
  cbn zeta. destruct (reachable d gl es) as [_ (_ & Hnd & Hreg)].
  split; [ exact Hnd | ]. intros k r Hin.
  destruct (Hreg k r Hin) as (a & Hr & Hwf & Hc). exists a.
  split; [ exact Hr | ]. split; [ apply Hwf | exact Hc ].
Qed.

(** X3. From every state the page can reach, [pauseAll()] returns normally;
    afterwards every registered binding has its play flag false and no frame
    request outstanding, and the registry, the timers and every binding that
    is not registered are as before. *)
Theorem pauseAll_stops_every_registered d gl (es : list Event) :
  let w := run (page d gl) es in
  let res := pauseAll w in
  res.2 = Normal tt ∧
  animators res.1 = animators w ∧
  timers res.1 = timers w ∧
  (∀ r, (∀ k, (k, r) ∉ animators w) → heap res.1 !! r = heap w !! r) ∧
  ∀ k r, (k, r) ∈ animators w →
    ∃ a, heap res.1 !! r = Some a ∧ isPlaying a = Some false ∧ outstanding r res.1 = [].
Proof.
  cbn zeta. destruct (reachable d gl es) as [HL HW].
  pose proof (step_WLive _ ev_pauseAll HL) as HL'. cbn [step] in HL'.
  destruct HW as (_ & _ & Hreg). unfold pauseAll in *.
  destruct (forEach_animator_post (fun _ => pause) (fun a => isPlaying a = Some false)
              (animators (run (page d gl) es)) (fun _ => stays_wf_pause)
              (fun _ s _ => pause_isPlaying s) _ Hreg) as (Hc & Ht & Ha & Hother & Hd).
  cbn zeta in *. split; [ exact Hc | ]. split; [ exact Ha | ]. split; [ exact Ht | ].
  split; [ exact Hother | ]. intros k r Hin.
  destruct (Hd k r Hin) as (a & Hr & _ & _ & Hp). exists a.
  split; [ exact Hr | ]. split; [ exact Hp | ].
  pose proof (WLive_outstanding _ r HL') as Hout. rewrite Hr, Hp in Hout. exact Hout.
Qed.

(** X4. From every state the page can reach, [playAll()] returns normally;
    afterwards every registered binding has its play flag true and exactly
    one frame request outstanding, the one whose handle [animationId] holds.
    The registry, the timers and every unregistered binding are as before. *)
Theorem playAll_starts_every_registered d gl (es : list Event) :
  let w := run (page d gl) es in
  let res := playAll w in
  res.2 = Normal tt ∧
  animators res.1 = animators w ∧
  timers res.1 = timers w ∧
  (∀ r, (∀ k, (k, r) ∉ animators w) → heap res.1 !! r = heap w !! r) ∧
  ∀ k r, (k, r) ∈ animators w →
    ∃ a id, heap res.1 !! r = Some a ∧ isPlaying a = Some true ∧
            animationId a = Some id ∧ outstanding r res.1 = [(id, r)].
Proof.
  cbn zeta. destruct (reachable d gl es) as [HL HW].
  pose proof (step_WLive _ ev_playAll HL) as HL'. cbn [step] in HL'.
  destruct HW as (_ & _ & Hreg). unfold playAll in *.
  destruct (forEach_animator_post play (fun a => isPlaying a = Some true)
              (animators (run (page d gl) es)) stays_wf_play
              (fun r s _ => play_isPlaying r s) _ Hreg) as (Hc & Ht & Ha & Hother & Hd).
  cbn zeta in *. split; [ exact Hc | ]. split; [ exact Ha | ]. split; [ exact Ht | ].
  split; [ exact Hother | ]. intros k r Hin.
  destruct (Hd k r Hin) as (a & Hr & _ & _ & Hp).
  pose proof (WLive_outstanding _ r HL') as Hout. rewrite Hr, Hp in Hout.
  destruct Hout as (id & Hid & Hout). exists a, id. auto.
Qed.

(** X5. From every state the page can reach, the pool's [dispose()] returns
    normally and empties the registry. Every binding that was registered is
    left paused with no frame request outstanding, an empty object list, a
    scene holding only the three lights, and a disposed renderer. *)
Theorem pool_dispose_releases_every_registered d gl (es : list Event) :
  let w := run (page d gl) es in
  let res := AnimationManager_dispose w in
  res.2 = Normal tt ∧
  animators res.1 = [] ∧
  ∀ k r, (k, r) ∈ animators w →
    ∃ a, heap res.1 !! r = Some a ∧
         isPlaying a = Some false ∧ outstanding r res.1 = [] ∧
         objects a = Some [] ∧ scene a = Some lights ∧
         (disposed <$> renderer a) = Some true.
Proof.
  cbn zeta. destruct (reachable d gl es) as [HL HW].
  pose proof (step_WLive _ ev_dispose HL) as HL'. cbn [step] in HL'.
  destruct HW as (_ & _ & Hreg). unfold AnimationManager_dispose in *.
  destruct (forEach_animator_post (fun _ => dispose)
              (fun a => isPlaying a = Some false ∧ objects a = Some [] ∧
                        scene a = Some lights ∧ (disposed <$> renderer a) = Some true)
              (animators (run (page d gl) es)) (fun _ => stays_wf_dispose)
              (fun _ s H => dispose_wf_result s H) _ Hreg) as (Hc & Ht & Ha & Hother & Hd).
  cbn zeta in *. destruct (forEach_animator _ _ _) as [w' c]. cbn [fst snd] in *. subst c.
  cbn [fst snd]. split; [ reflexivity | ]. split; [ reflexivity | ]. intros k r Hin.
  destruct (Hd k r Hin) as (a & Hr & _ & _ & Hp & Ho & Hs & Hrd). exists a.
  split; [ exact Hr | ]. split; [ exact Hp | ].
  cbn [fst] in HL'. pose proof (WLive_outstanding _ r HL') as Hout.
  change (heap (with_animators [] w')) with (heap w') in Hout. rewrite Hr, Hp in Hout.
  split; [ exact Hout | ]. repeat split; assumption.
Qed.

(** X6. In every state the page can reach, a binding that has a renderer is
    consistent: its scene is exactly the three lights followed by one node
    per owned object, in the order of the object list; the camera is at
    depth 5; and every owned object is still at the x and z of its recorded
    origin (frames move objects along y only). *)
Theorem scene_mirrors_object_list d gl (es : list Event) r a :
  heap (run (page d gl) es) !! r = Some a →
  renderer a ≠ None →
  ∃ objs,
    objects a = Some objs ∧
    scene a = Some (lights ++ (MeshNode ∘ uid <$> objs)) ∧
    Forall anchored objs ∧
    (vz <$> camera a) = Some 5.
Proof.
  intros Hr Hrend. destruct (reachable d gl es) as [_ (Hheap & _)].
  destruct (Hheap r a Hr) as [Hn|(_ & Hs & Hcam)]; [ contradiction | ].
  destruct Hs as (objs & Ho & Hsc & Hanch). exists objs. auto.
Qed.

(** *** The three ways a binding can fail or succeed to initialize *)

Lemma adds_fixed_object (type : string) (f : Q → Q) :
  adds 1 (s ← Math_random;
          createFloatingGeometry (Some type)
            {| opt_size := Some (f s); opt_segments := None; opt_detail := None |};;
          mret tt).
Proof.
  intros a h objs Hb Hobjs.
  destruct (bound_fields a Hb) as (cv & sc & cam & r & objs' & p & Hf).
  destruct Hf as (Hcv & Hsc & Hcam & Hr & Hobjs' & Hp).
  unfold mbind at 1, M_bind at 1. rewrite Math_random_eq.
  unfold mbind at 1, M_bind at 1.
  erewrite createFloatingGeometry_eq; [ | exact Hsc | exact Hobjs ].
  eexists _, _. split; [ reflexivity | ]. cbn [this host].
  split; [ apply bound_with_objects_scene, Hb | ].
  split; [ reflexivity | ]. split; [ reflexivity | ].
  split; [ rewrite length_app; reflexivity | ].
  repeat split.
Qed.

Lemma adds_createHeroScene : adds 23 createHeroScene.
Proof.
  intros a h objs Hb Ho. unfold createHeroScene. unfold mbind at 1, M_bind at 1.
  destruct (adds_repeat_M 20 _ (adds_random_object
              ["sphere"; "cube"; "torus"; "octahedron"; "icosahedron"]%string
              (fun s => s * 0.8 + 0.4)) a h objs Hb Ho)
    as ([a1 h1] & objs1 & E1 & Hb1 & Hc1 & Ho1 & Hl1 & Hp1).
  rewrite E1. cbn [this host] in *.
  destruct (adds_repeat_M 3 _ (adds_fixed_object "icosahedron" (fun s => s * 1.5 + 1))
              a1 h1 objs1 Hb1 Ho1)
    as (s2 & objs2 & E2 & Hb2 & Hc2 & Ho2 & Hl2 & Hp2).
  exists s2, objs2. split; [ exact E2 | ]. split; [ exact Hb2 | ].
  split; [ congruence | ]. split; [ exact Ho2 | ]. split; [ lia | ].
  destruct Hp1 as (? & ? & ?), Hp2 as (? & ? & ?). repeat split; congruence.
Qed.

Lemma HeroAnimator_constructor_present self h :
  "hero-canvas"%string ∈ dom h → webgl h = true →
  ∃ s' objs,
    HeroAnimator_constructor self {| this := empty_object; host := h |} = (s', Normal tt) ∧
    bound (this s') ∧ canvas (this s') = Some "hero-canvas"%string ∧
    objects (this s') = Some objs ∧ length objs = 23%nat ∧
    isPlaying (this s') = Some true ∧
    same_page h (host s').
Proof.
  intros Hin Hgl. rewrite HeroAnimator_constructor_unfold.
  rewrite constructor_present by assumption.
  edestruct adds_createHeroScene as (s' & objs & E & Hb & Hc & Ho & Hl & Hp);
    [ apply (constructed_bound self "hero-canvas" (Some 0x00FFFF%Z) (Some 0xFF00FF%Z) h)
    | reflexivity | ].
  pose proof (silent_createHeroScene
    {| this := constructed self "hero-canvas" (Some 0x00FFFF%Z) (Some 0xFF00FF%Z) h;
       host := with_raf (S (raf_id h)) (raf_callbacks h ++ [(S (raf_id h), self)])
                 (with_listeners (visibility_listeners h ++ [self])
                    (intersection_observers h ++ [self]) h) |}) as Hsilent.
  rewrite E in *. apply (f_equal (fun v => v.1.2)) in Hsilent. cbn in Hsilent.
  exists s', objs. split; [ reflexivity | ]. split; [ exact Hb | ].
  split; [ exact Hc | ]. split; [ exact Ho | ]. split; [ exact Hl | ].
  split; [ exact Hsilent | ].
  destruct Hp as (Hd & Hw & Hcon). destruct h. cbn in *. repeat split; assumption.
Qed.

(** What the first object creation leaves on an object without a scene: the
    draws are made and the identifier is taken before the throw. *)
Lemma random_object_unbound (types : list string) (f : Q → Q) a h :
  scene a = None →
  ∃ h',
    (r ← Math_random;
     s ← Math_random;
     createFloatingGeometry (pick types r)
       {| opt_size := Some (f s); opt_segments := None; opt_detail := None |};;
     mret tt) {| this := a; host := h |} =
      ({| this := a; host := h' |}, Throw (TypeError "scene")) ∧
    console h' = console h ∧ dom h' = dom h ∧ webgl h' = webgl h ∧
    raf_callbacks h' = raf_callbacks h ∧ raf_id h' = raf_id h ∧
    visibility_listeners h' = visibility_listeners h ∧
    intersection_observers h' = intersection_observers h ∧
    draws h' = (15 + draws h)%nat.
Proof.
  destruct a, h. cbn. intros ->. unfold createFloatingGeometry. exec.
  eexists. split; [ reflexivity | ]. repeat split.
Qed.

Lemma HeroAnimator_constructor_missing self h :
  "hero-canvas"%string ∉ dom h →
  ∃ h',
    HeroAnimator_constructor self {| this := empty_object; host := h |} =
      ({| this := empty_object; host := h' |}, Throw (TypeError "scene")) ∧
    console h' = console h ++ [warn_canvas_not_found "hero-canvas"] ∧
    dom h' = dom h ∧ webgl h' = webgl h ∧
    raf_callbacks h' = raf_callbacks h ∧ raf_id h' = raf_id h ∧
    visibility_listeners h' = visibility_listeners h ∧
    intersection_observers h' = intersection_observers h ∧
    draws h' = (15 + draws h)%nat.
Proof.
  intros Hout. rewrite HeroAnimator_constructor_unfold.
  rewrite constructor_missing by assumption.
  destruct (random_object_unbound
              ["sphere"; "cube"; "torus"; "octahedron"; "icosahedron"]%string
              (fun s => s * 0.8 + 0.4) empty_object
              (with_console (console h ++ [warn_canvas_not_found "hero-canvas"]) h) eq_refl)
    as (h' & E & Hc & Hd & Hw & Hcb & Hid & Hv & Hi & Hdr).
  exists h'. split.
  - unfold createHeroScene. unfold mbind at 1, M_bind at 1. cbn [repeat_M].
    unfold mbind at 1, M_bind at 1. rewrite E. reflexivity.
  - destruct h. cbn in *. repeat split; assumption.
Qed.

Lemma initHeroAnimation_present w :
  "hero-canvas"%string ∈ dom (env w) → webgl (env w) = true →
  ∃ a objs,
    heap (initHeroAnimation w) = heap w ++ [a] ∧
    bound a ∧ canvas a = Some "hero-canvas"%string ∧
    objects a = Some objs ∧ length objs = 23%nat ∧
    isPlaying a = Some true ∧
    animators (initHeroAnimation w) =
      Map_set "hero-canvas" (length (heap w)) (animators w) ∧
    same_page (env w) (env (initHeroAnimation w)) ∧
    timers (initHeroAnimation w) = timers w ∧
    cardConfigs (initHeroAnimation w) = cardConfigs w.
Proof.
  intros Hin Hgl. unfold initHeroAnimation, new.
  destruct (HeroAnimator_constructor_present (length (heap w)) (env w) Hin Hgl)
    as (s' & objs & E & Hb & Hc & Ho & Hl & Hplay & Hp).
  rewrite E. exists (this s'), objs. cbn.
  split; [ reflexivity | ]. split; [ exact Hb | ]. split; [ exact Hc | ].
  split; [ exact Ho | ]. split; [ exact Hl | ]. split; [ exact Hplay | ].
  split; [ reflexivity | ]. split; [ exact Hp | split; reflexivity ].
Qed.

Lemma initHeroAnimation_missing w :
  "hero-canvas"%string ∉ dom (env w) →
  heap (initHeroAnimation w) = heap w ++ [empty_object] ∧
  animators (initHeroAnimation w) = animators w ∧
  console (env (initHeroAnimation w)) =
    console (env w) ++ [warn_canvas_not_found "hero-canvas"; error_hero_failed] ∧
  dom (env (initHeroAnimation w)) = dom (env w) ∧
  webgl (env (initHeroAnimation w)) = webgl (env w) ∧
  raf_callbacks (env (initHeroAnimation w)) = raf_callbacks (env w) ∧
  visibility_listeners (env (initHeroAnimation w)) = visibility_listeners (env w) ∧
  intersection_observers (env (initHeroAnimation w)) = intersection_observers (env w) ∧
  timers (initHeroAnimation w) = timers w ∧
  cardConfigs (initHeroAnimation w) = cardConfigs w.
Proof.
  intros Hout. unfold initHeroAnimation, new.
  destruct (HeroAnimator_constructor_missing (length (heap w)) (env w) Hout)
    as (h' & E & Hc & Hd & Hw & Hcb & Hid & Hv & Hi & Hdr).
  rewrite E. unfold console_error, with_heap_env. destruct h'. cbn in *.
  rewrite Hc, <- app_assoc. repeat split; assumption.
Qed.

Lemma initHeroAnimation_no_context w :
  "hero-canvas"%string ∈ dom (env w) → webgl (env w) = false →
  (∃ a, heap (initHeroAnimation w) = heap w ++ [a] ∧ renderer a = None) ∧
  animators (initHeroAnimation w) = animators w ∧
  console (env (initHeroAnimation w)) = console (env w) ++ [error_hero_failed] ∧
  raf_callbacks (env (initHeroAnimation w)) = raf_callbacks (env w) ∧
  visibility_listeners (env (initHeroAnimation w)) = visibility_listeners (env w) ∧
  intersection_observers (env (initHeroAnimation w)) = intersection_observers (env w) ∧
  timers (initHeroAnimation w) = timers w.
Proof.
  intros Hin Hgl. unfold initHeroAnimation, new.
  rewrite HeroAnimator_constructor_unfold, constructor_no_context by assumption.
  unfold console_error, with_heap_env. destruct w as [? []]. cbn.
  split; [ eexists; split; reflexivity | repeat split ].
Qed.

(** X13. [initHeroAnimation()] never throws and has exactly three outcomes.
    With the hero canvas present and a WebGL context available it registers,
    under 'hero-canvas', a running binding with twenty-three objects and logs
    nothing. With the canvas present but no context it logs the one error,
    registers nothing and leaves no listener or frame request. With the
    canvas missing the constructor only warns, the population then fails on
    the missing scene, and the catch logs the error after the warning; again
    nothing is registered and no listener or frame request is left. *)
Theorem initHeroAnimation_outcomes (w : World) :
  let w' := initHeroAnimation w in
  let self := length (heap w) in
  timers w' = timers w ∧
  if bool_decide ("hero-canvas"%string ∈ dom (env w)) then
    if webgl (env w) then
      animators w' = Map_set "hero-canvas" self (animators w) ∧
      console (env w') = console (env w) ∧
      ∃ a objs, heap w' !! self = Some a ∧ bound a ∧
                canvas a = Some "hero-canvas"%string ∧ isPlaying a = Some true ∧
                objects a = Some objs ∧ length objs = 23%nat
    else
      animators w' = animators w ∧
      console (env w') = console (env w) ++ [error_hero_failed] ∧
      raf_callbacks (env w') = raf_callbacks (env w) ∧
      visibility_listeners (env w') = visibility_listeners (env w) ∧
      intersection_observers (env w') = intersection_observers (env w)
  else
    animators w' = animators w ∧
    console (env w') =
      console (env w) ++ [warn_canvas_not_found "hero-canvas"; error_hero_failed] ∧
    raf_callbacks (env w') = raf_callbacks (env w) ∧
    visibility_listeners (env w') = visibility_listeners (env w) ∧
    intersection_observers (env w') = intersection_observers (env w).
Proof.
  cbn zeta. destruct (decide ("hero-canvas"%string ∈ dom (env w))) as [Hin|Hout].
  - rewrite bool_decide_eq_true_2 by exact Hin. destruct (webgl (env w)) eqn:Hgl.
    + destruct (initHeroAnimation_present w Hin Hgl)
        as (a & objs & Hh & Hb & Hc & Ho & Hl & Hp & Ha & (_ & _ & Hcon) & Ht & _).
      split; [ exact Ht | ]. split; [ exact Ha | ]. split; [ exact Hcon | ].
      exists a, objs. rewrite Hh, lookup_app_r, Nat.sub_diag by lia.
      split; [ reflexivity | ]. split; [ exact Hb | ]. split; [ exact Hc | ].
      split; [ exact Hp | ]. split; [ exact Ho | exact Hl ].
    + destruct (initHeroAnimation_no_context w Hin Hgl) as (_ & Ha & Hc & Hcb & Hv & Hi & Ht).
      repeat split; assumption.
  - rewrite bool_decide_eq_false_2 by exact Hout.
    destruct (initHeroAnimation_missing w Hout)
      as (_ & Ha & Hc & _ & _ & Hcb & Hv & Hi & Ht & _).
    repeat split; assumption.
Qed.

(** X14. A card whose canvas exists while no WebGL context can be created:
    the constructor throws before it sets up anything, the catch in the timer
    callback logs one error naming the card, and nothing is registered; no
    listener, observer, frame request or timer is left behind. *)
Theorem initCard_without_context config (w : World) :
  config_id config ∈ dom (env w) → webgl (env w) = false →
  let w' := initCard config w in
  animators w' = animators w ∧
  console (env w') = console (env w) ++ [error_card_failed (config_id config)] ∧
  raf_callbacks (env w') = raf_callbacks (env w) ∧
  visibility_listeners (env w') = visibility_listeners (env w) ∧
  intersection_observers (env w') = intersection_observers (env w) ∧
  timers w' = timers w ∧
  ∃ a, heap w' = heap w ++ [a] ∧ renderer a = None ∧ objects a = None.
Proof.
  intros Hin Hgl. cbn zeta. unfold initCard, new.
  rewrite card_body_unfold, constructor_no_context by assumption.
  unfold console_error, with_heap_env. destruct w as [? []]. cbn.
  repeat split. eexists. repeat split.
Qed.

(** *** The schedule *)

Lemma card_timers_lookup t0 configs :
  ∀ index i config,
    configs !! i = Some config →
    card_timers t0 index configs !! i =
      Some ((t0 + (index + Z.of_nat i) * 50)%Z, task_card config).
Proof.
  induction configs as [|c rest IH]; intros index i config Hi.
  - rewrite lookup_nil in Hi. discriminate.
  - destruct i as [|i]; cbn [card_timers].
    + cbn in Hi. injection Hi as ->. cbn. repeat f_equal. lia.
    + cbn in Hi. change (card_timers t0 (index + 1) rest !! i =
                          Some ((t0 + (index + Z.of_nat (S i)) * 50)%Z, task_card config)).
      rewrite (IH (index + 1)%Z i config Hi). f_equal. f_equal. lia.
Qed.

Lemma card_timers_length t0 configs : ∀ index, length (card_timers t0 index configs) = length configs.
Proof. induction configs as [|c rest IH]; intros index; cbn; [ | rewrite IH ]; reflexivity. Qed.

(** X15. [initCardAnimations()] creates nothing itself: it only queues one
    timer per configured card, behind the timers already due, and the timer
    of the card at position [i] is due [50 * i] ms after the call, so the
    cards are created in configuration order. *)
Theorem initCardAnimations_staggers_by_fifty (w : World) (i : nat) config :
  Forall (fun e => (e.1 ≤ clock (env w))%Z) (timers w) →
  cardConfigs w !! i = Some config →
  let w' := initCardAnimations w in
  timers w' !! (length (timers w) + i)%nat =
    Some ((clock (env w) + 50 * Z.of_nat i)%Z, task_card config) ∧
  length (timers w') = (length (timers w) + length (cardConfigs w))%nat ∧
  (∀ j, (j < length (timers w))%nat → timers w' !! j = timers w !! j) ∧
  heap w' = heap w ∧ env w' = env w ∧ animators w' = animators w.
Proof.
  intros Hq Hi. cbn zeta. unfold initCardAnimations. rewrite stagger_eq; [ | lia | ].
  - cbn [timers heap env animators with_timers].
    split; [ | split; [ | split ] ].
    + rewrite lookup_app_r by lia.
      replace (length (timers w) + i - length (timers w))%nat with i by lia.
      rewrite (card_timers_lookup _ _ 0%Z i config Hi). f_equal. f_equal. lia.
    + rewrite length_app, card_timers_length. reflexivity.
    + intros j Hj. apply lookup_app_l. exact Hj.
    + destruct w. repeat split.
  - eapply Forall_impl; [ exact Hq | ]. cbn. intros; lia.
Qed.

Lemma init_then_timers (w : World) :
  timers w = [] → webgl (env w) = true →
  NoDup (config_id <$> cardConfigs w) →
  (∀ c, c ∈ cardConfigs w → config_id c ∉ (animators w).*1) →
  let w' := run (setTimeout task_initCardAnimations 500 w)
              (ev_timeout :: replicate (length (cardConfigs w)) ev_timeout) in
  timers w' = [] ∧
  (animators w').*1 =
    (animators w).*1 ++ filter (fun k => k ∈ dom (env w)) (config_id <$> cardConfigs w) ∧
  console (env w') =
    console (env w) ++
    (warn_canvas_not_found <$>
       filter (fun k => k ∉ dom (env w)) (config_id <$> cardConfigs w)) ∧
  (∃ more, heap w' = heap w ++ more) ∧
  ∀ k r, (k, r) ∈ animators w' →
    (k, r) ∈ animators w ∨
    ∃ a, heap w' !! r = Some a ∧ bound a ∧ canvas a = Some k ∧ isPlaying a = Some true.
Proof.
  intros Hq Hgl Hnd Hfresh. cbn zeta. cbn [run fold_left step].
  fold (run (timeout (setTimeout task_initCardAnimations 500 w))
          (replicate (length (cardConfigs w)) ev_timeout)).
  unfold timeout, setTimeout. rewrite Hq. cbn [insert_timer timers with_timers run_task].
  set (w2 := with_timers [] _).
  assert (H2 : timers w2 = [] ∧ cardConfigs w2 = cardConfigs w ∧ heap w2 = heap w ∧
               animators w2 = animators w ∧ dom (env w2) = dom (env w) ∧
               webgl (env w2) = webgl (env w) ∧ console (env w2) = console (env w)).
  { destruct w as [? []]. repeat split. }
  clearbody w2. destruct H2 as (Ht2 & Hc2 & Hh2 & Ha2 & Hd2 & Hw2 & Hcon2).
  rewrite initCardAnimations_eq by exact Ht2.
  set (w3 := with_timers _ w2).
  assert (H3 : timers w3 = card_timers (clock (env w2)) 0 (cardConfigs w) ∧
               heap w3 = heap w ∧ animators w3 = animators w ∧
               dom (env w3) = dom (env w) ∧ webgl (env w3) = true ∧
               console (env w3) = console (env w)).
  { subst w3. rewrite <- Hc2, <- Hh2, <- Ha2, <- Hd2, <- Hcon2, <- Hgl, <- Hw2.
    destruct w2. repeat split. }
  clearbody w3. destruct H3 as (Ht3 & Hh3 & Ha3 & Hd3 & Hw3 & Hcon3).
  destruct (run_card_timers (cardConfigs w) w3 _ 0%Z Ht3 Hw3 Hnd)
    as (Rt & Ra & Rc & Rd & Rh & Rb).
  { intros c Hc. rewrite Ha3. apply Hfresh, Hc. }
  cbn zeta in *. rewrite Ha3, Hd3 in Ra. rewrite Hcon3, Hd3 in Rc. rewrite Hh3 in Rh.
  split; [ exact Rt | ]. split; [ exact Ra | ]. split; [ exact Rc | ]. split; [ exact Rh | ].
  intros k r Hin. destruct (Rb k r Hin) as [Hold|(a & objs & Hr & Hb & Hcv & _ & _ & Hp)].
  - left. rewrite <- Ha3. exact Hold.
  - right. exists a. auto.
Qed.

Lemma run_cons w e es : run w (e :: es) = run (step w e) es.
Proof. reflexivity. Qed.

(** X16. The whole of [init()] on a page where a WebGL context is available:
    after [init()] and its twenty-two timers, no timer is pending and the
    registry holds, in this order, 'hero-canvas' if that canvas exists and
    then the configured cards whose canvas exists. Every registered binding
    is running on the canvas it is keyed by. The console holds the warning
    and the error of a missing hero canvas, then one warning per missing
    card canvas, and nothing else. *)
Theorem init_registers_present_canvases (d : list string) :
  let ids := config_id <$> AnimationManager_cardConfigs in
  let w' := run (page d true) (ev_init :: replicate 22 ev_timeout) in
  timers w' = [] ∧
  (animators w').*1 = filter (fun k => k ∈ d) ("hero-canvas"%string :: ids) ∧
  console (env w') =
    (if bool_decide ("hero-canvas"%string ∈ d) then []
     else [warn_canvas_not_found "hero-canvas"; error_hero_failed]) ++
    (warn_canvas_not_found <$> filter (fun k => k ∉ d) ids) ∧
  ∀ k r, (k, r) ∈ animators w' →
    ∃ a, heap w' !! r = Some a ∧ bound a ∧ canvas a = Some k ∧ isPlaying a = Some true.
Proof.
  intros ids w'. subst w' ids. rewrite run_cons. cbn [step]. unfold init.
  assert (Hnd : NoDup (config_id <$> AnimationManager_cardConfigs)) by compute_done.
  assert (Hhero : ∀ c, c ∈ AnimationManager_cardConfigs →
            config_id c ∉ ["hero-canvas"%string]).
  { apply Forall_forall. compute_done. }
  change (replicate 22 ev_timeout)
    with (ev_timeout :: replicate (length AnimationManager_cardConfigs) ev_timeout).
  destruct (decide ("hero-canvas"%string ∈ d)) as [Hin|Hout].
  - destruct (initHeroAnimation_present (page d true) Hin eq_refl)
      as (a & objs & Hh & Hb & Hc & Ho & Hl & Hp & Ha & (Hd & Hw & Hcon) & Ht & Hcc).
    set (w1 := initHeroAnimation (page d true)) in *. clearbody w1.
    cbn in Ha, Hh, Hd, Hw, Hcon, Ht, Hcc.
    destruct (init_then_timers w1) as (Rt & Ra & Rc & [more Rh] & Rb).
    + exact Ht.
    + exact Hw.
    + rewrite Hcc. exact Hnd.
    + intros c Hcin. rewrite Ha, Hcc in *. cbn. apply Hhero, Hcin.
    + rewrite Hcc in *. cbn zeta in *.
      rewrite bool_decide_eq_true_2 by exact Hin.
      rewrite filter_cons_True by exact Hin.
      split; [ exact Rt | ]. split; [ rewrite Ra, Ha, Hd; reflexivity | ].
      split; [ rewrite Rc, Hcon, Hd; reflexivity | ].
      intros k r Hkr. destruct (Rb k r Hkr) as [Hold|Hnew]; [ | exact Hnew ].
      rewrite Ha in Hold. apply list_elem_of_singleton in Hold. injection Hold as -> ->.
      exists a. rewrite Rh, Hh. split; [ reflexivity | auto ].
  - destruct (initHeroAnimation_missing (page d true) Hout)
      as (Hh & Ha & Hcon & Hd & Hw & _ & _ & _ & Ht & Hcc).
    set (w1 := initHeroAnimation (page d true)) in *. clearbody w1.
    cbn in Ha, Hh, Hd, Hw, Hcon, Ht, Hcc.
    destruct (init_then_timers w1) as (Rt & Ra & Rc & [more Rh] & Rb).
    + exact Ht.
    + exact Hw.
    + rewrite Hcc. exact Hnd.
    + intros c Hcin. rewrite Ha. cbn. intros H. inversion H.
    + rewrite Hcc in *. cbn zeta in *.
      rewrite bool_decide_eq_false_2 by exact Hout.
      rewrite filter_cons_False by exact Hout.
      split; [ exact Rt | ]. split; [ rewrite Ra, Ha, Hd; reflexivity | ].
      split; [ rewrite Rc, Hcon, Hd; reflexivity | ].
      intros k r Hkr. destruct (Rb k r Hkr) as [Hold|Hnew]; [ | exact Hnew ].
      rewrite Ha in Hold. inversion Hold.
Qed.

(** *** A page without WebGL *)

Lemma keeps_webgl_ret {A} (v : A) : keeps_webgl (mret v).
Proof. intros s. reflexivity. Qed.

Lemma keeps_webgl_bind {A B} (m : M A) (k : A → M B) :
  keeps_webgl m → (∀ v, keeps_webgl (k v)) → keeps_webgl (m ≫= k).
Proof.
  intros Hm Hk s. unfold mbind, M_bind. specialize (Hm s).
  destruct (m s) as [s' [v|e]]; cbn in *; [ | exact Hm ].
  rewrite <- Hm. apply Hk.
Qed.

Lemma keeps_webgl_repeat_M n body : keeps_webgl body → keeps_webgl (repeat_M n body).
Proof.
  intros Hb. induction n as [|n IH]; cbn [repeat_M].
  - apply keeps_webgl_ret.
  - apply keeps_webgl_bind; auto.
Qed.

Lemma keeps_webgl_forEach {A} (f : A → M unit) l :
  (∀ v, keeps_webgl (f v)) → keeps_webgl (forEach f l).
Proof.
  intros Hf. induction l as [|v l IH]; cbn [forEach].
  - apply keeps_webgl_ret.
  - apply keeps_webgl_bind; auto.
Qed.

Lemma keeps_webgl_Math_random : keeps_webgl Math_random.
Proof. intros s. destruct_state s. reflexivity. Qed.

Lemma keeps_webgl_createFloatingGeometry type options :
  keeps_webgl (createFloatingGeometry type options).
Proof.
  intros s. destruct_state s. unfold createFloatingGeometry.
  destruct scene0, objects0; exec; reflexivity.
Qed.

Lemma keeps_webgl_addRandomObjects count : keeps_webgl (addRandomObjects count).
Proof.
  apply keeps_webgl_repeat_M.
  apply keeps_webgl_bind; [ apply keeps_webgl_Math_random | intros r ].
  apply keeps_webgl_bind; [ apply keeps_webgl_Math_random | intros r' ].
  apply keeps_webgl_bind; [ apply keeps_webgl_createFloatingGeometry | ].
  intros; apply keeps_webgl_ret.
Qed.

Lemma keeps_webgl_pause : keeps_webgl pause.
Proof. intros [a h]. rewrite pause_eq. destruct h. reflexivity. Qed.

Lemma keeps_webgl_animate self : keeps_webgl (animate self).
Proof.
  intros s. destruct_state s. unfold animate. exec.
  destruct (truthy_flag _); [ | reflexivity ].
  destruct objects0, camera0, renderer0; exec; reflexivity.
Qed.

Lemma keeps_webgl_play self : keeps_webgl (play self).
Proof.
  intros s. rewrite play_eq. destruct (truthy_flag _); [ reflexivity | ].
  rewrite keeps_webgl_animate. reflexivity.
Qed.

Lemma keeps_webgl_dispose : keeps_webgl dispose.
Proof.
  unfold dispose. apply keeps_webgl_bind; [ apply keeps_webgl_pause | intros _ ].
  apply keeps_webgl_bind.
  { intros s. destruct_state s. cbn. destruct objects0; reflexivity. }
  intros objs. apply keeps_webgl_bind.
  { apply keeps_webgl_forEach. intros obj s. destruct_state s.
    unfold dispose_object. destruct scene0; exec; reflexivity. }
  intros _ s. destruct_state s. cbn. destruct renderer0; reflexivity.
Qed.

Lemma keeps_webgl_method m self : keeps_webgl (method m self).
Proof.
  destruct m; cbn [method].
  - apply keeps_webgl_bind; [ apply keeps_webgl_createFloatingGeometry | ].
    intros; apply keeps_webgl_ret.
  - apply keeps_webgl_addRandomObjects.
  - apply keeps_webgl_play.
  - apply keeps_webgl_pause.
  - apply keeps_webgl_dispose.
Qed.

Lemma keeps_webgl_on_visibilitychange self : keeps_webgl (on_visibilitychange self).
Proof.
  intros s. unfold on_visibilitychange, mbind, M_bind, get_host.
  destruct (hidden (host s)); [ apply keeps_webgl_pause | apply keeps_webgl_play ].
Qed.

Lemma keeps_webgl_on_intersection self target b :
  keeps_webgl (on_intersection self target b).
Proof.
  intros s. unfold on_intersection, mbind, M_bind, get_this.
  destruct (bool_decide _); [ | reflexivity ].
  destruct b; [ apply keeps_webgl_play | apply keeps_webgl_pause ].
Qed.

Lemma NoGL_call {A} r (m : M A) w :
  keeps_webgl m → stays_unbound m → NoGL w → NoGL (call r m w).1.
Proof.
  intros Hk Hu (Hgl & Hreg & Hheap). unfold call.
  destruct (heap w !! r) as [a|] eqn:Hr; [ | repeat split; assumption ].
  specialize (Hk {| this := a; host := env w |}).
  specialize (Hu {| this := a; host := env w |} (Hheap r a Hr)).
  destruct (m _) as [s c]. cbn [fst snd this host] in *.
  unfold with_heap_env. split; [ cbn; congruence | ]. split; [ exact Hreg | ].
  intros r0 a0 Hr0. cbn [heap] in Hr0. destruct (decide (r = r0)) as [<-|Hne].
  - rewrite list_lookup_insert_eq in Hr0 by (eapply lookup_lt_Some; exact Hr). congruence.
  - rewrite list_lookup_insert_ne in Hr0 by exact Hne. eauto.
Qed.

Lemma NoGL_new {A} (body : nat → M A) w :
  (∀ h, webgl h = false →
     webgl (host (body (length (heap w)) {| this := empty_object; host := h |}).1) = false ∧
     renderer (this (body (length (heap w)) {| this := empty_object; host := h |}).1) = None) →
  NoGL w → NoGL (new body w).1.1.
Proof.
  intros Hb (Hgl & Hreg & Hheap). unfold new. destruct (Hb (env w) Hgl) as [Hw Hr].
  destruct (body _ _) as [s c]. cbn [fst snd] in *. unfold with_heap_env.
  split; [ exact Hw | ]. split; [ exact Hreg | ].
  intros r a Ha. cbn [heap] in Ha. apply lookup_app_Some in Ha as [Ha|[_ Ha]]; [ eauto | ].
  apply list_lookup_singleton_Some in Ha as [_ <-]. exact Hr.
Qed.

Lemma NoGL_dispatch handler listeners w :
  (∀ r, keeps_webgl (handler r)) → (∀ r, stays_unbound (handler r)) →
  NoGL w → NoGL (dispatch handler listeners w).
Proof.
  intros Hk Hu. revert w. induction listeners as [|r rest IH]; intros w HI; cbn [dispatch].
  - exact HI.
  - apply IH, NoGL_call; auto.
Qed.

Lemma keeps_webgl_createHeroScene : keeps_webgl createHeroScene.
Proof.
  apply keeps_webgl_bind; [ | intros _ ]; apply keeps_webgl_repeat_M.
  - apply keeps_webgl_bind; [ apply keeps_webgl_Math_random | intros r ].
    apply keeps_webgl_bind; [ apply keeps_webgl_Math_random | intros r' ].
    apply keeps_webgl_bind; [ apply keeps_webgl_createFloatingGeometry | ].
    intros; apply keeps_webgl_ret.
  - apply keeps_webgl_bind; [ apply keeps_webgl_Math_random | intros r' ].
    apply keeps_webgl_bind; [ apply keeps_webgl_createFloatingGeometry | ].
    intros; apply keeps_webgl_ret.
Qed.

Lemma constructor_without_webgl self canvasId c1 c2 h :
  webgl h = false →
  let res := constructor self canvasId c1 c2 {| this := empty_object; host := h |} in
  webgl (host res.1) = false ∧ renderer (this res.1) = None ∧
  (res.2 = Throw WebGLError ∨
   res.2 = Normal tt ∧ canvas (this res.1) = None ∧ scene (this res.1) = None).
Proof.
  intros Hgl. cbn zeta. destruct (decide (canvasId ∈ dom h)) as [Hin|Hout].
  - rewrite constructor_no_context by assumption. cbn.
    split; [ exact Hgl | ]. split; [ reflexivity | left; reflexivity ].
  - rewrite constructor_missing by assumption. cbn.
    split; [ destruct h; exact Hgl | ]. split; [ reflexivity | right; repeat split ].
Qed.

Lemma card_body_without_webgl config self h :
  webgl h = false →
  let res := card_body config self {| this := empty_object; host := h |} in
  webgl (host res.1) = false ∧ renderer (this res.1) = None ∧ res.2 ≠ Normal true.
Proof.
  intros Hgl. cbn zeta. rewrite card_body_unfold.
  pose proof (constructor_without_webgl self (config_id config)
                (Some (config_colors config).1) (Some (config_colors config).2) h Hgl) as H.
  cbn zeta in H. destruct (constructor _ _ _ _ _) as [s c]. cbn [fst snd] in H.
  destruct H as (Hw & Hr & [->|(-> & Hc & _)]).
  - split; [ exact Hw | ]. split; [ exact Hr | discriminate ].
  - rewrite Hc. split; [ exact Hw | ]. split; [ exact Hr | discriminate ].
Qed.

Lemma HeroAnimator_constructor_without_webgl self h :
  webgl h = false →
  let res := HeroAnimator_constructor self {| this := empty_object; host := h |} in
  webgl (host res.1) = false ∧ renderer (this res.1) = None ∧ ∃ e, res.2 = Throw e.
Proof.
  intros Hgl. cbn zeta. rewrite HeroAnimator_constructor_unfold.
  pose proof (constructor_without_webgl self "hero-canvas" (Some 0x00FFFF%Z)
                (Some 0xFF00FF%Z) h Hgl) as H.
  cbn zeta in H. destruct (constructor _ _ _ _ _) as [s c]. cbn [fst snd] in H.
  destruct H as (Hw & Hr & [->|(-> & _ & Hs)]).
  - split; [ exact Hw | ]. split; [ exact Hr | eexists; reflexivity ].
  - rewrite keeps_webgl_createHeroScene. split; [ exact Hw | ].
    split; [ apply stays_unbound_createHeroScene, Hr | ].
    eexists. apply createHeroScene_throws, Hs.
Qed.

Lemma NoGL_console e w : NoGL w → NoGL (console_error e w).
Proof. intros (Hgl & Hreg & Hheap). destruct w as [? []]. repeat split; assumption. Qed.

Lemma NoGL_initCard config w : NoGL w → NoGL (initCard config w).
Proof.
  intros HI. unfold initCard.
  assert (HI' : NoGL (new (card_body config) w).1.1).
  { apply NoGL_new; [ | exact HI ]. intros h Hgl.
    destruct (card_body_without_webgl config (length (heap w)) h Hgl) as (? & ? & _). auto. }
  destruct (new_lookup (card_body config) w) as (_ & Hc & _).
  destruct (card_body_without_webgl config (length (heap w)) (env w) (proj1 HI))
    as (_ & _ & Hne).
  destruct (new (card_body config) w) as [[w1 r] c]. cbn [fst snd] in *. subst c.
  destruct (card_body config _ _) as [s [[|]|e]]; cbn [fst snd] in *.
  - congruence.
  - exact HI'.
  - apply NoGL_console, HI'.
Qed.

Lemma NoGL_initHeroAnimation w : NoGL w → NoGL (initHeroAnimation w).
Proof.
  intros HI. unfold initHeroAnimation.
  assert (HI' : NoGL (new HeroAnimator_constructor w).1.1).
  { apply NoGL_new; [ | exact HI ]. intros h Hgl.
    destruct (HeroAnimator_constructor_without_webgl (length (heap w)) h Hgl) as (? & ? & _).
    auto. }
  destruct (new_lookup HeroAnimator_constructor w) as (_ & Hc & _).
  destruct (HeroAnimator_constructor_without_webgl (length (heap w)) (env w) (proj1 HI))
    as (_ & _ & e & He).
  destruct (new HeroAnimator_constructor w) as [[w1 r] c]. cbn [fst snd] in *. subst c.
  rewrite He. apply NoGL_console, HI'.
Qed.

Lemma NoGL_timers q w : NoGL w → NoGL (with_timers q w).
Proof. intros H. exact H. Qed.

Lemma NoGL_stagger configs index w : NoGL w → NoGL (stagger configs index w).
Proof.
  revert index w. induction configs as [|c rest IH]; intros index w HI; cbn [stagger].
  - exact HI.
  - apply IH. exact HI.
Qed.

Lemma NoGL_step w e : NoGL w → NoGL (step w e).
Proof.
  intros HI. pose proof HI as (Hgl & Hreg & Hheap). destruct e; cbn [step].
  - apply NoGL_new; [ | exact HI ]. intros h Hh.
    destruct (constructor_without_webgl (length (heap w)) canvasId c1 c2 h Hh) as (? & ? & _).
    auto.
  - apply NoGL_new; [ | exact HI ]. intros h Hh.
    destruct (HeroAnimator_constructor_without_webgl (length (heap w)) h Hh) as (? & ? & _).
    auto.
  - apply NoGL_call; [ apply keeps_webgl_method | apply stays_unbound_method | exact HI ].
  - unfold frame. destruct (list_find _ _) as [[i [id r]]|]; [ | exact HI ].
    apply NoGL_call; [ apply keeps_webgl_animate | apply stays_unbound_animate | ].
    destruct w as [? []]. exact HI.
  - apply NoGL_dispatch;
      [ apply keeps_webgl_on_visibilitychange | apply stays_unbound_on_visibilitychange | ].
    destruct w as [? []]. exact HI.
  - apply NoGL_dispatch;
      [ intros; apply keeps_webgl_on_intersection
      | intros; apply stays_unbound_on_intersection | exact HI ].
  - destruct w as [? []]. exact HI.
  - unfold timeout. destruct (timers w) as [|[due [|config]] q]; [ exact HI | | ].
    + apply NoGL_stagger. destruct w as [? []]. exact HI.
    + apply NoGL_initCard. destruct w as [? []]. exact HI.
  - unfold init, setTimeout. apply NoGL_timers, NoGL_initHeroAnimation, HI.
  - unfold pauseAll. rewrite Hreg. exact HI.
  - unfold playAll. rewrite Hreg. exact HI.
  - unfold AnimationManager_dispose. rewrite Hreg. cbn [forEach_animator fst].
    split; [ exact Hgl | split; [ reflexivity | exact Hheap ] ].
Qed.

Lemma NoGL_run es w : NoGL w → NoGL (run w es).
Proof.
  revert w. induction es as [|e es IH]; intros w HI; cbn; [ exact HI | ].
  apply IH, NoGL_step, HI.
Qed.

(** X17. On a page where no WebGL context can be created, whatever the page
    and its callers do, no animator ever gets a renderer and the registry
    stays empty: every construction fails before anything is set up (or finds
    no canvas), each failure inside the pool is caught, and [pauseAll()],
    [playAll()] and the pool's [dispose()] have nothing to iterate over. *)
Theorem without_webgl_nothing_is_registered d (es : list Event) :
  let w := run (page d false) es in
  webgl (env w) = false ∧
  animators w = [] ∧
  (∀ r a, heap w !! r = Some a → renderer a = None) ∧
  (pauseAll w = (w, Normal tt) ∧ playAll w = (w, Normal tt)).
Proof.
  cbn zeta. destruct (NoGL_run es (page d false)) as (Hgl & Hreg & Hheap).
  { split; [ reflexivity | ]. split; [ reflexivity | ].
    intros r a Hr. cbn in Hr. rewrite lookup_nil in Hr. discriminate. }
  split; [ exact Hgl | ]. split; [ exact Hreg | ]. split; [ exact Hheap | ].
  unfold pauseAll, playAll. rewrite Hreg. split; reflexivity.
Qed.

End Proofs.

(** * Concrete runs *)

#[local] Existing Instance sample_runtime.

Lemma sample_random_range n : 0 <= sample_random n ∧ sample_random n < 1.
Proof.
  unfold sample_random, Qle, Qlt. cbn [Qnum Qden].
  pose proof (Nat.mod_upper_bound (37 * n + 11) 100). lia.
Qed.

Lemma sample_binding_bound : bound sample_binding.
Proof. vm_compute. repeat split; eexists; reflexivity. Qed.

(** ** C1 *)

(** On a page whose canvas is reported off screen, showing the document again
    makes the binding run: it is running while the intersection source
    reports not-visible. *)
Lemma running_while_not_intersecting :
  let w := sample_run (page ["c"%string] true)
             [ev_new "c" None None;
              ev_intersection "c" false;
              ev_visibilitychange false] in
  isPlaying <$> heap w !! 0%nat = Some (Some true) ∧
  last_report "c" w = Some false ∧
  hidden (env w) = false ∧
  both_visible "c" w = false.
Proof. vm_compute. repeat split; reflexivity. Qed.

Lemma visibility_last_report_wins_witness :
  heap sample_world !! 0%nat = Some sample_binding ∧
  (∃ a', heap (step sample_world
                 (ev_visibilitychange true)) !! 0%nat = Some a' ∧
         isPlaying a' = Some false) ∧
  (∃ a', heap (step sample_world
                 (ev_intersection "c" true)) !! 0%nat = Some a' ∧
         isPlaying a' = Some true).
Proof.
  assert (H : heap sample_world !! 0%nat = Some sample_binding) by (vm_compute; reflexivity).
  split; [ exact H | ].
  destruct (visibility_last_report_wins
              sample_world 0 sample_binding H) as [Hv Hi].
  split.
  - apply (Hv true). vm_compute. left.
  - apply (Hi "c"%string true); [ vm_compute; left | vm_compute; reflexivity ].
Defined.

(** ** C2 *)

(** [init()], then pool [dispose()] before the startup timers fire, then the
    timers: the registry, empty after [dispose()], holds a running binding
    again. *)
Lemma creation_after_dispose :
  let w1 := sample_run (page ["about-canvas-1"%string] true) [ev_init; ev_dispose] in
  let w2 := sample_run w1 [ev_timeout; ev_timeout] in
  animators w1 = [] ∧
  length (timers w1) = 1%nat ∧
  animators w2 = [("about-canvas-1"%string, 1%nat)] ∧
  isPlaying <$> heap w2 !! 1%nat = Some (Some true).
Proof. vm_compute. repeat split; reflexivity. Qed.

Lemma dispose_leaves_pending_creations_witness :
  registry_bound staggering_world ∧
  animators staggering_world = [("hero-canvas"%string, 0%nat)] ∧
  let res := AnimationManager_dispose staggering_world in
  res.2 = Normal tt ∧
  animators res.1 = [] ∧
  animators (step res.1 ev_timeout) =
    [("about-canvas-1"%string, 1%nat)].
Proof.
  assert (Hreg : animators staggering_world = [("hero-canvas"%string, 0%nat)])
    by (vm_compute; reflexivity).
  assert (Hb : registry_bound staggering_world).
  { intros k r Hin. rewrite Hreg in Hin. apply list_elem_of_singleton in Hin.
    injection Hin as -> ->.
    exists (default empty_object (heap staggering_world !! 0%nat)).
    split; [ vm_compute; reflexivity | ].
    vm_compute. repeat split; eexists; reflexivity. }
  split; [ exact Hb | ]. split; [ exact Hreg | ].
  destruct (dispose_leaves_pending_creations
              staggering_world
              {| config_id := "about-canvas-1"; config_colors := (0x00FFFF, 0x6600CC)%Z |}
              500%Z (List.tl (timers staggering_world)) Hb)
    as (Hc & Ha & _ & _ & a & Hreg2 & _);
    [ vm_compute; reflexivity | vm_compute; right; left | vm_compute; reflexivity | ].
  cbn zeta. split; [ exact Hc | ]. split; [ exact Ha | ]. exact Hreg2.
Defined.

(** ** C3 *)

(** A running binding whose objects a frame has already animated: [pause()]
    leaves the rotation of its object as it is, and the [play()] that follows
    at once, at the same clock time, moves it on by the object's velocity
    (0.004 on x). *)
Lemma pause_play_moves_rotation :
  let paused := sample_run running_world [ev_call 0 m_pause] in
  let resumed := sample_run paused [ev_call 0 m_play] in
  isPlaying <$> heap running_world !! 0%nat = Some (Some true) ∧
  Qred ∘ vx ∘ rotation <$> object_at running_world 0 0 =
    Some (261143992082759381 # 70368744177664000) ∧
  Qred ∘ vx ∘ rotation <$> object_at paused 0 0 =
    Some (261143992082759381 # 70368744177664000) ∧
  Qred ∘ vx ∘ rotation <$> object_at resumed 0 0 =
    Some (261425467059470037 # 70368744177664000) ∧
  clock (env resumed) = clock (env running_world).
Proof. vm_compute. repeat split; reflexivity. Qed.

Lemma pause_play_runs_one_frame_witness :
  isPlaying sample_binding = Some true ∧
  let r := play 0
             (pause {| this := sample_binding; host := sample_host |}).1 in
  r.2 = Normal tt ∧
  isPlaying (this r.1) = Some true ∧
  raf_callbacks (host r.1) = [(2%nat, 0%nat)].
Proof.
  assert (Hp : isPlaying sample_binding = Some true) by (vm_compute; reflexivity).
  split; [ exact Hp | ].
  destruct (pause_play_runs_one_frame 0 sample_binding sample_host
              (default [] (objects sample_binding)) sample_binding_bound Hp)
    as (Hc & Hplay & _ & Hcbs & _); [ vm_compute; reflexivity | ].
  cbn zeta. split; [ exact Hc | ]. split; [ exact Hplay | ].
  rewrite Hcbs. vm_compute. reflexivity.
Defined.

(** ** C4 *)

Lemma dispose_idempotent_witness :
  repeat_M 3 dispose {| this := sample_binding; host := sample_host |} =
    repeat_M 1 dispose {| this := sample_binding; host := sample_host |} ∧
  (repeat_M 3 dispose {| this := sample_binding; host := sample_host |}).2 = Normal tt.
Proof.
  apply (dispose_idempotent sample_binding sample_host 3 sample_binding_bound). lia.
Defined.

(** ** C5 *)

(** A page with two of the twenty-one card canvases. *)
Lemma pool_init_skips_missing_targets_witness :
  let w := page ["about-canvas-1"; "faq-canvas-2"]%string true in
  let w' := sample_run (initCardAnimations w) (replicate 21 ev_timeout) in
  timers w' = [] ∧
  (animators w').*1 = ["about-canvas-1"; "faq-canvas-2"]%string ∧
  length (animators w') = 2%nat ∧
  length (console (env w')) = 19%nat.
Proof.
  cbn zeta.
  destruct (pool_init_skips_missing_targets
              (page ["about-canvas-1"; "faq-canvas-2"]%string true))
    as (Ht & Hk & Hl & Hc & _).
  - reflexivity.
  - reflexivity.
  - compute_done.
  - intros c _ Hin. inversion Hin.
  - cbn zeta in *. apply (f_equal length) in Hc.
    split; [ exact Ht | ].
    split; [ etransitivity; [ exact Hk | vm_compute; reflexivity ] | ].
    split; [ etransitivity; [ exact Hl | vm_compute; reflexivity ] | ].
    etransitivity; [ exact Hc | vm_compute; reflexivity ].
Defined.

(** ** C7 *)

Lemma createFloatingGeometry_appends_one_witness :
  let r := createFloatingGeometry (Some "blob"%string) no_options
             {| this := sample_binding; host := sample_host |} in
  ∃ mesh objs,
    objects sample_binding = Some objs ∧
    r.2 = Normal mesh ∧
    objects (this r.1) = Some (objs ++ [mesh]) ∧
    geometry mesh = SphereGeometry 0.8 32 32.
Proof.
  destruct (createFloatingGeometry_appends_one sample_binding sample_host
              (Some "blob"%string) no_options sample_binding_bound)
    as (mesh & objs & sc & Ho & _ & Hc & Happ & _ & _ & Hdefault & _).
  exists mesh, objs. split; [ exact Ho | ]. split; [ exact Hc | ]. split; [ exact Happ | ].
  apply Hdefault. intros t Ht. injection Ht as <-. compute_done.
Defined.

(** ** C8 *)

Lemma created_attributes_in_bounds_witness :
  ∃ mesh,
    (createFloatingGeometry None no_options
       {| this := sample_binding; host := sample_host |}).2 = Normal mesh ∧
    (material_color mesh = ColorHex 65535 ∨ material_color mesh = ColorHex 16711935) ∧
    -(3) <= vx (position mesh) ∧ vx (position mesh) < 3 ∧
    0 <= vx (rotation mesh) ∧ vx (rotation mesh) < 2 * Math_PI.
Proof.
  destruct (created_attributes_in_bounds (rt := sample_runtime) sample_binding sample_host
              None no_options sample_random_range sample_binding_bound)
    as (mesh & c1 & c2 & Hc & H1 & H2 & Hcol & [Hx1 Hx2] & _ & _ & [Hr1 Hr2] & _).
  exists mesh. split; [ exact Hc | ].
  vm_compute in H1. vm_compute in H2. injection H1 as <-. injection H2 as <-.
  split; [ exact Hcol | ]. repeat split; assumption.
Defined.

(** ** C9 *)

Lemma frame_colors_independent_of_palette_witness :
  color1 sample_binding = Some 0x00FFFF%Z ∧
  color1 sample_binding' = Some 0xFFFF00%Z ∧
  material_color <$> object_at sample_world 0 0 = Some (ColorHex 16711935) ∧
  objects (this (animate 0
                   {| this := sample_binding; host := sample_host |}).1) =
  objects (this (animate 0
                   {| this := sample_binding'; host := sample_host |}).1).
Proof.
  split; [ vm_compute; reflexivity | ]. split; [ vm_compute; reflexivity | ].
  split; [ vm_compute; reflexivity | ].
  destruct (frame_colors_independent_of_palette 0
              sample_binding sample_binding' sample_host)
    as (_ & _ & Hsame & _).
  - vm_compute. repeat split. repeat constructor.
  - exact sample_binding_bound.
  - vm_compute. reflexivity.
  - exact Hsame.
Defined.

(** ** C10 *)

Lemma play_after_dispose_restarts_witness :
  let s1 := (dispose {| this := sample_binding; host := sample_host |}).1 in
  let r1 := play 0 s1 in
  r1.2 = Normal tt ∧
  isPlaying (this r1.1) = Some true ∧
  objects (this r1.1) = Some [] ∧
  (2%nat, 0%nat) ∈ raf_callbacks (host r1.1).
Proof.
  destruct (play_after_dispose_restarts 0 sample_binding sample_host
              sample_binding_bound)
    as (Hc & Hp & Ho & _ & Hin & _).
  cbn zeta. split; [ exact Hc | ]. split; [ exact Hp | ]. split; [ exact Ho | exact Hin ].
Defined.

(** ** Reachable states *)

Ltac qcompare := vm_compute; first [ reflexivity | discriminate ].

Lemma sample_binding_wf : wf_binding sample_binding.
Proof.
  destruct (run_WF
              [ev_new "c" None None;
               ev_call 0 (m_createFloatingGeometry (Some "cube"%string) no_options)]
              (page ["c"%string] true) (page_WF _ _)) as (Hheap & _).
  destruct (Hheap 0%nat sample_binding) as [H|H];
    [ vm_compute; reflexivity | vm_compute in H; discriminate | exact H ].
Qed.

Lemma sample_binding_objects :
  objects sample_binding = Some (default [] (objects sample_binding)).
Proof. vm_compute. reflexivity. Qed.

Lemma registry_holds_constructed_bindings_witness :
  let w := run (page ["about-canvas-1"%string] true) card_page_events in
  ∃ a, heap w !! 1%nat = Some a ∧ bound a ∧ canvas a = Some "about-canvas-1"%string.
Proof.
  intros w. subst w.
  destruct (registry_holds_constructed_bindings ["about-canvas-1"%string] true card_page_events)
    as [_ H].
  apply (H "about-canvas-1"%string 1%nat). vm_compute. left.
Defined.

Lemma pauseAll_stops_every_registered_witness :
  let w := run (page ["about-canvas-1"%string] true) card_page_events in
  ∃ a, heap (pauseAll w).1 !! 1%nat = Some a ∧ isPlaying a = Some false ∧
       outstanding 1 (pauseAll w).1 = [].
Proof.
  intros w. subst w.
  destruct (pauseAll_stops_every_registered ["about-canvas-1"%string] true card_page_events)
    as (_ & _ & _ & _ & H).
  apply (H "about-canvas-1"%string 1%nat). vm_compute. left.
Defined.

Lemma playAll_starts_every_registered_witness :
  let w := run (page ["about-canvas-1"%string] true) (card_page_events ++ [ev_pauseAll]) in
  ∃ a id, heap (playAll w).1 !! 1%nat = Some a ∧
          isPlaying a = Some true ∧ animationId a = Some id ∧
          outstanding 1 (playAll w).1 = [(id, 1%nat)].
Proof.
  intros w. subst w.
  destruct (playAll_starts_every_registered ["about-canvas-1"%string] true
              (card_page_events ++ [ev_pauseAll])) as (_ & _ & _ & _ & H).
  apply (H "about-canvas-1"%string 1%nat). vm_compute. left.
Defined.

Lemma pool_dispose_releases_every_registered_witness :
  let w := run (page ["about-canvas-1"%string] true) card_page_events in
  animators (AnimationManager_dispose w).1 = [] ∧
  ∃ a, heap (AnimationManager_dispose w).1 !! 1%nat = Some a ∧
       isPlaying a = Some false ∧
       outstanding 1 (AnimationManager_dispose w).1 = [] ∧
       objects a = Some [] ∧ scene a = Some lights ∧
       (disposed <$> renderer a) = Some true.
Proof.
  intros w. subst w.
  destruct (pool_dispose_releases_every_registered ["about-canvas-1"%string] true
              card_page_events) as (_ & Hempty & H).
  split; [ exact Hempty | ]. apply (H "about-canvas-1"%string 1%nat). vm_compute. left.
Defined.

Lemma scene_mirrors_object_list_witness :
  ∃ objs,
    objects sample_binding = Some objs ∧
    scene sample_binding = Some (lights ++ (MeshNode ∘ uid <$> objs)) ∧
    Forall anchored objs ∧
    (vz <$> camera sample_binding) = Some 5.
Proof.
  apply (scene_mirrors_object_list ["c"%string] true
           [ev_new "c" None None;
            ev_call 0 (m_createFloatingGeometry (Some "cube"%string) no_options)]
           0%nat sample_binding).
  - vm_compute. reflexivity.
  - vm_compute. discriminate.
Defined.

(** ** Frames *)

Lemma frame_motion_is_bounded_witness :
  let obj' := animate_object 2 0 sample_mesh in
  (0.960 - 0.1 * 0.6950 <= vy (position obj') ∧ vy (position obj') <= 0.960 + 0.1 * 0.6950) ∧
  (0.9 * 0.8 <= vx (scale obj') ∧ vx (scale obj') <= 1.1 * 0.8) ∧
  ∃ hue, material_color obj' = ColorHSL hue 0.7 0.6 ∧ 0 <= hue ∧ hue < 1.
Proof.
  destruct (frame_motion_is_bounded 2 0 sample_mesh)
    as (Hy & Hs & _ & _ & Hhue); [ qcompare | qcompare | qcompare | | | ].
  - split; qcompare.
  - split; qcompare.
  - cbn zeta. split; [ exact Hy | ]. split; [ exact Hs | exact Hhue ].
Defined.

(** ** Disposal and populations *)

Lemma dispose_releases_owned_objects_witness :
  let res := dispose {| this := sample_binding; host := sample_host |} in
  res.2 = Normal tt ∧
  released (host res.1) = [0%nat] ∧
  scene (this res.1) = Some lights ∧
  objects (this res.1) = Some [].
Proof.
  destruct (dispose_releases_owned_objects sample_binding sample_host _
              sample_binding_wf sample_binding_objects)
    as (Hc & Hrel & Hs & Ho & _).
  cbn zeta. split; [ exact Hc | ]. split; [ | split; [ exact Hs | exact Ho ] ].
  etransitivity; [ exact Hrel | vm_compute; reflexivity ].
Defined.

Lemma addRandomObjects_population_witness :
  ∃ more,
    objects (this (addRandomObjects 2 {| this := sample_binding; host := sample_host |}).1) =
      Some (default [] (objects sample_binding) ++ more) ∧
    length more = 2%nat ∧
    Forall (fun m => 0.5 <= userData_scale (userData m) ∧ userData_scale (userData m) <= 1) more.
Proof.
  destruct (addRandomObjects_population (rt := sample_runtime) 2 sample_binding sample_host _
              sample_random_range sample_binding_bound sample_binding_objects)
    as (more & _ & Ho & Hl & HP).
  exists more. split; [ exact Ho | ]. split; [ exact Hl | ].
  eapply Forall_impl; [ exact HP | ].
  intros m (t & sz & _ & _ & -> & H1 & H2). split; assumption.
Defined.

Lemma createHeroScene_population_witness :
  ∃ small large,
    objects (this (createHeroScene {| this := sample_binding; host := sample_host |}).1) =
      Some (default [] (objects sample_binding) ++ small ++ large) ∧
    length small = 20%nat ∧ length large = 3%nat ∧
    Forall (fun m => primitive (geometry m) ≠ Tetrahedron) small ∧
    Forall (fun m => primitive (geometry m) = Icosahedron) large.
Proof.
  destruct (createHeroScene_population (rt := sample_runtime) sample_binding sample_host _
              sample_random_range sample_binding_bound sample_binding_objects)
    as (small & large & _ & Ho & Hl1 & Hl2 & HP1 & HP2).
  exists small, large. split; [ exact Ho | ]. split; [ exact Hl1 | ]. split; [ exact Hl2 | ].
  split.
  - eapply Forall_impl; [ exact HP1 | ]. intros m [Hin _] Heq. rewrite Heq in Hin.
    repeat (apply elem_of_cons in Hin as [Hin|Hin]; [ discriminate | ]). inversion Hin.
  - eapply Forall_impl; [ exact HP2 | ]. intros m (sz & -> & _). reflexivity.
Defined.

(** ** Initialization *)

Lemma initCard_without_context_witness :
  let config := {| config_id := "about-canvas-1"; config_colors := (0x00FFFF, 0x6600CC)%Z |} in
  let w' := initCard config (page ["about-canvas-1"%string] false) in
  animators w' = [] ∧
  console (env w') = [error_card_failed "about-canvas-1"] ∧
  raf_callbacks (env w') = [] ∧
  visibility_listeners (env w') = [] ∧
  intersection_observers (env w') = [].
Proof.
  destruct (initCard_without_context
              {| config_id := "about-canvas-1"; config_colors := (0x00FFFF, 0x6600CC)%Z |}
              (page ["about-canvas-1"%string] false))
    as (Ha & Hc & Hcb & Hv & Hi & _); [ left | reflexivity | ].
  cbn zeta. repeat split; assumption.
Defined.

Lemma initCardAnimations_staggers_by_fifty_witness :
  timers (initCardAnimations (page [] true)) !! 2%nat =
    Some (100%Z,
          task_card {| config_id := "about-canvas-3"; config_colors := (0xFFFF00, 0xFF6600)%Z |}) ∧
  length (timers (initCardAnimations (page [] true))) = 21%nat.
Proof.
  destruct (initCardAnimations_staggers_by_fifty (page [] true) 2
              {| config_id := "about-canvas-3"; config_colors := (0xFFFF00, 0xFF6600)%Z |})
    as (Hi & Hl & _); [ constructor | reflexivity | ].
  split; [ exact Hi | exact Hl ].
Defined.
